(** * Sparse coding with dictionary learning (mlpack): a shallow embedding

    Source: [src/mlpack/methods/sparse_coding/sparse_coding_impl.hpp].

    Conventions of the embedding.
    - [size_t] / [arma::uword] values are integers in [Z]; every arithmetic
      operation the source performs on them is written with its reduction
      modulo [2^64] ([size_t] is taken to be 64 bits wide).
    - The arithmetic of [double] is a parameter of the model (the class
      [Arith]): the operations, the comparisons and the constants the
      source uses.  It has two instances.  [Arith_b64] is IEEE 754
      binary64, the arithmetic of the program: every operation rounds to
      nearest, there are infinities, signed zeros and NaN, and a
      comparison with NaN is false.  [Arith_R] is exact arithmetic on the
      real numbers.  What is proved for every instance holds of the
      program; what is proved for [Arith_R] only is a statement about the
      exact values, and says so.
    - Armadillo's arithmetic routines (products, sums, norms, traces) are
      their defining formulas over the entries, each operation being one
      of the arithmetic; a sum is accumulated from zero in index order.
    - A dense Armadillo matrix is its two dimensions together with its
      entries, read by (row, column).  Equality of matrices is stated
      entry by entry.
    - What the source calls but does not define is a parameter: the
      Armadillo routines [solve] and [inv], the LARS regression, the
      dictionary initialiser, the random number generator, and the
      contents of matrix storage that was allocated and not filled.
    - The loops the source does not bound take a fuel argument and return
      [None] when it runs out. *)

From Stdlib Require Import Floats.
From Stdlib Require Import ZArith List Bool Reals Lia Lra.
From Stdlib Require Import FunctionalExtensionality.
Import ListNotations.

Local Open Scope Z_scope.

(** ** Machine integers *)

Module SizeT.

Definition modulus : Z := 2 ^ 64.

Definition wrap (z : Z) : Z := z mod modulus.

Definition add (a b : Z) : Z := wrap (a + b).
Definition sub (a b : Z) : Z := wrap (a - b).
Definition mul (a b : Z) : Z := wrap (a * b).

(** The values a [size_t] can hold. *)
Definition inrange (z : Z) : Prop := 0 <= z < modulus.

End SizeT.

Declare Scope size_scope.
Delimit Scope size_scope with sz.
Infix "+%" := SizeT.add (at level 50, left associativity) : size_scope.
Infix "-%" := SizeT.sub (at level 50, left associativity) : size_scope.
Infix "*%" := SizeT.mul (at level 40, left associativity) : size_scope.
Local Open Scope size_scope.

(** ** Option as the error monad

    [None] stands for a call that does not return normally: an Armadillo
    bounds check that throws, a failed solve, a division by zero on
    integers, or a loop of the model that ran out of fuel. *)

Definition bind {A B : Type} (m : option A) (k : A -> option B) : option B :=
  match m with
  | Some a => k a
  | None => None
  end.

Notation "x <- m ;; k" := (bind m (fun x => k))
  (at level 61, m at next level, right associativity).
Notation "' p <- m ;; k" := (bind m (fun x => let p := x in k))
  (at level 61, p pattern, m at next level, right associativity).

(** ** Index ranges *)

Fixpoint zseq (lo : Z) (n : nat) : list Z :=
  match n with
  | O => []
  | S n' => lo :: zseq (lo + 1) n'
  end.

(** The indices [0, 1, ..., n-1] a [for (i = 0; i < n; ++i)] loop visits. *)
Definition upto (n : Z) : list Z := zseq 0 (Z.to_nat n).

(** ** The arithmetic of [double]

    The operations, comparisons and literals of type [double] that the
    source uses.  [dpow2 x] is [std::pow(x, 2.0)]; [deqb] is [==], so that
    [x != 0] is [negb (deqb x d0)]. *)

Class Arith (F : Type) : Type := {
  d0 : F;
  d1 : F;
  dadd : F -> F -> F;
  dsub : F -> F -> F;
  dmul : F -> F -> F;
  ddiv : F -> F -> F;
  dopp : F -> F;
  dabs : F -> F;
  dsqrt : F -> F;
  dpow2 : F -> F;
  dltb : F -> F -> bool;
  dleb : F -> F -> bool;
  deqb : F -> F -> bool;
  (** The literals [0.5] (in [Objective]), [-2], [1e-4] ([c]) and [0.9]
      ([rho]) (in [OptimizeDictionary]). *)
  d_half : F;
  d_minus2 : F;
  d_c : F;
  d_rho : F;
  (** [#define OBJ_TOL 1e-2], [#define NEWTON_TOL 1e-6] and [DBL_MAX]. *)
  OBJ_TOL : F;
  NEWTON_TOL : F;
  DBL_MAX : F
}.

Declare Scope double_scope.
Delimit Scope double_scope with d.
Notation "x + y" := (dadd x y) : double_scope.
Notation "x - y" := (dsub x y) : double_scope.
Notation "x * y" := (dmul x y) : double_scope.
Notation "x / y" := (ddiv x y) : double_scope.
Notation "- x" := (dopp x) : double_scope.

(** *** Exact arithmetic *)

Definition Rltb (x y : R) : bool := if Rlt_dec x y then true else false.
Definition Rleb (x y : R) : bool := if Rle_dec x y then true else false.
Definition Reqb (x y : R) : bool := if Req_dec_T x y then true else false.

#[export] Instance Arith_R : Arith R := {|
  d0 := 0%R;
  d1 := 1%R;
  dadd := Rplus;
  dsub := Rminus;
  dmul := Rmult;
  ddiv := Rdiv;
  dopp := Ropp;
  dabs := Rabs;
  dsqrt := sqrt;
  dpow2 := fun x => (x ^ 2)%R;
  dltb := Rltb;
  dleb := Rleb;
  deqb := Reqb;
  d_half := 0.5%R;
  d_minus2 := (-2)%R;
  d_c := (1 / 10000)%R;
  d_rho := 0.9%R;
  OBJ_TOL := (1 / 100)%R;
  NEWTON_TOL := (1 / 1000000)%R;
  (* the largest finite double: (2^53 - 1) * 2^971 *)
  DBL_MAX := IZR ((2 ^ 53 - 1) * 2 ^ 971)
|}.

(** *** IEEE 754 binary64

    The literals are the doubles nearest to the decimal constants of the
    source, as a C++ compiler reads them; [std::pow(x, 2.0)] is the
    correctly rounded square. *)

#[export] Instance Arith_b64 : Arith float := {|
  d0 := 0%float;
  d1 := 1%float;
  dadd := PrimFloat.add;
  dsub := PrimFloat.sub;
  dmul := PrimFloat.mul;
  ddiv := PrimFloat.div;
  dopp := PrimFloat.opp;
  dabs := PrimFloat.abs;
  dsqrt := PrimFloat.sqrt;
  dpow2 := fun x => PrimFloat.mul x x;
  dltb := PrimFloat.ltb;
  dleb := PrimFloat.leb;
  deqb := PrimFloat.eqb;
  d_half := 0.5%float;
  d_minus2 := (-2)%float;
  d_c := 0x1.a36e2eb1c432dp-14%float;
  d_rho := 0x1.ccccccccccccdp-1%float;
  OBJ_TOL := 0x1.47ae147ae147bp-7%float;
  NEWTON_TOL := 0x1.0c6f7a0b5ed8dp-20%float;
  DBL_MAX := 0x1.fffffffffffffp+1023%float
|}.

(** ** Dense matrices and index vectors *)

Record mat (F : Type) : Type := mkmat {
  n_rows : Z;
  n_cols : Z;
  elem : Z -> Z -> F
}.

Arguments mkmat {F} _ _ _.
Arguments n_rows {F} _.
Arguments n_cols {F} _.
Arguments elem {F} _ _ _.

(** [arma::uvec]: a vector of unsigned indices. *)
Definition uvec : Type := list Z.

Definition n_elem (v : uvec) : Z := Z.of_nat (length v).

Definition uvec_at (v : uvec) (i : Z) : Z := nth (Z.to_nat i) v 0.

(** ** Row removal *)

Section RemoveRows.

Context {F : Type}.

(** What freshly allocated matrix storage holds before it is written. *)
Variable stale : Z -> Z -> F.

(** [M.set_size(r, c)] and the sized constructor [arma::mat M(r, c)]:
    storage of the requested shape, which Armadillo allocates and does not
    fill. *)
Definition set_size (r c : Z) : mat F := mkmat r c stale.

(** Armadillo's check on [span(a, b)] against [n] rows. *)
Definition span_ok (a b n : Z) : bool := (a <=? b) && (b <? n).

(** [modX(span(r0, r1), span::all) = X(span(s0, s1), span::all)].
    Armadillo throws when a span is out of bounds or the two blocks differ
    in shape. *)
Definition assign_rows (modX : mat F) (r0 r1 : Z) (X : mat F) (s0 s1 : Z)
  : option (mat F) :=
  if span_ok r0 r1 (n_rows modX) && span_ok s0 s1 (n_rows X)
     && (r1 - r0 =? s1 - s0) && (n_cols modX =? n_cols X)
  then Some (mkmat (n_rows modX) (n_cols modX)
               (fun i j => if (r0 <=? i) && (i <=? r1)
                           then elem X (s0 + (i - r0)) j
                           else elem modX i j))
  else None.

(** The [while (removeInd < nRemove - 1)] loop of [RemoveRows]; the state
    is [(modX, curRow, removeInd)]. *)
Fixpoint RemoveRows_loop (fuel : nat) (X : mat F) (rowsToRemove : uvec)
    (nRemove : Z) (modX : mat F) (curRow removeInd : Z)
  : option (mat F * Z * Z) :=
  if removeInd <? nRemove -% 1 then
    match fuel with
    | O => None
    | S fuel' =>
        let height := uvec_at rowsToRemove (removeInd +% 1)
                      -% uvec_at rowsToRemove removeInd -% 1 in
        '(modX', curRow') <-
          (if 0 <? height then
             m <- assign_rows modX curRow (curRow +% height -% 1)
                    X (uvec_at rowsToRemove removeInd +% 1)
                      (uvec_at rowsToRemove (removeInd +% 1) -% 1) ;;
             Some (m, curRow +% height)
           else Some (modX, curRow)) ;;
        RemoveRows_loop fuel' X rowsToRemove nRemove modX' curRow'
          (removeInd +% 1)
    end
  else Some (modX, curRow, removeInd).

Definition RemoveRows (X : mat F) (rowsToRemove : uvec) : option (mat F) :=
  let cols := n_cols X in
  let rows := n_rows X in
  let nRemove := n_elem rowsToRemove in
  let nKeep := rows -% nRemove in
  if nRemove =? 0 then Some X
  else
    let modX := set_size nKeep cols in
    let curRow := 0 in
    let removeInd := 0 in
    (* First, check 0 to first row to remove. *)
    '(modX, curRow) <-
      (if 0 <? uvec_at rowsToRemove 0 then
         let height := uvec_at rowsToRemove 0 in
         m <- assign_rows modX curRow (curRow +% height -% 1)
                X 0 (uvec_at rowsToRemove 0 -% 1) ;;
         Some (m, curRow +% height)
       else Some (modX, curRow)) ;;
    (* i'th row to remove to (i + 1)'th row to remove. *)
    '(modX, curRow, removeInd) <-
      RemoveRows_loop (Z.to_nat nRemove) X rowsToRemove nRemove
        modX curRow removeInd ;;
    (* Last row to remove to last row. *)
    if uvec_at rowsToRemove removeInd <? rows -% 1 then
      assign_rows modX curRow (nKeep -% 1)
        X (uvec_at rowsToRemove removeInd +% 1) (rows -% 1)
    else Some modX.

End RemoveRows.

(** ** The Armadillo operations the source uses

    Armadillo checks that the operands of a product, a sum or a difference
    conform and throws otherwise; the shapes the class maintains
    ([codes]: atoms x N, [data]: D x N, [dictionary]: D x atoms) always
    conform, and these checks are left out.  The shape of a result is the
    one Armadillo gives it. *)

Section Armadillo.

Context {F : Type} {arith : Arith F}.

(** [x != 0] on a matrix entry. *)
Definition nonzero (x : F) : bool := negb (deqb x d0).

(** Sum of [f i] for [i = 0 .. n-1], accumulated from [0] in this order. *)
Definition sum_upto (n : Z) (f : Z -> F) : F :=
  fold_left (fun acc i => (acc + f i)%d) (upto n) d0.

Definition zeros (r c : Z) : mat F := mkmat r c (fun _ _ => d0).
Definition ones (r c : Z) : mat F := mkmat r c (fun _ _ => d1).

Definition trans (A : mat F) : mat F :=
  mkmat (n_cols A) (n_rows A) (fun i j => elem A j i).

Definition mmul (A B : mat F) : mat F :=
  mkmat (n_rows A) (n_cols B)
    (fun i j => sum_upto (n_cols A) (fun k => (elem A i k * elem B k j)%d)).

Definition madd (A B : mat F) : mat F :=
  mkmat (n_rows A) (n_cols A) (fun i j => (elem A i j + elem B i j)%d).

Definition msub (A B : mat F) : mat F :=
  mkmat (n_rows A) (n_cols A) (fun i j => (elem A i j - elem B i j)%d).

Definition mneg (A : mat F) : mat F :=
  mkmat (n_rows A) (n_cols A) (fun i j => (- elem A i j)%d).

(** [k * A] for a scalar [k]. *)
Definition mscale (k : F) (A : mat F) : mat F :=
  mkmat (n_rows A) (n_cols A) (fun i j => (k * elem A i j)%d).

(** [A / k] for a scalar [k] (as in [col /= k]). *)
Definition mdiv (A : mat F) (k : F) : mat F :=
  mkmat (n_rows A) (n_cols A) (fun i j => (elem A i j / k)%d).

(** [A % B], the element-wise product. *)
Definition schur (A B : mat F) : mat F :=
  mkmat (n_rows A) (n_cols A) (fun i j => (elem A i j * elem B i j)%d).

Definition square (A : mat F) : mat F :=
  mkmat (n_rows A) (n_cols A) (fun i j => (elem A i j * elem A i j)%d).

Definition mabs (A : mat F) : mat F :=
  mkmat (n_rows A) (n_cols A) (fun i j => dabs (elem A i j)).

(** [diagmat(v)] for a column vector [v]. *)
Definition diagmat (v : mat F) : mat F :=
  mkmat (n_rows v) (n_rows v)
    (fun i j => if i =? j then elem v i 0 else d0).

(** [sum(A, 1)]: the column vector of the sums of the rows. *)
Definition sum_rows (A : mat F) : mat F :=
  mkmat (n_rows A) 1 (fun i _ => sum_upto (n_cols A) (fun j => elem A i j)).

(** [sum(v)] for a column vector [v]. *)
Definition sum_vec (v : mat F) : F :=
  sum_upto (n_rows v) (fun i => elem v i 0).

(** [sum(sum(A))], which Armadillo evaluates as the sum of all entries. *)
Definition accu (A : mat F) : F :=
  sum_upto (n_cols A) (fun j => sum_upto (n_rows A) (fun i => elem A i j)).

Definition dot (u v : mat F) : F :=
  sum_upto (n_rows u) (fun i => (elem u i 0 * elem v i 0)%d).

Definition trace (A : mat F) : F :=
  sum_upto (Z.min (n_rows A) (n_cols A)) (fun i => elem A i i).

(** [norm(A, "fro")]; on a column vector this is [norm(v, 2)]. *)
Definition norm_fro (A : mat F) : F := dsqrt (accu (square A)).

(** [A.col(j)] as a column vector, and the matrix [A] after
    [A.col(j) = v]. *)
Definition col (A : mat F) (j : Z) : mat F :=
  mkmat (n_rows A) 1 (fun i _ => elem A i j).

Definition set_col (A : mat F) (j : Z) (v : mat F) : mat F :=
  mkmat (n_rows A) (n_cols A)
    (fun i j' => if j' =? j then elem v i 0 else elem A i j').

(** The bounds check of [A.col(j)], and the checks of [A.col(j) = v]. *)
Definition get_col (A : mat F) (j : Z) : option (mat F) :=
  if (0 <=? j) && (j <? n_cols A) then Some (col A j) else None.

Definition assign_col (A : mat F) (j : Z) (v : mat F) : option (mat F) :=
  if (0 <=? j) && (j <? n_cols A) && (n_rows v =? n_rows A)
  then Some (set_col A j v) else None.

(** [find(A)]: the column-major linear indices of the nonzero entries,
    ascending. *)
Definition find (A : mat F) : uvec :=
  flat_map (fun j =>
    flat_map (fun i => if nonzero (elem A i j)
                       then [i +% j *% n_rows A] else [])
             (upto (n_rows A)))
    (upto (n_cols A)).

(** [accu(A.row(j) != 0)]: the number of nonzero entries of row [j]. *)
Definition row_nnz (A : mat F) (j : Z) : Z :=
  n_elem (filter (fun c => nonzero (elem A j c)) (upto (n_cols A))).

(** The same with the bounds check of [A.row(j)]. *)
Definition get_row_nnz (A : mat F) (j : Z) : option Z :=
  if (0 <=? j) && (j <? n_rows A) then Some (row_nnz A j) else None.

End Armadillo.

(** ** The sparse coding object *)

Record SparseCoding (F : Type) : Type := mkSparseCoding {
  atoms : Z;
  data : mat F;
  dictionary : mat F;
  codes : mat F;
  lambda1 : F;
  lambda2 : F
}.

Arguments mkSparseCoding {F} _ _ _ _ _ _.
Arguments atoms {F} _.
Arguments data {F} _.
Arguments dictionary {F} _.
Arguments codes {F} _.
Arguments lambda1 {F} _.
Arguments lambda2 {F} _.

Definition with_dictionary {F : Type} (s : SparseCoding F) (d : mat F)
  : SparseCoding F :=
  mkSparseCoding (atoms s) (data s) d (codes s) (lambda1 s) (lambda2 s).

Definition with_codes {F : Type} (s : SparseCoding F) (z : mat F)
  : SparseCoding F :=
  mkSparseCoding (atoms s) (data s) (dictionary s) z (lambda1 s) (lambda2 s).

(** ** The methods of [SparseCoding]

    [Log::Info], [Log::Warn] and [Log::Debug] output is not modelled. *)

Section Methods.

Context {F : Type} {arith : Arith F}.

(** What freshly allocated, uninitialised matrix storage holds
    ([arma::mat M(r, c)] and [M.set_size(r, c)] do not fill it). *)
Variable stale : Z -> Z -> F.

(** [DictionaryInitializer::Initialize(data, atoms, dictionary)], the
    template parameter of the class: the dictionary it stores. *)
Variable Initialize : mat F -> Z -> mat F.

(** [regression::LARS lars(useCholesky, matGram, lambda1, lambda2)]
    followed by [lars.Regress(dictionary, y, code, true)]: the coefficient
    vector stored into [code]. *)
Variable LARS_Regress : mat F -> F -> F -> mat F -> mat F -> mat F.

(** [arma::solve(A, B)] and [arma::inv(A)]; [None] when Armadillo reports
    a failure. *)
Variable solve : mat F -> mat F -> option (mat F).
Variable inv : mat F -> option (mat F).

(** [math::RandInt(hi)]: the value returned by the call number [k] of the
    run. *)
Variable RandInt : nat -> Z -> Z.

(** *** Constructor

    The member initialisers and the call of the initialiser; there is no
    other statement, in particular no check of an argument, so that the
    constructor always returns an object. *)
Definition SparseCoding_new (data : mat F) (atoms : Z) (lambda1 lambda2 : F)
  : option (SparseCoding F) :=
  Some {| atoms := atoms;
          data := data;
          codes := set_size stale atoms (n_cols data);
          lambda1 := lambda1;
          lambda2 := lambda2;
          dictionary := Initialize data atoms |}.

(** *** Objective *)
Definition Objective (s : SparseCoding F) : F :=
  let l11NormZ := accu (mabs (codes s)) in
  let froNormResidual :=
    norm_fro (msub (data s) (mmul (dictionary s) (codes s))) in
  if dltb d0 (lambda2 s) then
    let froNormZ := norm_fro (codes s) in
    (d_half * (dpow2 froNormResidual + lambda2 s * dpow2 froNormZ)
     + lambda1 s * l11NormZ)%d
  else
    (d_half * dpow2 froNormResidual + lambda1 s * l11NormZ)%d.

(** *** Projection of the atoms onto the unit ball

    One pass of the loop over [j]: [dictionary.col(j)] is bounds-checked,
    and the column is divided in place by its norm when that exceeds 1. *)
Definition ProjectDictionary_step (s : SparseCoding F) (j : Z)
  : option (SparseCoding F) :=
  c <- get_col (dictionary s) j ;;
  let atomNorm := norm_fro c in
  if dltb d1 atomNorm then
    Some (with_dictionary s (set_col (dictionary s) j (mdiv c atomNorm)))
  else Some s.

Fixpoint ProjectDictionary_loop (js : list Z) (s : SparseCoding F)
  : option (SparseCoding F) :=
  match js with
  | [] => Some s
  | j :: js' =>
      s <- ProjectDictionary_step s j ;;
      ProjectDictionary_loop js' s
  end.

Definition ProjectDictionary (s : SparseCoding F) : option (SparseCoding F) :=
  ProjectDictionary_loop (upto (atoms s)) s.

(** *** Coding step *)
Definition OptimizeCode (s : SparseCoding F) : SparseCoding F :=
  let matGram := mmul (trans (dictionary s)) (dictionary s) in
  fold_left
    (fun s i =>
       let code := LARS_Regress matGram (lambda1 s) (lambda2 s)
                     (dictionary s) (col (data s) i) in
       with_codes s (set_col (codes s) i code))
    (upto (n_cols (data s))) s.

(** *** Dictionary step *)

(** [++v(i)] with Armadillo's bounds check. *)
Definition incr_at (v : uvec) (i : Z) : option uvec :=
  if (0 <=? i) && (i <? n_elem v)
  then Some (firstn (Z.to_nat i) v
             ++ (uvec_at v i +% 1) :: skipn (S (Z.to_nat i)) v)
  else None.

(** The loop [for (l = 1; l < adjacencies.n_elem; ++l)] over the
    adjacencies after the first. *)
Fixpoint neighbor_loop (atoms : Z) (rest : uvec)
    (curPointInd nextColIndex : Z) (neighborCounts : uvec) : option uvec :=
  match rest with
  | [] => Some neighborCounts
  | a :: rest' =>
      let '(cur, next) :=
        if nextColIndex <=? a
        then (a / atoms, (a / atoms +% 1) *% atoms)
        else (curPointInd, nextColIndex) in
      counts <- incr_at neighborCounts cur ;;
      neighbor_loop atoms rest' cur next counts
  end.

(** The number of atomic neighbours of each point.  The integer division
    by [atoms] has no defined result when [atoms] is zero. *)
Definition count_neighbors (adjacencies : uvec) (atoms n_cols : Z)
  : option uvec :=
  let neighborCounts := repeat 0 (Z.to_nat n_cols) in
  match adjacencies with
  | [] => Some neighborCounts
  | a0 :: rest =>
      if atoms =? 0 then None
      else
        let curPointInd := a0 / atoms in
        let nextColIndex := (curPointInd +% 1) *% atoms in
        neighbor_loop atoms rest curPointInd nextColIndex neighborCounts
  end.

(** The loop [for (j = 0; j < atoms; ++j)] that sorts the atoms into those
    not used in the coding and those used, by [push_back]; [codes.row(j)]
    is bounds-checked. *)
Fixpoint classify_atoms (codes : mat F) (js : list Z)
    (inactiveAtoms activeAtoms : list Z) : option (list Z * list Z) :=
  match js with
  | [] => Some (inactiveAtoms, activeAtoms)
  | j :: js' =>
      n <- get_row_nnz codes j ;;
      if n =? 0
      then classify_atoms codes js' (inactiveAtoms ++ [j]) activeAtoms
      else classify_atoms codes js' inactiveAtoms (activeAtoms ++ [j])
  end.

(** The Armijo line search, [while (true)] in the source; [alpha] is
    multiplied by [rho = 0.9] until the step is accepted.  It returns the
    scaled search direction and the improvement. *)
Fixpoint armijo (fuel : nat) (codesXT codesZT matAInvZXT dualVars
    searchDirection : mat F) (sufficientDecrease alpha : F)
  : option (mat F * F) :=
  match fuel with
  | O => None
  | S fuel' =>
      let sumDualVars := sum_vec dualVars in
      let fOld :=
        (- (- trace (mmul (trans codesXT) matAInvZXT) - sumDualVars))%d in
      M <- solve (madd codesZT
                    (diagmat (madd dualVars (mscale alpha searchDirection))))
             codesXT ;;
      let fNew :=
        (- (- trace (mmul (trans codesXT) M)
            - (sumDualVars + alpha * sum_vec searchDirection)))%d in
      if dleb fNew (fOld + alpha * sufficientDecrease)%d
      then Some (mscale alpha searchDirection, (fOld - fNew)%d)
      else armijo fuel' codesXT codesZT matAInvZXT dualVars searchDirection
             sufficientDecrease (alpha * d_rho)%d
  end.

(** Newton's method in the dual, [for (t = 1; !converged; ++t)] in the
    source.  [fuel] bounds the iterations of this loop and of each line
    search; the source bounds neither.  It returns the dual variables. *)
Fixpoint newton (fuel n : nat) (codesXT codesZT : mat F) (nActiveAtoms : Z)
    (dualVars : mat F) : option (mat F) :=
  match n with
  | O => None
  | S n' =>
      let A := madd codesZT (diagmat dualVars) in
      matAInvZXT <- solve A codesXT ;;
      let gradient :=
        mneg (msub (sum_rows (square matAInvZXT)) (ones nActiveAtoms 1)) in
      invA <- inv A ;;
      let hessian :=
        mneg (schur (mscale d_minus2 (mmul matAInvZXT (trans matAInvZXT)))
                invA) in
      d <- solve hessian gradient ;;
      let searchDirection := mneg d in
      let c := d_c in
      let alpha := d1 in
      let sufficientDecrease := (c * dot gradient searchDirection)%d in
      '(searchDirection, improvement) <-
        armijo fuel codesXT codesZT matAInvZXT dualVars searchDirection
          sufficientDecrease alpha ;;
      let dualVars := madd dualVars searchDirection in
      if dltb improvement NEWTON_TOL then Some dualVars
      else newton fuel n' codesXT codesZT nActiveAtoms dualVars
  end.

(** [for (i = 0; i < nActiveAtoms; ++i)
       dictionaryEstimate.col(activeAtoms[i]) =
         dictionaryActiveEstimate.col(i);]
    over the active atoms from position [i] on. *)
Fixpoint copy_active (activeAtoms : list Z) (i : Z)
    (dictionaryActiveEstimate dictionaryEstimate : mat F)
  : option (mat F) :=
  match activeAtoms with
  | [] => Some dictionaryEstimate
  | a :: rest =>
      c <- get_col dictionaryActiveEstimate i ;;
      est <- assign_col dictionaryEstimate a c ;;
      copy_active rest (i + 1) dictionaryActiveEstimate est
  end.

(** The loop that makes a new random atom estimate for each inactive
    atom; [rng] counts the calls of [math::RandInt] made so far, and the
    three calls of one atom are taken in the order in which they are
    written.  The division by the norm is not guarded. *)
Fixpoint reinit_inactive (data : mat F) (inactiveAtoms : list Z)
    (dictionaryEstimate : mat F) (rng : nat) : option (mat F * nat) :=
  match inactiveAtoms with
  | [] => Some (dictionaryEstimate, rng)
  | a :: rest =>
      c1 <- get_col data (RandInt rng (n_cols data)) ;;
      c2 <- get_col data (RandInt (S rng) (n_cols data)) ;;
      c3 <- get_col data (RandInt (S (S rng)) (n_cols data)) ;;
      est <- assign_col dictionaryEstimate a (madd (madd c1 c2) c3) ;;
      c <- get_col est a ;;
      est <- assign_col est a (mdiv c (norm_fro c)) ;;
      reinit_inactive data rest est (S (S (S rng)))
  end.

Definition OptimizeDictionary (fuel : nat) (adjacencies : uvec)
    (s : SparseCoding F) (rng : nat) : option (SparseCoding F * nat) :=
  (* Count the number of atomic neighbors for each point x^i. *)
  neighborCounts <-
    count_neighbors adjacencies (atoms s) (n_cols (data s)) ;;
  (* Handle the case of inactive atoms. *)
  '(inactiveAtoms, activeAtoms) <-
    classify_atoms (codes s) (upto (atoms s)) [] [] ;;
  let nActiveAtoms := n_elem activeAtoms in
  (* Efficient construction of Z restricted to active atoms. *)
  matActiveZ <-
    (match inactiveAtoms with
     | [] => Some (codes s)
     | _ => RemoveRows stale (codes s) inactiveAtoms
     end) ;;
  (* Solve using Newton's method in the dual. *)
  let dualVars := zeros nActiveAtoms 1 in
  let codesXT := mmul matActiveZ (trans (data s)) in
  let codesZT := mmul matActiveZ (trans matActiveZ) in
  dualVars <- newton fuel fuel codesXT codesZT nActiveAtoms dualVars ;;
  match inactiveAtoms with
  | [] =>
      M <- solve (madd codesZT (diagmat dualVars)) codesXT ;;
      Some (with_dictionary s (trans M), rng)
  | _ =>
      M <- solve (madd codesZT (diagmat dualVars)) codesXT ;;
      let dictionaryActiveEstimate := trans M in
      let dictionaryEstimate := zeros (n_rows (data s)) (atoms s) in
      dictionaryEstimate <-
        copy_active activeAtoms 0 dictionaryActiveEstimate
          dictionaryEstimate ;;
      '(dictionaryEstimate, rng) <-
        reinit_inactive (data s) inactiveAtoms dictionaryEstimate rng ;;
      Some (with_dictionary s dictionaryEstimate, rng)
  end.

(** *** The alternating loop *)

(** One pass through the body of the [for] loop of [Encode] up to the
    computation of [curObjVal]: the object and the generator after it, the
    adjacencies found in the new codes, and [curObjVal]. *)
Definition Encode_round (fuel : nat) (adjacencies : uvec)
    (s : SparseCoding F) (rng : nat)
  : option (SparseCoding F * nat * uvec * F) :=
  (* First step: optimize the dictionary. *)
  '(s, rng) <- OptimizeDictionary fuel adjacencies s rng ;;
  (* Second step: perform the coding. *)
  let s := OptimizeCode s in
  (* Get the indices of all the nonzero elements in the codes. *)
  let adjacencies := find (codes s) in
  let curObjVal := Objective s in
  Some (s, rng, adjacencies, curObjVal).

(** [for (size_t t = 1; t != maxIterations; ++t)], entered with the
    current [t].  [rounds] bounds the number of passes the model makes:
    [None] when a pass does not return or when [rounds] passes did not end
    the loop. *)
Fixpoint Encode_loop (rounds fuel : nat) (maxIterations t : Z)
    (lastObjVal : F) (adjacencies : uvec) (s : SparseCoding F) (rng : nat)
  : option (SparseCoding F * nat) :=
  if t =? maxIterations then Some (s, rng)
  else
    match rounds with
    | O => None
    | S rounds' =>
        '(s, rng, adjacencies, curObjVal) <-
          Encode_round fuel adjacencies s rng ;;
        let improvement := (lastObjVal - curObjVal)%d in
        (* Have we converged? *)
        if dltb improvement OBJ_TOL then Some (s, rng)
        else Encode_loop rounds' fuel maxIterations (t +% 1)
               curObjVal adjacencies s rng
    end.

Definition Encode (rounds fuel : nat) (maxIterations : Z)
    (s : SparseCoding F) (rng : nat) : option (SparseCoding F * nat) :=
  let lastObjVal := DBL_MAX in
  (* Take the initial coding step. *)
  let s := OptimizeCode s in
  let adjacencies := find (codes s) in
  Encode_loop rounds fuel maxIterations 1 lastObjVal adjacencies s rng.

End Methods.

(** * Specifications *)

(** ** Row removal *)

(** The rows of an [r]-row matrix that are not listed in [idx], ascending. *)
Definition kept_rows (r : Z) (idx : uvec) : list Z :=
  filter (fun i => negb (existsb (Z.eqb i) idx)) (upto r).

(** [idx] lists distinct indices of [lo .. r-1] in ascending order. *)
Fixpoint ascending_from (lo : Z) (idx : uvec) (r : Z) : Prop :=
  match idx with
  | [] => True
  | a :: rest => lo <= a < r /\ ascending_from (a + 1) rest r
  end.

(** The kept rows as the blocks [RemoveRows] copies: the rows before the
    first removed one, those between two consecutive removed ones, and
    those after the last. *)
Fixpoint blocks (lo : Z) (idx : uvec) (r : Z) : list Z :=
  match idx with
  | [] => zseq lo (Z.to_nat (r - lo))
  | a :: rest => zseq lo (Z.to_nat (a - lo)) ++ blocks (a + 1) rest r
  end.

(** Rows [0 .. c-1] of [M] hold the rows of [X] listed in [L]. *)
Definition filled {F : Type} (X M : mat F) (c : Z) (L : list Z) : Prop :=
  c = Z.of_nat (length L) /\
  forall i j, 0 <= i < c -> elem M i j = elem X (nth (Z.to_nat i) L 0) j.

(** What [RemoveRows] does after the rows before the first removed row are
    copied: the loop, then the rows after the last removed row. *)
Definition RemoveRows_finish {F : Type} (X : mat F) (idx : uvec) (M : mat F)
    (c k : Z) : option (mat F) :=
  '(modX, curRow, removeInd) <-
    RemoveRows_loop (Z.to_nat (n_elem idx) - Z.to_nat k) X idx (n_elem idx)
      M c k ;;
  if uvec_at idx removeInd <? n_rows X -% 1 then
    assign_rows modX curRow (n_rows X -% n_elem idx -% 1)
      X (uvec_at idx removeInd +% 1) (n_rows X -% 1)
  else Some modX.

(** A 5 x 3 matrix whose rows differ. *)
Definition example_5x3 : mat R := mkmat 5 3 (fun i j => IZR (10 * i + j)).

(** ** Norms, projection and objective *)

Section Vocabulary.

Context {F : Type} {arith : Arith F}.

(** The sum of the squares of the entries of column [j]. *)
Definition col_sq (A : mat F) (j : Z) : F :=
  sum_upto (n_rows A) (fun i => (elem A i j * elem A i j)%d).

(** Entry [i] of atom [j] of [D] after the atom is shrunk into the unit
    ball: divided by the norm of the atom when that exceeds 1. *)
Definition projected (D : mat F) (i j : Z) : F :=
  if dltb d1 (norm_fro (col D j))
  then (elem D i j / norm_fro (col D j))%d else elem D i j.

(** Two objects that differ at most in the entries of the dictionary. *)
Definition same_frame (s s' : SparseCoding F) : Prop :=
  atoms s' = atoms s /\ data s' = data s /\ codes s' = codes s /\
  lambda1 s' = lambda1 s /\ lambda2 s' = lambda2 s /\
  n_rows (dictionary s') = n_rows (dictionary s) /\
  n_cols (dictionary s') = n_cols (dictionary s).

(** The residual [X - D * Z] of an object. *)
Definition residual (s : SparseCoding F) : mat F :=
  msub (data s) (mmul (dictionary s) (codes s)).

(** The three sums of the objective written out over the entries: the sum
    of the absolute values of the codes, the sum of the squares of the
    entries of [X - D * Z], and the sum of the squares of the codes. *)
Definition codes_l1 (s : SparseCoding F) : F :=
  sum_upto (n_cols (codes s)) (fun j =>
    sum_upto (n_rows (codes s)) (fun i => dabs (elem (codes s) i j))).

Definition residual_sq (s : SparseCoding F) : F :=
  sum_upto (n_cols (data s)) (fun j =>
    sum_upto (n_rows (data s)) (fun i =>
      let e :=
        (elem (data s) i j
         - sum_upto (n_cols (dictionary s)) (fun k =>
             elem (dictionary s) i k * elem (codes s) k j))%d in
      (e * e)%d)).

Definition codes_sq (s : SparseCoding F) : F :=
  sum_upto (n_cols (codes s)) (fun j =>
    sum_upto (n_rows (codes s)) (fun i =>
      (elem (codes s) i j * elem (codes s) i j)%d)).

(** The code the regression computes for signal [i] with the dictionary
    and the weights of [s]. *)
Definition signal_code
    (LARS_Regress : mat F -> F -> F -> mat F -> mat F -> mat F)
    (s : SparseCoding F) (i : Z) : mat F :=
  LARS_Regress (mmul (trans (dictionary s)) (dictionary s))
    (lambda1 s) (lambda2 s) (dictionary s) (col (data s) i).

(** Two objects that differ at most in the entries of the code matrix. *)
Definition same_model (s s' : SparseCoding F) : Prop :=
  atoms s' = atoms s /\ data s' = data s /\ dictionary s' = dictionary s /\
  lambda1 s' = lambda1 s /\ lambda2 s' = lambda2 s /\
  n_rows (codes s') = n_rows (codes s) /\
  n_cols (codes s') = n_cols (codes s).

(** Two objects for the same problem: the same atom count, data and
    weights, and code matrices of the same shape. *)
Definition same_problem (s s' : SparseCoding F) : Prop :=
  atoms s' = atoms s /\ data s' = data s /\
  lambda1 s' = lambda1 s /\ lambda2 s' = lambda2 s /\
  n_rows (codes s') = n_rows (codes s) /\
  n_cols (codes s') = n_cols (codes s).

(** An initialiser: the all-zero dictionary of the expected shape. *)
Definition zero_initializer (X : mat F) (K : Z) : mat F :=
  zeros (n_rows X) K.

(** The atoms not used in the coding, and those used, each ascending:
    the atoms whose code row has no nonzero entry, and the others. *)
Definition inactive_atoms (s : SparseCoding F) : list Z :=
  fst (partition (fun j => row_nnz (codes s) j =? 0) (upto (atoms s))).

Definition active_atoms (s : SparseCoding F) : list Z :=
  snd (partition (fun j => row_nnz (codes s) j =? 0) (upto (atoms s))).

End Vocabulary.

(** ** The constructor *)

(** The configurations the specification wants rejected. *)
Definition invalid_configuration (data : mat R) (atoms : Z)
    (lambda1 lambda2 : R) : Prop :=
  atoms <= 0 \/ (lambda1 <= 0)%R \/ (lambda2 <= 0)%R \/ n_rows data < atoms.

(** ** The alternating loop *)

(** The variables of the loop of [Encode] between two passes. *)
Record loop_state (F : Type) : Type := mkloop {
  ls_obj : SparseCoding F;
  ls_rng : nat;
  ls_adj : uvec;
  ls_last : F
}.

Arguments mkloop {F} _ _ _ _.
Arguments ls_obj {F} _.
Arguments ls_rng {F} _.
Arguments ls_adj {F} _.
Arguments ls_last {F} _.

Section LoopVocabulary.

Context {F : Type} {arith : Arith F}.

Variable stale : Z -> Z -> F.
Variable LARS_Regress : mat F -> F -> F -> mat F -> mat F -> mat F.
Variable solve : mat F -> mat F -> option (mat F).
Variable inv : mat F -> option (mat F).
Variable RandInt : nat -> Z -> Z.

(** The state in which [Encode] enters its loop: after the initial coding
    step, with [DBL_MAX] as last objective value. *)
Definition loop_entry (s : SparseCoding F) (rng : nat) : loop_state F :=
  mkloop (OptimizeCode LARS_Regress s) rng
    (find (codes (OptimizeCode LARS_Regress s))) DBL_MAX.

(** [k] passes in a row, each made of a dictionary step followed by a
    coding step on the adjacencies found after the previous coding step,
    none of which meets the convergence test: the state they lead to.
    [None] when one of them does not return or meets the test. *)
Fixpoint passes (fuel k : nat) (x : loop_state F) : option (loop_state F) :=
  match k with
  | O => Some x
  | S k' =>
      '(s, rng, adj, cur) <-
        Encode_round stale LARS_Regress solve inv RandInt fuel
          (ls_adj x) (ls_obj x) (ls_rng x) ;;
      if dltb (ls_last x - cur)%d OBJ_TOL then None
      else passes fuel k' (mkloop s rng adj cur)
  end.

(** [k] passes that do not meet the test, then one that does
    (the improvement compares below [OBJ_TOL]): the object and generator
    it leaves. *)
Definition converges_after (fuel k : nat) (x : loop_state F)
    (out : SparseCoding F * nat) : Prop :=
  exists y s rng adj cur,
    passes fuel k x = Some y /\
    Encode_round stale LARS_Regress solve inv RandInt fuel
      (ls_adj y) (ls_obj y) (ls_rng y) = Some (s, rng, adj, cur) /\
    dltb (ls_last y - cur)%d OBJ_TOL = true /\
    out = (s, rng).

End LoopVocabulary.

(** ** The dictionary step *)

Section DictionaryUpdate.

Context {F : Type} {arith : Arith F}.

Variable stale : Z -> Z -> F.
Variable solve : mat F -> mat F -> option (mat F).
Variable inv : mat F -> option (mat F).
Variable RandInt : nat -> Z -> Z.

(** The sum of the three drawn data columns. *)
Definition drawn_sum (X : mat F) (r1 r2 r3 : Z) : mat F :=
  madd (madd (col X r1) (col X r2)) (col X r3).

(** The dictionary step after the neighbours are counted and the atoms
    are sorted into inactive and active ones. *)
Definition update_atoms (fuel : nat) (s : SparseCoding F) (rng : nat)
  : option (SparseCoding F * nat) :=
  matActiveZ <-
    (match inactive_atoms s with
     | [] => Some (codes s)
     | _ => RemoveRows stale (codes s) (inactive_atoms s)
     end) ;;
  let codesXT := mmul matActiveZ (trans (data s)) in
  let codesZT := mmul matActiveZ (trans matActiveZ) in
  dualVars <- newton solve inv fuel fuel codesXT codesZT
                (n_elem (active_atoms s)) (zeros (n_elem (active_atoms s)) 1) ;;
  M <- solve (madd codesZT (diagmat dualVars)) codesXT ;;
  match inactive_atoms s with
  | [] => Some (with_dictionary s (trans M), rng)
  | _ =>
      est <- copy_active (active_atoms s) 0 (trans M)
               (zeros (n_rows (data s)) (atoms s)) ;;
      '(est, rng) <- reinit_inactive RandInt (data s) (inactive_atoms s)
                       est rng ;;
      Some (with_dictionary s est, rng)
  end.

(** The dictionary step without the count of the neighbours. *)
Definition dictionary_update (fuel : nat) (s : SparseCoding F) (rng : nat)
  : option (SparseCoding F * nat) :=
  _ <- classify_atoms (codes s) (upto (atoms s)) [] [] ;;
  update_atoms fuel s rng.

(** The value [-(-trace(trans(codesXT) * M) - sumDualVars)] that the line
    search computes for a solution [M] and a sum of dual variables. *)
Definition dual_objective (codesXT M : mat F) (sumDualVars : F) : F :=
  (- (- trace (mmul (trans codesXT) M) - sumDualVars))%d.

(** The step length of the line search after [k] rejections: [alpha0]
    multiplied [k] times by [rho]. *)
Definition shrunk (alpha0 : F) (k : nat) : F :=
  Nat.iter k (fun alpha => (alpha * d_rho)%d) alpha0.

(** The test of the line search at the step length [alpha]: whether the
    system of the moved dual variables is solved and, if so, whether the
    sufficient-decrease comparison of the program holds. *)
Definition armijo_test (codesXT codesZT matAInvZXT dualVars searchDirection
    : mat F) (sufficientDecrease alpha : F) : option bool :=
  M <- solve (madd codesZT
                (diagmat (madd dualVars (mscale alpha searchDirection))))
         codesXT ;;
  Some (dleb (dual_objective codesXT M
                (sum_vec dualVars + alpha * sum_vec searchDirection)%d)
             (dual_objective codesXT matAInvZXT (sum_vec dualVars)
              + alpha * sufficientDecrease)%d).

(** The gradient and the Hessian of the dual objective that a Newton
    iteration computes from the solution [matAInvZXT] of its system and
    from the inverse of the matrix of that system. *)
Definition dual_gradient (matAInvZXT : mat F) (nActiveAtoms : Z) : mat F :=
  mneg (msub (sum_rows (square matAInvZXT)) (ones nActiveAtoms 1)).

Definition dual_hessian (matAInvZXT invA : mat F) : mat F :=
  mneg (schur (mscale d_minus2 (mmul matAInvZXT (trans matAInvZXT))) invA).

(** The dual problem of the dictionary step for the code rows [matActiveZ]
    of the [n] active atoms: Newton's method on the dual variables, then
    the solution of the system they give. *)
Definition dual_solution (fuel : nat) (X matActiveZ : mat F) (n : Z)
  : option (mat F) :=
  let codesXT := mmul matActiveZ (trans X) in
  let codesZT := mmul matActiveZ (trans matActiveZ) in
  dualVars <- newton solve inv fuel fuel codesXT codesZT n (zeros n 1) ;;
  solve (madd codesZT (diagmat dualVars)) codesXT.

End DictionaryUpdate.

(** The number of the adjacencies in [l] that lie in the column of point
    [p] of a code matrix with [atoms] rows. *)
Definition column_count (atoms : Z) (l : uvec) (p : Z) : Z :=
  n_elem (filter (fun a => a / atoms =? p) l).

(** ** A worked example

    One feature, two signals [1] and [-2], two atoms.  The regression
    codes a signal [y] as [(max(0, y), 0)], so that after a coding step
    atom 0 is active and atom 1 is inactive; the solver and the inverse
    are exact on diagonal (here 1 x 1) systems. *)

Section ExampleParts.

Context {F : Type} {arith : Arith F}.

Definition ex_data : mat F :=
  mkmat 1 2 (fun _ j => if j =? 0 then d1 else d_minus2).

Definition solve_diagonal (A B : mat F) : option (mat F) :=
  Some (mkmat (n_cols A) (n_cols B) (fun i j => (elem B i j / elem A i i)%d)).

Definition inv_diagonal (A : mat F) : option (mat F) :=
  Some (mkmat (n_rows A) (n_cols A)
          (fun i j => if i =? j then (d1 / elem A i i)%d else d0)).

Definition ex_lars (_ : mat F) (_ _ : F) (_ : mat F) (y : mat F) : mat F :=
  mkmat 2 1 (fun i _ => if i =? 0
                        then (if dltb d0 (elem y 0 0) then elem y 0 0 else d0)
                        else d0).

Definition no_stale : Z -> Z -> F := fun _ _ => d0.

End ExampleParts.

(** A generator that always draws signal 0, and one whose first three
    draws are the signals 0, 0 and 1, which sum to zero. *)
Definition draws_first (k : nat) (hi : Z) : Z := 0.
Definition draws_cancel (k : nat) (hi : Z) : Z := nth k [0; 0; 1] 0.

(** *** The example in exact arithmetic *)

Definition ex_obj : SparseCoding R :=
  mkSparseCoding 2 ex_data (zeros 1 2) (zeros 2 2) (1 / 10)%R 0%R.

Record ex_shape (s : SparseCoding R) : Prop := {
  ex_atoms : atoms s = 2;
  ex_dat : data s = ex_data;
  ex_l1 : lambda1 s = (1 / 10)%R;
  ex_l2 : lambda2 s = 0%R;
  ex_rows : n_rows (codes s) = 2;
  ex_cols : n_cols (codes s) = 2;
  ex_00 : elem (codes s) 0 0 = 1%R;
  ex_01 : elem (codes s) 0 1 = 0%R;
  ex_10 : elem (codes s) 1 0 = 0%R;
  ex_11 : elem (codes s) 1 1 = 0%R
}.

(** The example object after the initial coding step. *)
Definition ex_coded : SparseCoding R := OptimizeCode ex_lars ex_obj.

(** An object with one atom and no signal. *)
Definition ex_empty : SparseCoding R :=
  mkSparseCoding 1 (zeros 1 0) (zeros 1 1) (zeros 1 0) 0%R 0%R.

(** *** The example in binary64 *)

(** The same object, with [lambda1] the double nearest to [0.1], and the
    object after the initial coding step. *)
Definition b64_obj : SparseCoding float :=
  mkSparseCoding 2 ex_data (zeros 1 2) (zeros 2 2)
    0x1.999999999999ap-4%float 0%float.

Definition b64_coded : SparseCoding float := OptimizeCode ex_lars b64_obj.

(** Two features and two atoms: the atom [(19, 29)], of norm above 1, and
    the atom [(0.5, 0)]. *)
Definition b64_atoms : SparseCoding float :=
  mkSparseCoding 2 (zeros 2 1)
    (mkmat 2 2 (fun i j =>
       if j =? 0 then (if i =? 0 then 19%float else 29%float)
       else (if i =? 0 then 0.5%float else 0%float)))
    (zeros 2 1) 0%float 0%float.

(** One signal and one atom with a single code [z]: data and dictionary
    zero, weights [lambda1] and [lambda2]. *)
Definition b64_code (z lambda1 lambda2 : float) : SparseCoding float :=
  mkSparseCoding 1 (zeros 1 1) (zeros 1 1) (mkmat 1 1 (fun _ _ => z))
    lambda1 lambda2.

(** One feature, one atom and the single signal [0]. *)
Definition b64_null : SparseCoding float :=
  mkSparseCoding 1 (zeros 1 1) (zeros 1 1) (zeros 1 1)
    0x1.999999999999ap-4%float 0%float.

(** The object [b64_null] after a pass of the loop of [Encode]: its atom
    was re-initialised from the zero signal, as [0 / 0]. *)
Definition b64_lost : SparseCoding float :=
  with_dictionary b64_null
    (mkmat 1 1 (fun _ j => if j =? 0 then nan else 0%float)).

(** The sum of three draws of the signal [(1, 3)]. *)
Definition b64_threefold : mat float :=
  mkmat 2 1 (fun i _ => if i =? 0 then 3%float else 9%float).

(** The second Newton iteration of the dictionary step on the single
    signal [0.5] coded as [2]: [Z X^T = 1], [Z Z^T = 4], and the dual
    variable is [-30] after the first iteration. *)
Definition b64_XT : mat float := mkmat 1 1 (fun _ _ => 1%float).
Definition b64_ZT : mat float := mkmat 1 1 (fun _ _ => 4%float).
Definition b64_dual : mat float := mkmat 1 1 (fun _ _ => (-30)%float).

(** What that iteration hands to the line search: the solution of its
    system, the negated Newton direction and the sufficient decrease
    [c * gradient . direction]. *)
Definition b64_search : option (mat float * mat float * float) :=
  let A := madd b64_ZT (diagmat b64_dual) in
  M <- solve_diagonal A b64_XT ;;
  invA <- inv_diagonal A ;;
  d <- solve_diagonal (dual_hessian M invA) (dual_gradient M 1) ;;
  Some (M, mneg d, (d_c * dot (dual_gradient M 1) (mneg d))%d).

(** The step lengths [j] in [0 .. n-1] at which the line search of that
    iteration, started at step length 1, rejects. *)
Definition b64_rejects (M searchDirection : mat float)
    (sufficientDecrease : float) (n : nat) : bool :=
  forallb (fun j =>
    match armijo_test solve_diagonal b64_XT b64_ZT M b64_dual
            searchDirection sufficientDecrease (shrunk 1%float j) with
    | Some false => true
    | _ => false
    end) (seq 0 n).

(** * Proofs *)
(** ** Machine integers and ranges *)

Lemma wrap_small (z : Z) : SizeT.inrange z -> SizeT.wrap z = z.
Proof. unfold SizeT.inrange, SizeT.wrap. intros H. now apply Z.mod_small. Qed.

Ltac unwrap1 :=
  match goal with
  | |- context [SizeT.wrap ?z] =>
      rewrite (wrap_small z) by (unfold SizeT.inrange in *; lia)
  end.

Ltac unwrap := unfold SizeT.add, SizeT.sub, SizeT.mul; repeat unwrap1.

Lemma length_zseq lo n : length (zseq lo n) = n.
Proof.
  revert lo. induction n; simpl; intros; [reflexivity | now rewrite IHn].
Qed.

Lemma nth_zseq n : forall lo k,
  (k < n)%nat -> nth k (zseq lo n) 0 = lo + Z.of_nat k.
Proof.
  induction n; intros lo k Hk; [lia|].
  destruct k; simpl; [lia|]. rewrite IHn by lia. lia.
Qed.

Lemma in_zseq n : forall lo x, In x (zseq lo n) <-> lo <= x < lo + Z.of_nat n.
Proof.
  induction n; intros lo x; simpl; [lia|].
  rewrite IHn. lia.
Qed.

Lemma zseq_app n m : forall lo,
  zseq lo (n + m) = zseq lo n ++ zseq (lo + Z.of_nat n) m.
Proof.
  induction n; intros lo; simpl.
  - now rewrite Z.add_0_r.
  - rewrite IHn. do 3 f_equal. lia.
Qed.

Lemma in_upto n x : In x (upto n) <-> 0 <= x < n.
Proof. unfold upto. rewrite in_zseq. lia. Qed.

Lemma NoDup_zseq n : forall lo, NoDup (zseq lo n).
Proof.
  induction n; intros lo; simpl; constructor; auto.
  rewrite in_zseq. lia.
Qed.

(** ** Row removal *)

Lemma ascending_bounds idx : forall lo r x,
  ascending_from lo idx r -> In x idx -> lo <= x < r.
Proof.
  induction idx as [|a rest IH]; simpl; intros lo r x H Hin; [contradiction|].
  destruct H as [Ha Hrest]. destruct Hin as [->|Hin]; [lia|].
  specialize (IH _ _ _ Hrest Hin). lia.
Qed.

Lemma ascending_length idx : forall lo r,
  ascending_from lo idx r -> lo + Z.of_nat (length idx) <= r \/ idx = [].
Proof.
  induction idx as [|a rest IH]; simpl; intros lo r H; [now right|].
  destruct H as [Ha Hrest]. left.
  destruct (IH _ _ Hrest) as [Hl | ->]; simpl; lia.
Qed.

Lemma ascending_room idx : forall lo r,
  ascending_from lo idx r -> lo <= r -> lo + Z.of_nat (length idx) <= r.
Proof.
  intros lo r H Hle.
  destruct (ascending_length _ _ _ H) as [Hl | ->]; simpl; lia.
Qed.

Lemma existsb_eqb_false (x : Z) (l : list Z) :
  ~ In x l -> existsb (Z.eqb x) l = false.
Proof.
  intros Hn. destruct (existsb (Z.eqb x) l) eqn:E; [|reflexivity].
  apply existsb_exists in E. destruct E as [y [Hy Hxy]].
  apply Z.eqb_eq in Hxy. subst. contradiction.
Qed.

Lemma filter_all {A} (f : A -> bool) (l : list A) :
  (forall x, In x l -> f x = true) -> filter f l = l.
Proof.
  induction l as [|a l IH]; simpl; intros H; [reflexivity|].
  rewrite H by now left. f_equal. apply IH. intros x Hx. apply H. now right.
Qed.

Lemma kept_blocks idx : forall lo r,
  ascending_from lo idx r -> lo <= r ->
  filter (fun i => negb (existsb (Z.eqb i) idx)) (zseq lo (Z.to_nat (r - lo)))
  = blocks lo idx r.
Proof.
  induction idx as [|a rest IH]; intros lo r H Hle.
  - simpl. apply filter_all. reflexivity.
  - destruct H as [Ha Hrest].
    replace (Z.to_nat (r - lo))
      with (Z.to_nat (a - lo) + S (Z.to_nat (r - (a + 1))))%nat by lia.
    rewrite zseq_app, filter_app.
    replace (lo + Z.of_nat (Z.to_nat (a - lo))) with a by lia.
    cbn [blocks zseq filter existsb].
    rewrite Z.eqb_refl. cbn [orb negb]. f_equal.
    + apply filter_all. intros x Hx. apply in_zseq in Hx.
      replace (x =? a) with false by (symmetry; apply Z.eqb_neq; lia).
      rewrite existsb_eqb_false; [reflexivity|]. intros Hin.
      pose proof (ascending_bounds _ _ _ _ Hrest Hin). lia.
    + rewrite <- IH by (auto; lia). apply filter_ext_in.
      intros x Hx. apply in_zseq in Hx.
      replace (x =? a) with false by (symmetry; apply Z.eqb_neq; lia).
      reflexivity.
Qed.

Lemma kept_rows_blocks r idx :
  0 <= r -> ascending_from 0 idx r -> kept_rows r idx = blocks 0 idx r.
Proof.
  intros Hr H. unfold kept_rows, upto.
  replace (Z.to_nat r) with (Z.to_nat (r - 0)) by lia.
  now apply kept_blocks.
Qed.

Lemma length_blocks idx : forall lo r,
  ascending_from lo idx r -> lo <= r ->
  Z.of_nat (length (blocks lo idx r)) = r - lo - Z.of_nat (length idx).
Proof.
  induction idx as [|a rest IH]; intros lo r H Hle; simpl.
  - rewrite length_zseq. lia.
  - destruct H as [Ha Hrest]. rewrite length_app, length_zseq.
    rewrite Nat2Z.inj_add, IH by (auto; lia). lia.
Qed.

Section RemoveRowsCorrect.

Context {F : Type}.

Variable X : mat F.
Hypothesis Hr : SizeT.inrange (n_rows X).

Lemma assign_rows_filled M c L s h :
  n_cols M = n_cols X -> filled X M c L ->
  0 < h -> c + h <= n_rows M -> 0 <= s -> s + h <= n_rows X ->
  exists M',
    assign_rows M c (c + h - 1) X s (s + h - 1) = Some M' /\
    n_rows M' = n_rows M /\ n_cols M' = n_cols M /\
    filled X M' (c + h) (L ++ zseq s (Z.to_nat h)).
Proof.
  intros Hc [HcL HL] Hh Hroom Hs Hsr.
  unfold assign_rows, span_ok.
  replace (c <=? c + h - 1) with true by (symmetry; apply Z.leb_le; lia).
  replace (c + h - 1 <? n_rows M) with true by (symmetry; apply Z.ltb_lt; lia).
  replace (s <=? s + h - 1) with true by (symmetry; apply Z.leb_le; lia).
  replace (s + h - 1 <? n_rows X) with true by (symmetry; apply Z.ltb_lt; lia).
  replace (c + h - 1 - c =? s + h - 1 - s) with true
    by (symmetry; apply Z.eqb_eq; lia).
  replace (n_cols M =? n_cols X) with true by (symmetry; apply Z.eqb_eq; lia).
  cbn [andb]. eexists. split; [reflexivity|]. cbn [n_rows n_cols elem].
  repeat split.
  - rewrite length_app, length_zseq. lia.
  - intros i j Hi. cbn [elem].
    destruct (Z.leb_spec c i) as [Hle|Hlt]; cbn [andb].
    + replace (i <=? c + h - 1) with true by (symmetry; apply Z.leb_le; lia).
      rewrite app_nth2 by lia. rewrite nth_zseq by lia. f_equal. lia.
    + rewrite app_nth1 by lia. apply HL. lia.
Qed.

Lemma RemoveRows_loop_S fuel idx m M c k :
  RemoveRows_loop (S fuel) X idx m M c k =
  if k <? m -% 1 then
    let height := uvec_at idx (k +% 1) -% uvec_at idx k -% 1 in
    '(M', c') <-
      (if 0 <? height then
         Y <- assign_rows M c (c +% height -% 1)
                X (uvec_at idx k +% 1) (uvec_at idx (k +% 1) -% 1) ;;
         Some (Y, c +% height)
       else Some (M, c)) ;;
    RemoveRows_loop fuel X idx m M' c' (k +% 1)
  else Some (M, c, k).
Proof. reflexivity. Qed.

Lemma RemoveRows_loop_exit fuel idx m M c k :
  (k <? m -% 1) = false ->
  RemoveRows_loop fuel X idx m M c k = Some (M, c, k).
Proof. intros H. destruct fuel; cbn [RemoveRows_loop]; now rewrite H. Qed.

Lemma RemoveRows_finish_last idx M c k :
  SizeT.inrange (n_elem idx) -> 0 < n_elem idx -> k = n_elem idx - 1 ->
  RemoveRows_finish X idx M c k =
  if uvec_at idx k <? n_rows X -% 1 then
    assign_rows M c (n_rows X -% n_elem idx -% 1)
      X (uvec_at idx k +% 1) (n_rows X -% 1)
  else Some M.
Proof.
  intros Hm Hpos Hk. unfold RemoveRows_finish.
  rewrite RemoveRows_loop_exit; [reflexivity|].
  unwrap. apply Z.ltb_ge. lia.
Qed.

Lemma RemoveRows_finish_step idx M c k :
  SizeT.inrange (n_elem idx) -> 0 <= k -> k + 1 < n_elem idx ->
  RemoveRows_finish X idx M c k =
  let height := uvec_at idx (k + 1) -% uvec_at idx k -% 1 in
  '(M', c') <-
    (if 0 <? height then
       Y <- assign_rows M c (c +% height -% 1)
              X (uvec_at idx k +% 1) (uvec_at idx (k + 1) -% 1) ;;
       Some (Y, c +% height)
     else Some (M, c)) ;;
  RemoveRows_finish X idx M' c' (k + 1).
Proof.
  intros Hm Hk Hlt. unfold RemoveRows_finish.
  replace (Z.to_nat (n_elem idx) - Z.to_nat k)%nat
    with (S (Z.to_nat (n_elem idx) - Z.to_nat (k + 1))) by lia.
  rewrite RemoveRows_loop_S.
  replace (k +% 1) with (k + 1) by (unwrap; reflexivity).
  replace (k <? n_elem idx -% 1) with true
    by (symmetry; unwrap; apply Z.ltb_lt; lia).
  cbv zeta.
  destruct (0 <? uvec_at idx (k + 1) -% uvec_at idx k -% 1);
    [|reflexivity].
  destruct (assign_rows _ _ _ _ _ _); reflexivity.
Qed.

Lemma uvec_at_middle (pre : list Z) a rest :
  uvec_at (pre ++ a :: rest) (Z.of_nat (length pre)) = a.
Proof. unfold uvec_at. now rewrite Nat2Z.id, nth_middle. Qed.

Lemma uvec_at_next (pre : list Z) a b rest :
  uvec_at (pre ++ a :: b :: rest) (Z.of_nat (length pre) + 1) = b.
Proof.
  unfold uvec_at.
  replace (Z.to_nat (Z.of_nat (length pre) + 1)) with (S (length pre)) by lia.
  rewrite app_nth2 by lia.
  replace (S (length pre) - length pre)%nat with 1%nat by lia. reflexivity.
Qed.

Lemma RemoveRows_finish_spec rest : forall pre a M c L,
  ascending_from (a + 1) rest (n_rows X) -> 0 <= a < n_rows X ->
  Z.of_nat (length pre) <= a ->
  n_rows M = n_rows X - n_elem (pre ++ a :: rest) ->
  n_cols M = n_cols X ->
  filled X M c L -> c = a - Z.of_nat (length pre) ->
  exists Y,
    RemoveRows_finish X (pre ++ a :: rest) M c (Z.of_nat (length pre))
      = Some Y /\
    n_rows Y = n_rows M /\ n_cols Y = n_cols X /\
    filled X Y (n_rows M) (L ++ blocks (a + 1) rest (n_rows X)).
Proof.
  induction rest as [|b rest IH]; intros pre a M c L Hasc Ha Hpre HM HMc HL Hc.
  - (* the last row to remove *)
    assert (Hn : n_elem (pre ++ [a]) = Z.of_nat (length pre) + 1)
      by (unfold n_elem; rewrite length_app; cbn [length]; lia).
    rewrite RemoveRows_finish_last
      by (unfold SizeT.inrange in *; rewrite ?Hn; lia).
    rewrite uvec_at_middle, Hn. rewrite Hn in HM. cbn [blocks].
    destruct (Z.ltb_spec a (n_rows X -% 1)) as [Hlt|Hge];
      revert Hlt || revert Hge; unwrap; intros Hcmp; unwrap.
    + destruct (assign_rows_filled M c L (a + 1) (n_rows X - 1 - a))
        as [Y [HY [HYr [HYc HYf]]]];
        try lia; auto.
      exists Y. split; [rewrite <- HY; f_equal; lia|].
      split; [lia|]. split; [lia|].
      replace (n_rows X - (a + 1)) with (n_rows X - 1 - a) by lia.
      replace (n_rows M) with (c + (n_rows X - 1 - a)) by lia. exact HYf.
    + exists M. split; [reflexivity|]. split; [reflexivity|]. split; [auto|].
      replace (Z.to_nat (n_rows X - (a + 1))) with 0%nat by lia.
      cbn [zseq]. rewrite app_nil_r.
      replace (n_rows M) with c by lia. exact HL.
  - (* one pass of the loop, then the rest *)
    destruct Hasc as [Hb Hrest].
    pose proof (ascending_room _ _ _ Hrest ltac:(lia)) as Hroom.
    assert (Hn : n_elem (pre ++ a :: b :: rest)
                 = Z.of_nat (length pre) + 2 + Z.of_nat (length rest))
      by (unfold n_elem; rewrite length_app; cbn [length]; lia).
    rewrite RemoveRows_finish_step
      by (unfold SizeT.inrange in *; rewrite ?Hn; lia).
    rewrite uvec_at_middle, uvec_at_next. cbv zeta. rewrite Hn in HM.
    specialize (IH (pre ++ [a]) b).
    rewrite <- app_assoc in IH. cbn [app] in IH.
    rewrite length_app in IH. cbn [length] in IH.
    replace (Z.of_nat (length pre + 1)) with (Z.of_nat (length pre) + 1)
      in IH by lia.
    rewrite Hn in IH. cbn [blocks]. unwrap.
    destruct (Z.ltb_spec 0 (b - a - 1)) as [Hh|Hh].
    + destruct (assign_rows_filled M c L (a + 1) (b - a - 1))
        as [M' [HM' [HMr [HMc' HMf]]]];
        try lia; auto.
      unwrap.
      replace (assign_rows M c (c + (b - a - 1) - 1) X (a + 1) (b - 1))
        with (Some M') by (rewrite <- HM'; f_equal; lia).
      cbn [bind].
      destruct (IH M' (c + (b - a - 1))
                  (L ++ zseq (a + 1) (Z.to_nat (b - a - 1))))
        as [Y [HY [HYr [HYc HYf]]]]; auto; try lia.
      exists Y. rewrite HY. split; [reflexivity|].
      split; [lia|]. split; [lia|].
      replace (b - (a + 1)) with (b - a - 1) by lia.
      rewrite <- app_assoc in HYf. rewrite <- HMr. exact HYf.
    + cbn [bind].
      destruct (IH M c L) as [Y [HY [HYr [HYc HYf]]]]; auto; try lia.
      exists Y. rewrite HY. split; [reflexivity|].
      split; [lia|]. split; [lia|].
      replace (Z.to_nat (b - (a + 1))) with 0%nat by lia. exact HYf.
Qed.

End RemoveRowsCorrect.

Lemma RemoveRows_nonempty {F : Type} (stale : Z -> Z -> F) (X : mat F) a rest :
  RemoveRows stale X (a :: rest) =
  '(M, c) <-
    (if 0 <? a then
       Y <- assign_rows (set_size stale (n_rows X -% n_elem (a :: rest))
                           (n_cols X))
              0 (0 +% a -% 1) X 0 (a -% 1) ;;
       Some (Y, 0 +% a)
     else Some (set_size stale (n_rows X -% n_elem (a :: rest)) (n_cols X),
                0)) ;;
  RemoveRows_finish X (a :: rest) M c 0.
Proof.
  unfold RemoveRows, RemoveRows_finish.
  replace (n_elem (a :: rest) =? 0) with false
    by (symmetry; apply Z.eqb_neq; unfold n_elem; cbn [length]; lia).
  change (Z.to_nat 0) with 0%nat. rewrite Nat.sub_0_r.
  change (uvec_at (a :: rest) 0) with a. cbv zeta.
  destruct (0 <? a); [|reflexivity].
  destruct (assign_rows _ _ _ _ _ _); reflexivity.
Qed.

Lemma nth_upto r i : 0 <= i < r -> nth (Z.to_nat i) (upto r) 0 = i.
Proof. intros H. unfold upto. rewrite nth_zseq by lia. lia. Qed.

(** C5.  For a matrix [X] with [r] rows and a vector [idx] of [m] distinct
    in-bounds row indices sorted ascending, [RemoveRows] returns a matrix
    with [r - m] rows and the columns of [X] whose [i]-th row is the
    [i]-th row of [X] that [idx] does not list (the kept rows in their
    original order); with an empty [idx] it returns [X] itself. *)
Theorem RemoveRows_correct {F : Type} (stale : Z -> Z -> F) (X : mat F)
    (idx : uvec) :
  SizeT.inrange (n_rows X) ->
  ascending_from 0 idx (n_rows X) ->
  exists Y,
    RemoveRows stale X idx = Some Y /\
    n_rows Y = n_rows X - n_elem idx /\
    n_cols Y = n_cols X /\
    Z.of_nat (length (kept_rows (n_rows X) idx)) = n_rows Y /\
    (forall i j, 0 <= i < n_rows Y ->
       elem Y i j = elem X (nth (Z.to_nat i) (kept_rows (n_rows X) idx) 0) j) /\
    (idx = [] -> Y = X).
Proof.
  intros Hr Hasc.
  assert (H0 : 0 <= n_rows X) by (unfold SizeT.inrange in Hr; lia).
  rewrite (kept_rows_blocks _ _ H0 Hasc).
  pose proof (length_blocks _ _ _ Hasc H0) as Hlen.
  destruct idx as [|a rest].
  - exists X. unfold n_elem in *. cbn [length blocks] in *.
    split; [reflexivity|]. split; [lia|]. split; [reflexivity|].
    split; [lia|]. split; [|reflexivity].
    intros i j Hi. rewrite Z.sub_0_r. fold (upto (n_rows X)).
    rewrite nth_upto by lia. reflexivity.
  - destruct Hasc as [Ha Hrest].
    pose proof (ascending_room _ _ _ Hrest ltac:(lia)) as Hroom.
    assert (Hn : n_elem (a :: rest) = 1 + Z.of_nat (length rest))
      by (unfold n_elem; cbn [length]; lia).
    rewrite RemoveRows_nonempty. rewrite Hn in *. unwrap.
    set (M0 := set_size stale (n_rows X - (1 + Z.of_nat (length rest)))
                 (n_cols X)).
    assert (HM0 : filled X M0 0 []) by (split; [reflexivity | intros; lia]).
    cbn [blocks]. rewrite Z.sub_0_r.
    assert (Hfin : forall M c L,
      n_rows M = n_rows X - (1 + Z.of_nat (length rest)) ->
      n_cols M = n_cols X -> filled X M c L -> c = a ->
      exists Y, RemoveRows_finish X (a :: rest) M c 0 = Some Y /\
        n_rows Y = n_rows X - (1 + Z.of_nat (length rest)) /\
        n_cols Y = n_cols X /\
        filled X Y (n_rows X - (1 + Z.of_nat (length rest)))
          (L ++ blocks (a + 1) rest (n_rows X))).
    { intros M c L HMr HMc HL Hc.
      destruct (RemoveRows_finish_spec X Hr rest [] a M c L)
        as [Y [HY [HYr [HYc HYf]]]]; cbn [length app]; auto; try lia.
      exists Y. cbn [app length] in HY. change (Z.of_nat 0) with 0 in HY.
      rewrite HY. rewrite HMr in *. auto. }
    destruct (Z.ltb_spec 0 a) as [Hpos|Hzero].
    + destruct (assign_rows_filled X M0 0 [] 0 a)
        as [M1 [HM1 [HM1r [HM1c HM1f]]]]; auto;
        try (unfold M0; cbn [n_rows n_cols set_size]; lia).
      unwrap. change (0 + a) with a in *. rewrite HM1. cbn [bind].
      destruct (Hfin M1 a (zseq 0 (Z.to_nat a)))
        as [Y [HY [HYr [HYc [HYl HYe]]]]]; auto.
      exists Y. rewrite HY. split; [reflexivity|]. split; [lia|].
      split; [lia|]. split; [lia|]. split; [|discriminate].
      intros i j Hi. apply HYe. lia.
    + cbn [bind].
      destruct (Hfin M0 0 []) as [Y [HY [HYr [HYc [HYl HYe]]]]];
        auto; try lia.
      exists Y. rewrite HY. split; [reflexivity|]. split; [lia|].
      replace (Z.to_nat a) with 0%nat by lia. cbn [zseq].
      split; [lia|]. split; [lia|]. split; [|discriminate].
      intros i j Hi. apply HYe. lia.
Qed.

(** C5, instance: removing row 2 of the 5 x 3 example matrix keeps the
    rows 0, 1, 3 and 4, in this order. *)
Lemma RemoveRows_correct_witness :
  SizeT.inrange (n_rows example_5x3) /\
  ascending_from 0 [2] (n_rows example_5x3) /\
  exists Y,
    RemoveRows no_stale example_5x3 [2] = Some Y /\
    n_rows Y = 4 /\ n_cols Y = 3 /\
    forall j, elem Y 0 j = elem example_5x3 0 j /\
              elem Y 1 j = elem example_5x3 1 j /\
              elem Y 2 j = elem example_5x3 3 j /\
              elem Y 3 j = elem example_5x3 4 j.
Proof.
  assert (Hr : SizeT.inrange (n_rows example_5x3))
    by (unfold SizeT.inrange, SizeT.modulus; simpl; lia).
  assert (Hasc : ascending_from 0 [2] (n_rows example_5x3))
    by (simpl; lia).
  split; [exact Hr|]. split; [exact Hasc|].
  destruct (RemoveRows_correct no_stale example_5x3 [2] Hr Hasc)
    as [Y [HY [HYr [HYc [_ [HYe _]]]]]].
  exists Y. split; [exact HY|]. split; [exact HYr|]. split; [exact HYc|].
  intros j. rewrite HYr in HYe.
  repeat split; [apply (HYe 0) | apply (HYe 1) | apply (HYe 2)
                 | apply (HYe 3)]; simpl; lia.
Defined.

(** ** Sums and norms *)

Section Sums.

Context {F : Type} {arith : Arith F}.

Lemma sum_list_ext (l : list Z) (f g : Z -> F) : forall a,
  (forall i, In i l -> f i = g i) ->
  fold_left (fun acc i => (acc + f i)%d) l a
  = fold_left (fun acc i => (acc + g i)%d) l a.
Proof.
  induction l as [|b l IH]; intros a H; cbn [fold_left]; [reflexivity|].
  rewrite (H b) by now left. apply IH.
  intros i Hi. apply H. now right.
Qed.

Lemma sum_upto_ext n (f g : Z -> F) :
  (forall i, 0 <= i < n -> f i = g i) -> sum_upto n f = sum_upto n g.
Proof.
  intros H. unfold sum_upto. apply sum_list_ext.
  intros i Hi. apply H. now apply in_upto.
Qed.

(** The norm of a column depends on the entries of that column only. *)
Lemma norm_col_ext (D D' : mat F) j :
  n_rows D = n_rows D' -> (forall i, elem D i j = elem D' i j) ->
  norm_fro (col D j) = norm_fro (col D' j).
Proof.
  intros Hr H. unfold norm_fro, accu. cbn [n_cols n_rows col square elem].
  rewrite Hr. f_equal. apply sum_upto_ext. intros j' _.
  apply sum_upto_ext. intros i _. now rewrite H.
Qed.

End Sums.

(** *** Exact arithmetic *)

Local Open Scope R_scope.

(** The operations of [Arith_R] written as those of the real numbers. *)
Ltac real :=
  cbn [d0 d1 dadd dsub dmul ddiv dopp dabs dsqrt dpow2 dltb dleb deqb
       d_half d_minus2 d_c d_rho OBJ_TOL NEWTON_TOL DBL_MAX Arith_R] in *.

Lemma Rltb_true (x y : R) : x < y -> Rltb x y = true.
Proof.
  intros H. unfold Rltb.
  destruct (Rlt_dec x y); [reflexivity | contradiction].
Qed.

Lemma Rltb_false (x y : R) : ~ x < y -> Rltb x y = false.
Proof.
  intros H. unfold Rltb.
  destruct (Rlt_dec x y); [contradiction | reflexivity].
Qed.

Lemma Rleb_true (x y : R) : x <= y -> Rleb x y = true.
Proof.
  intros H. unfold Rleb.
  destruct (Rle_dec x y); [reflexivity | contradiction].
Qed.

Lemma nonzero_false (x : R) : nonzero x = false <-> x = 0.
Proof.
  unfold nonzero. cbn [deqb d0 Arith_R]. unfold Reqb.
  destruct (Req_dec_T x 0); cbn [negb]; split; intros; auto;
    try discriminate.
  contradiction.
Qed.

Lemma sum_list_nonneg l (f : Z -> R) :
  (forall i, 0 <= f i) -> forall a, 0 <= a ->
  0 <= fold_left (fun acc i => acc + f i) l a.
Proof.
  intros H. induction l as [|b l IH]; intros a Ha; cbn [fold_left].
  - exact Ha.
  - apply IH. specialize (H b). lra.
Qed.

Lemma sum_upto_nonneg n (f : Z -> R) :
  (forall i, 0 <= f i) -> 0 <= sum_upto n f.
Proof.
  intros H. unfold sum_upto. real. apply sum_list_nonneg; [exact H | lra].
Qed.

Lemma sum_list_scal l k (f : Z -> R) : forall a,
  fold_left (fun acc i => acc + k * f i) l (k * a)
  = k * fold_left (fun acc i => acc + f i) l a.
Proof.
  induction l as [|b l IH]; intros a; cbn [fold_left]; [reflexivity|].
  rewrite <- IH. f_equal. ring.
Qed.

Lemma sum_upto_scal n k (f : Z -> R) :
  sum_upto n (fun i => k * f i) = k * sum_upto n f.
Proof.
  unfold sum_upto. real. rewrite <- sum_list_scal. f_equal. ring.
Qed.

Lemma sum_upto_zero n (f : Z -> R) :
  (forall i, (0 <= i < n)%Z -> f i = 0) -> sum_upto n f = 0.
Proof.
  intros H. rewrite (sum_upto_ext n f (fun _ => 0) H).
  unfold sum_upto. real.
  induction (upto n) as [|a l IH]; cbn [fold_left]; [reflexivity|].
  now rewrite Rplus_0_r.
Qed.

Lemma sum_upto_1 (f : Z -> R) : sum_upto 1 f = f 0%Z.
Proof.
  unfold sum_upto, upto. change (Z.to_nat 1) with 1%nat.
  cbn [zseq fold_left]. apply Rplus_0_l.
Qed.

Lemma norm_col (A : mat R) j : norm_fro (col A j) = sqrt (col_sq A j).
Proof.
  unfold norm_fro, accu. cbn [n_cols n_rows col square elem].
  now rewrite sum_upto_1.
Qed.

Lemma col_sq_nonneg (A : mat R) j : 0 <= col_sq A j.
Proof. apply sum_upto_nonneg. intros i. real. nra. Qed.

Lemma col_sq_ext (A B : mat R) j :
  n_rows A = n_rows B ->
  (forall i, (0 <= i < n_rows A)%Z -> elem A i j = elem B i j) ->
  col_sq A j = col_sq B j.
Proof.
  intros Hr H. unfold col_sq. rewrite <- Hr. apply sum_upto_ext.
  intros i Hi. now rewrite H.
Qed.

Lemma norm_sq (A : mat R) j :
  norm_fro (col A j) * norm_fro (col A j) = col_sq A j.
Proof. rewrite norm_col. apply sqrt_sqrt. apply col_sq_nonneg. Qed.

(** Dividing a column of nonzero norm by its norm gives a unit column. *)
Lemma col_sq_normalised (A B : mat R) j :
  n_rows B = n_rows A -> norm_fro (col A j) <> 0 ->
  (forall i, (0 <= i < n_rows A)%Z ->
     elem B i j = elem A i j / norm_fro (col A j)) ->
  norm_fro (col B j) = 1.
Proof.
  intros Hr Hn H. rewrite (norm_col B).
  assert (Hsq : col_sq B j = 1).
  { unfold col_sq. rewrite Hr.
    rewrite (sum_upto_ext (n_rows A) _
               (fun i => / (norm_fro (col A j) * norm_fro (col A j))
                         * (elem A i j * elem A i j))).
    - rewrite sum_upto_scal.
      change (sum_upto (n_rows A) (fun i => elem A i j * elem A i j))
        with (col_sq A j).
      rewrite norm_sq.
      apply Rinv_l. rewrite <- norm_sq. nra.
    - intros i Hi. rewrite H by exact Hi. real. field. exact Hn. }
  rewrite Hsq. apply sqrt_1.
Qed.

Local Open Scope Z_scope.

(** ** Projection of the dictionary *)

Lemma existsb_upto n j :
  existsb (Z.eqb j) (upto n) = (0 <=? j) && (j <? n).
Proof.
  destruct (existsb (Z.eqb j) (upto n)) eqn:E.
  - apply existsb_exists in E. destruct E as [x [Hx Hjx]].
    apply Z.eqb_eq in Hjx. subst x. apply in_upto in Hx.
    symmetry. apply andb_true_iff.
    split; [apply Z.leb_le | apply Z.ltb_lt]; lia.
  - symmetry. apply not_true_is_false. intros H.
    apply andb_true_iff in H. destruct H as [H1 H2].
    apply Z.leb_le in H1. apply Z.ltb_lt in H2.
    assert (Hin : In j (upto n)) by (apply in_upto; lia).
    assert (existsb (Z.eqb j) (upto n) = true)
      by (apply existsb_exists; exists j; split;
          [exact Hin | apply Z.eqb_refl]).
    congruence.
Qed.

Lemma in_range_true j n : 0 <= j < n -> (0 <=? j) && (j <? n) = true.
Proof.
  intros H. apply andb_true_iff.
  split; [apply Z.leb_le | apply Z.ltb_lt]; lia.
Qed.

Lemma in_range_false j n : ~ 0 <= j < n -> (0 <=? j) && (j <? n) = false.
Proof.
  intros H. destruct (Z.leb_spec 0 j); [|reflexivity].
  destruct (Z.ltb_spec j n); [lia | reflexivity].
Qed.

Section Projection.

Context {F : Type} {arith : Arith F}.

Lemma same_frame_refl (s : SparseCoding F) : same_frame s s.
Proof. repeat split. Qed.

Lemma same_frame_trans (s1 s2 s3 : SparseCoding F) :
  same_frame s1 s2 -> same_frame s2 s3 -> same_frame s1 s3.
Proof.
  unfold same_frame. intros H1 H2.
  decompose [and] H1. decompose [and] H2. repeat split; congruence.
Qed.

Lemma projected_ext (D D' : mat F) i j :
  n_rows D = n_rows D' -> (forall i', elem D i' j = elem D' i' j) ->
  projected D i j = projected D' i j.
Proof.
  intros Hr H. unfold projected.
  rewrite (norm_col_ext D D' j Hr H), H. reflexivity.
Qed.

(** A pass of the loop on an atom that is a column of the dictionary. *)
Lemma ProjectDictionary_step_in (s : SparseCoding F) j :
  0 <= j < n_cols (dictionary s) ->
  exists s',
    ProjectDictionary_step s j = Some s' /\ same_frame s s' /\
    forall i j', elem (dictionary s') i j'
                 = if j' =? j then projected (dictionary s) i j
                   else elem (dictionary s) i j'.
Proof.
  intros Hj. unfold ProjectDictionary_step, get_col.
  rewrite in_range_true by exact Hj. cbn [bind]. unfold projected.
  destruct (dltb d1 (norm_fro (col (dictionary s) j)));
    (eexists; split; [reflexivity|]; split; [repeat split|]);
    intros i j'; cbn [dictionary with_dictionary set_col elem mdiv col];
    destruct (Z.eqb_spec j' j); subst; reflexivity.
Qed.

(** A pass of the loop on an index that is no column of the dictionary:
    the bounds check of [dictionary.col(j)] throws. *)
Lemma ProjectDictionary_step_out (s : SparseCoding F) j :
  ~ 0 <= j < n_cols (dictionary s) -> ProjectDictionary_step s j = None.
Proof.
  intros Hj. unfold ProjectDictionary_step, get_col.
  rewrite in_range_false by exact Hj. reflexivity.
Qed.

Lemma ProjectDictionary_loop_in l : forall s : SparseCoding F,
  NoDup l -> (forall j, In j l -> 0 <= j < n_cols (dictionary s)) ->
  exists s',
    ProjectDictionary_loop l s = Some s' /\ same_frame s s' /\
    forall i j,
      elem (dictionary s') i j
      = if existsb (Z.eqb j) l then projected (dictionary s) i j
        else elem (dictionary s) i j.
Proof.
  induction l as [|a l IH]; intros s Hnd Hin; cbn [ProjectDictionary_loop].
  - exists s. split; [reflexivity|].
    split; [apply same_frame_refl | reflexivity].
  - inversion Hnd as [|? ? Hnotin Hnd']; subst.
    destruct (ProjectDictionary_step_in s a) as [s1 [H1 [Hf1 He1]]];
      [apply Hin; now left|].
    rewrite H1. cbn [bind].
    assert (Hc1 : n_cols (dictionary s1) = n_cols (dictionary s))
      by apply Hf1.
    assert (Hr1 : n_rows (dictionary s1) = n_rows (dictionary s))
      by apply Hf1.
    destruct (IH s1 Hnd') as [s' [H' [Hf' He']]].
    { intros j Hj. rewrite Hc1. apply Hin. now right. }
    exists s'. split; [exact H'|].
    split; [eapply same_frame_trans; eauto|].
    intros i j. rewrite He'. cbn [existsb].
    destruct (Z.eqb_spec j a) as [->|Hne]; cbn [orb].
    + rewrite existsb_eqb_false by exact Hnotin.
      rewrite He1, Z.eqb_refl. reflexivity.
    + destruct (existsb (Z.eqb j) l).
      * apply projected_ext; [exact Hr1|].
        intros i'. rewrite He1.
        destruct (Z.eqb_spec j a); [contradiction | reflexivity].
      * rewrite He1.
        destruct (Z.eqb_spec j a); [contradiction | reflexivity].
Qed.

Lemma ProjectDictionary_loop_out l : forall (s : SparseCoding F) j,
  In j l -> ~ 0 <= j < n_cols (dictionary s) ->
  ProjectDictionary_loop l s = None.
Proof.
  induction l as [|a l IH]; intros s j Hin Hj; [contradiction|].
  cbn [ProjectDictionary_loop].
  assert (Ha : 0 <= a < n_cols (dictionary s)
               \/ ~ 0 <= a < n_cols (dictionary s)) by lia.
  destruct Ha as [Ha|Ha].
  - destruct (ProjectDictionary_step_in s a Ha) as [s1 [H1 [Hf1 _]]].
    rewrite H1. cbn [bind].
    destruct Hin as [->|Hin]; [contradiction|].
    apply (IH s1 j Hin).
    replace (n_cols (dictionary s1)) with (n_cols (dictionary s))
      by (symmetry; apply Hf1).
    exact Hj.
  - rewrite ProjectDictionary_step_out by exact Ha. reflexivity.
Qed.

(** What [ProjectDictionary] returns, when it returns. *)
Lemma ProjectDictionary_elem (s s' : SparseCoding F) :
  ProjectDictionary s = Some s' ->
  (forall j, 0 <= j < atoms s -> 0 <= j < n_cols (dictionary s)) /\
  same_frame s s' /\
  forall i j,
    elem (dictionary s') i j
    = if (0 <=? j) && (j <? atoms s)
      then projected (dictionary s) i j else elem (dictionary s) i j.
Proof.
  unfold ProjectDictionary. intros Hs.
  assert (Hin : forall j, In j (upto (atoms s)) ->
                  0 <= j < n_cols (dictionary s)).
  { intros j Hj.
    assert (Hd : 0 <= j < n_cols (dictionary s)
                 \/ ~ 0 <= j < n_cols (dictionary s)) by lia.
    destruct Hd as [Hd|Hd]; [exact Hd|].
    rewrite (ProjectDictionary_loop_out _ s j Hj Hd) in Hs. discriminate. }
  destruct (ProjectDictionary_loop_in (upto (atoms s)) s (NoDup_zseq _ _) Hin)
    as [s1 [H1 [Hf He]]].
  rewrite H1 in Hs. injection Hs as <-.
  split; [intros j Hj; apply Hin; now apply in_upto|].
  split; [exact Hf|].
  intros i j. rewrite He, existsb_upto. reflexivity.
Qed.

(** [ProjectDictionary] returns when every atom is a column of the
    dictionary. *)
Lemma ProjectDictionary_returns (s : SparseCoding F) :
  atoms s <= n_cols (dictionary s) ->
  exists s', ProjectDictionary s = Some s'.
Proof.
  intros Hle.
  destruct (ProjectDictionary_loop_in (upto (atoms s)) s (NoDup_zseq _ _))
    as [s' [H' _]].
  - intros j Hj. apply in_upto in Hj. lia.
  - exists s'. exact H'.
Qed.

End Projection.

Local Open Scope R_scope.

(** In exact arithmetic a shrunk atom has norm at most 1. *)
Lemma projected_norm_le (D D' : mat R) j :
  n_rows D' = n_rows D -> (forall i, elem D' i j = projected D i j) ->
  norm_fro (col D' j) <= 1.
Proof.
  intros Hr H. unfold projected in H. real.
  destruct (Rlt_dec 1 (norm_fro (col D j))) as [Hgt|Hle].
  - rewrite (Rltb_true _ _ Hgt) in H.
    rewrite (col_sq_normalised D D' j Hr); [lra | lra | intros; apply H].
  - rewrite (Rltb_false _ _ Hle) in H.
    rewrite norm_col, (col_sq_ext D' D j Hr) by (intros; apply H).
    rewrite <- norm_col. lra.
Qed.


(** ** The objective *)

Lemma accu_square_nonneg (A : mat R) : 0 <= accu (square A).
Proof.
  unfold accu. apply sum_upto_nonneg. intros j.
  apply sum_upto_nonneg. intros i. cbn [square elem]. real. nra.
Qed.

(** The square of the Frobenius norm is the sum of the squares of the
    entries. *)
Lemma norm_fro_pow2 (A : mat R) : norm_fro A ^ 2 = accu (square A).
Proof.
  unfold norm_fro. real. rewrite <- Rsqr_pow2. apply Rsqr_sqrt.
  apply accu_square_nonneg.
Qed.

(** C7 (corrected).  [Objective] reads the members and assigns none.  In
    every arithmetic its value is, with [r2] the sum of the squares of
    the entries of [X - D * Z], [z1] the sum of the absolute values of
    the entries of [Z] and [z2] the sum of the squares of the entries of
    [Z], the expression [0.5 * (sqrt(r2)^2 + lambda2 * sqrt(z2)^2)
    + lambda1 * z1] when [lambda2] compares greater than [0], and
    [0.5 * sqrt(r2)^2 + lambda1 * z1] otherwise, each operation being one
    of the arithmetic.  In exact arithmetic these are
    [0.5 * r2 + lambda1 * z1 + 0.5 * lambda2 * z2] and
    [0.5 * r2 + lambda1 * z1], and between two objects with the same
    data, dictionary, codes and [lambda1], one with [lambda2 <= 0] and one
    with [lambda2 > 0], the values differ by exactly
    [0.5 * lambda2 * z2]. *)
Theorem Objective_formula :
  (forall (F : Type) (arith : Arith F) (s : SparseCoding F),
     Objective s
     = if dltb d0 (lambda2 s)
       then (d_half * (dpow2 (dsqrt (residual_sq s))
                       + lambda2 s * dpow2 (dsqrt (codes_sq s)))
             + lambda1 s * codes_l1 s)%d
       else (d_half * dpow2 (dsqrt (residual_sq s))
             + lambda1 s * codes_l1 s)%d) /\
  (forall s : SparseCoding R,
     (lambda2 s <= 0 ->
      Objective s = 0.5 * residual_sq s + lambda1 s * codes_l1 s) /\
     (0 < lambda2 s ->
      Objective s
      = 0.5 * residual_sq s + lambda1 s * codes_l1 s
        + 0.5 * lambda2 s * codes_sq s) /\
     (forall s', data s' = data s -> dictionary s' = dictionary s ->
        codes s' = codes s -> lambda1 s' = lambda1 s ->
        lambda2 s <= 0 -> 0 < lambda2 s' ->
        Objective s' - Objective s = 0.5 * lambda2 s' * codes_sq s)).
Proof.
  split; [reflexivity|].
  assert (Hr : forall t : SparseCoding R,
            norm_fro (residual t) ^ 2 = residual_sq t).
  { intros t. rewrite norm_fro_pow2. reflexivity. }
  assert (Hz : forall t : SparseCoding R,
            norm_fro (codes t) ^ 2 = codes_sq t).
  { intros t. rewrite norm_fro_pow2. reflexivity. }
  assert (H0 : forall t : SparseCoding R, lambda2 t <= 0 ->
     Objective t = 0.5 * residual_sq t + lambda1 t * codes_l1 t).
  { intros t Ht. rewrite <- Hr. unfold Objective, residual.
    real. rewrite Rltb_false by lra. reflexivity. }
  assert (Hpos : forall t : SparseCoding R, 0 < lambda2 t ->
     Objective t
     = 0.5 * residual_sq t + lambda1 t * codes_l1 t
       + 0.5 * lambda2 t * codes_sq t).
  { intros t Hp. rewrite <- Hr, <- Hz. unfold Objective, residual.
    change (codes_l1 t) with (accu (mabs (codes t))). real.
    rewrite Rltb_true by exact Hp. ring. }
  intros s. split; [apply H0|]. split; [apply Hpos|].
  intros s' Hd HD Hc Hl Hz' Hp.
  rewrite (Hpos s' Hp), (H0 s Hz').
  unfold residual_sq, codes_l1, codes_sq. rewrite Hd, HD, Hc, Hl. ring.
Qed.

(** ** The constructor *)

(** C1 (corrected).  The constructor has no failure path: whatever the
    data, the atom count and the two weights are (zero atoms and
    non-positive weights included), it returns an object that holds
    exactly these arguments. *)
Theorem SparseCoding_new_total {F : Type} (stale : Z -> Z -> F)
    (Initialize : mat F -> Z -> mat F) (X : mat F) (K : Z) (l1 l2 : F) :
  exists s,
    SparseCoding_new stale Initialize X K l1 l2 = Some s /\
    atoms s = K /\ data s = X /\ lambda1 s = l1 /\ lambda2 s = l2.
Proof. eexists. split; [reflexivity|]. repeat split. Qed.

(** C1, counterexample.  With no atom, [lambda1 = -1] and [lambda2 = 0]
    (an invalid configuration on each of the three counts) the
    constructor returns an object. *)
Lemma SparseCoding_new_accepts_invalid :
  invalid_configuration (zeros 1 1) 0 (-1) 0 /\
  exists s,
    SparseCoding_new (fun _ _ => 0) zero_initializer (zeros 1 1) 0 (-1) 0
    = Some s /\ atoms s = 0%Z /\ lambda1 s = -1 /\ lambda2 s = 0.
Proof.
  split.
  - left. lia.
  - eexists. split; [reflexivity|]. repeat split.
Qed.

(** C2 (corrected).  After construction the code matrix has shape
    [atoms x N]; its entries are those of the fresh storage, which the
    constructor does not fill (they are zero when that storage is); the
    dictionary is what the initialiser produced, so it has one row per
    data feature and [atoms] columns when the initialiser produces that
    shape. *)
Theorem SparseCoding_new_shape {F : Type} {arith : Arith F}
    (stale : Z -> Z -> F) (Initialize : mat F -> Z -> mat F) (X : mat F)
    (K : Z) (l1 l2 : F) :
  exists s,
    SparseCoding_new stale Initialize X K l1 l2 = Some s /\
    n_rows (codes s) = K /\ n_cols (codes s) = n_cols X /\
    (forall i j, elem (codes s) i j = stale i j) /\
    ((forall i j, stale i j = d0) -> forall i j, elem (codes s) i j = d0) /\
    dictionary s = Initialize X K /\
    (n_rows (Initialize X K) = n_rows X -> n_cols (Initialize X K) = K ->
     n_rows (dictionary s) = n_rows X /\ n_cols (dictionary s) = K).
Proof.
  eexists. split; [reflexivity|].
  cbn [codes dictionary n_rows n_cols elem set_size].
  repeat split; auto.
Qed.

(** C2, counterexample.  On storage that holds ones, the code matrix of
    the constructed object has a nonzero entry. *)
Lemma SparseCoding_new_codes_not_zeroed :
  exists s,
    SparseCoding_new (fun _ _ => 1) zero_initializer (zeros 1 1) 1 1 0
    = Some s /\
    n_rows (codes s) = 1%Z /\ n_cols (codes s) = 1%Z /\
    elem (codes s) 0 0 = 1 /\ elem (codes s) 0 0 <> 0.
Proof.
  eexists. split; [reflexivity|].
  cbn [codes n_rows n_cols elem zeros set_size].
  repeat split. lra.
Qed.

(** ** The alternating loop *)

Local Open Scope Z_scope.

Section EncodeCorrect.

Context {F : Type} {arith : Arith F}.

Variable stale : Z -> Z -> F.
Variable LARS_Regress : mat F -> F -> F -> mat F -> mat F -> mat F.
Variable solve : mat F -> mat F -> option (mat F).
Variable inv : mat F -> option (mat F).
Variable RandInt : nat -> Z -> Z.

Local Notation "'round_of' fuel x" :=
  (Encode_round stale LARS_Regress solve inv RandInt fuel
     (ls_adj x) (ls_obj x) (ls_rng x))
  (at level 10, fuel at level 9, x at level 9).

Local Notation "'loop_from' rounds fuel maxIterations t x" :=
  (Encode_loop stale LARS_Regress solve inv RandInt rounds fuel
     maxIterations t (ls_last x) (ls_adj x) (ls_obj x) (ls_rng x))
  (at level 10, rounds at level 9, fuel at level 9, maxIterations at level 9,
   t at level 9, x at level 9).

Local Notation "'passes_of' fuel k x" :=
  (passes stale LARS_Regress solve inv RandInt fuel k x)
  (at level 10, fuel at level 9, k at level 9, x at level 9).

Local Notation "'converges_of' fuel k x out" :=
  (converges_after stale LARS_Regress solve inv RandInt fuel k x out)
  (at level 10, fuel at level 9, k at level 9, x at level 9, out at level 9).

Lemma Encode_loop_done rounds fuel maxIterations x :
  loop_from rounds fuel maxIterations maxIterations x
  = Some (ls_obj x, ls_rng x).
Proof. destruct rounds; cbn [Encode_loop]; now rewrite Z.eqb_refl. Qed.

Lemma Encode_loop_pass rounds fuel maxIterations t x :
  t <> maxIterations ->
  loop_from (S rounds) fuel maxIterations t x
  = '(s, rng, adj, cur) <- round_of fuel x ;;
    if dltb (ls_last x - cur)%d OBJ_TOL then Some (s, rng)
    else loop_from rounds fuel maxIterations (t +% 1) (mkloop s rng adj cur).
Proof.
  intros Ht. cbn [Encode_loop].
  replace (t =? maxIterations) with false by (symmetry; now apply Z.eqb_neq).
  destruct (round_of fuel x) as [[[[s rng] adj] cur]|]; reflexivity.
Qed.

Lemma Encode_loop_starved fuel maxIterations t x :
  t <> maxIterations -> loop_from O fuel maxIterations t x = None.
Proof.
  intros Ht. cbn [Encode_loop].
  now replace (t =? maxIterations) with false
    by (symmetry; now apply Z.eqb_neq).
Qed.

(** A run of passes that do not meet the test takes the loop from [t] to
    [t + k], as long as the counter does not reach [maxIterations] on the
    way. *)
Lemma Encode_loop_passes k : forall rounds fuel maxIterations t x y,
  passes_of fuel k x = Some y ->
  (forall i, 0 <= i < Z.of_nat k -> SizeT.wrap (t + i) <> maxIterations) ->
  SizeT.inrange t ->
  loop_from (k + rounds) fuel maxIterations t x
  = loop_from rounds fuel maxIterations (SizeT.wrap (t + Z.of_nat k)) y.
Proof.
  induction k as [|k IH]; intros rounds fuel maxIterations t x y Hp Hne Ht.
  - cbn [passes] in Hp. injection Hp as <-. cbn [Nat.add].
    rewrite Z.add_0_r, wrap_small by exact Ht. reflexivity.
  - cbn [passes] in Hp. cbn [Nat.add].
    rewrite Encode_loop_pass
      by (specialize (Hne 0 ltac:(lia)); rewrite Z.add_0_r, wrap_small in Hne;
          auto).
    destruct (round_of fuel x) as [[[[s rng] adj] cur]|]; [|discriminate].
    cbn [bind] in *.
    destruct (dltb (ls_last x - cur)%d OBJ_TOL); [discriminate|].
    rewrite (IH rounds fuel maxIterations (t +% 1) _ y Hp).
    + cbn [ls_last ls_adj ls_obj ls_rng]. f_equal.
      unfold SizeT.add, SizeT.wrap.
      rewrite Zplus_mod_idemp_l. f_equal. lia.
    + intros i Hi. specialize (Hne (i + 1) ltac:(lia)).
      unfold SizeT.add, SizeT.wrap in *.
      rewrite Zplus_mod_idemp_l. rewrite <- Z.add_assoc, (Z.add_comm 1 i).
      exact Hne.
    + unfold SizeT.add, SizeT.wrap, SizeT.inrange.
      apply Z.mod_pos_bound. reflexivity.
Qed.

Lemma passes_S fuel k x :
  passes_of fuel (S k) x
  = '(s, rng, adj, cur) <- round_of fuel x ;;
    if dltb (ls_last x - cur)%d OBJ_TOL then None
    else passes_of fuel k (mkloop s rng adj cur).
Proof. reflexivity. Qed.

Lemma converges_after_0 fuel x out :
  converges_of fuel 0 x out <->
  exists s rng adj cur,
    round_of fuel x = Some (s, rng, adj, cur) /\
    dltb (ls_last x - cur)%d OBJ_TOL = true /\ out = (s, rng).
Proof.
  unfold converges_after. cbn [passes]. split.
  - intros (y & s & rng & adj & cur & Hy & Hr & Hc & Ho).
    injection Hy as <-. exists s, rng, adj, cur. auto.
  - intros (s & rng & adj & cur & Hr & Hc & Ho).
    exists x, s, rng, adj, cur. auto.
Qed.

Lemma converges_after_S fuel k x out :
  converges_of fuel (S k) x out <->
  exists s rng adj cur,
    round_of fuel x = Some (s, rng, adj, cur) /\
    dltb (ls_last x - cur)%d OBJ_TOL = false /\
    converges_of fuel k (mkloop s rng adj cur) out.
Proof.
  unfold converges_after. rewrite passes_S. split.
  - intros (y & s' & rng' & adj' & cur' & Hy & Hr & Hc & Ho).
    destruct (round_of fuel x) as [[[[s rng] adj] cur]|]; [|discriminate].
    cbn [bind] in Hy. exists s, rng, adj, cur. split; [reflexivity|].
    destruct (dltb (ls_last x - cur)%d OBJ_TOL); [discriminate|].
    split; [reflexivity|].
    exists y, s', rng', adj', cur'. auto.
  - intros (s & rng & adj & cur & Hr & Hc & y & s' & rng' & adj' & cur'
            & Hy & Hr' & Hc' & Ho).
    exists y, s', rng', adj', cur'. rewrite Hr. cbn [bind].
    rewrite Hc. auto.
Qed.

(** The loop entered at [t] with [n] passes left before the counter
    reaches [maxIterations]. *)
Lemma Encode_loop_spec n : forall rounds fuel maxIterations t x out,
  SizeT.inrange t -> t + Z.of_nat n = maxIterations ->
  maxIterations < SizeT.modulus -> (n <= rounds)%nat ->
  loop_from rounds fuel maxIterations t x = Some out <->
  (exists y, passes_of fuel n x = Some y /\ out = (ls_obj y, ls_rng y)) \/
  (exists k, (k < n)%nat /\ converges_of fuel k x out).
Proof.
  induction n as [|n IH];
    intros rounds fuel maxIterations t x out Ht Hn Hmax Hr.
  - replace t with maxIterations by lia. rewrite Encode_loop_done.
    cbn [passes]. split.
    + intros H. injection H as <-. left. exists x. auto.
    + intros [(y & Hy & ->) | (k & Hk & _)]; [|lia].
      injection Hy as <-. reflexivity.
  - destruct rounds as [|rounds]; [lia|].
    rewrite Encode_loop_pass by lia. rewrite passes_S.
    destruct (round_of fuel x) as [[[[s rng] adj] cur]|] eqn:Hround;
      cbn [bind].
    + destruct (dltb (ls_last x - cur)%d OBJ_TOL) eqn:Htest.
      * split.
        -- intros H. injection H as <-. right. exists 0%nat.
           split; [lia|]. apply converges_after_0.
           exists s, rng, adj, cur. auto.
        -- intros [(y & Hy & _) | (k & Hk & Hc)]; [discriminate|].
           destruct k as [|k].
           ++ apply converges_after_0 in Hc.
              destruct Hc as (s' & rng' & adj' & cur' & Hr' & _ & ->).
              rewrite Hround in Hr'. now injection Hr' as <- <- _ _.
           ++ apply converges_after_S in Hc.
              destruct Hc as (s' & rng' & adj' & cur' & Hr' & Hn' & _).
              rewrite Hround in Hr'. injection Hr' as <- <- <- <-.
              congruence.
      * assert (Ht' : SizeT.inrange (t +% 1))
          by (unfold SizeT.inrange in *; unwrap; lia).
        assert (Hn' : (t +% 1) + Z.of_nat n = maxIterations)
          by (unfold SizeT.inrange in *; unwrap; lia).
        rewrite (IH rounds fuel maxIterations (t +% 1)
                   (mkloop s rng adj cur) out Ht' Hn' Hmax ltac:(lia)).
        split.
        -- intros [Hl | (k & Hk & Hc)]; [left; exact Hl|].
           right. exists (S k). split; [lia|]. apply converges_after_S.
           exists s, rng, adj, cur. auto.
        -- intros [Hl | (k & Hk & Hc)]; [left; exact Hl|].
           destruct k as [|k].
           ++ apply converges_after_0 in Hc.
              destruct Hc as (s' & rng' & adj' & cur' & Hr' & Hlt & _).
              rewrite Hround in Hr'. injection Hr' as <- <- <- <-.
              congruence.
           ++ apply converges_after_S in Hc.
              destruct Hc as (s' & rng' & adj' & cur' & Hr' & _ & Hc).
              rewrite Hround in Hr'. injection Hr' as <- <- <- <-.
              right. exists k. split; [lia | exact Hc].
    + split; [discriminate|].
      intros [(y & Hy & _) | (k & Hk & Hc)]; [discriminate|].
      destruct k as [|k].
      * apply converges_after_0 in Hc.
        destruct Hc as (s' & rng' & adj' & cur' & Hr' & _).
        rewrite Hround in Hr'. discriminate.
      * apply converges_after_S in Hc.
        destruct Hc as (s' & rng' & adj' & cur' & Hr' & _).
        rewrite Hround in Hr'. discriminate.
Qed.

(** What a pass is: the dictionary step on the adjacencies of the previous
    coding step, then the coding step, then the adjacencies found in the
    new codes and the objective of the new object. *)
Lemma Encode_round_spec fuel adj s rng s2 rng2 adj2 cur2 :
  Encode_round stale LARS_Regress solve inv RandInt fuel adj s rng
    = Some (s2, rng2, adj2, cur2) <->
  exists s1,
    OptimizeDictionary stale solve inv RandInt fuel adj s rng
      = Some (s1, rng2) /\
    s2 = OptimizeCode LARS_Regress s1 /\
    adj2 = find (codes (OptimizeCode LARS_Regress s1)) /\
    cur2 = Objective (OptimizeCode LARS_Regress s1).
Proof.
  unfold Encode_round. split.
  - destruct (OptimizeDictionary _ _ _ _ _ _ _ _) as [[s1 rng1]|];
      [|discriminate].
    cbn [bind]. intros H. injection H as <- <- <- <-.
    exists s1. auto.
  - intros (s1 & H1 & -> & -> & ->). rewrite H1. reflexivity.
Qed.

(** C3.  For a positive [maxIterations], [Encode] takes the initial coding
    step and enters its loop with the adjacencies found in the codes of
    that step and [DBL_MAX] as last objective value.  It returns [out]
    exactly in two cases: all [maxIterations - 1] passes ran and none met
    the convergence test, or some [k < maxIterations - 1] passes ran
    without meeting it and pass [k + 1] met it (the improvement, last
    objective value minus the new one, compares below [OBJ_TOL = 1e-2]),
    at which pass the loop was left; so it makes at most
    [maxIterations - 1] passes, and fewer only after a pass whose
    improvement is below the tolerance.  A pass is the dictionary step on
    the current adjacencies followed by the coding step; the adjacencies
    it hands on are those found in the codes of that coding step, and the
    value it compares is the objective of the object after that coding
    step. *)
Theorem Encode_rounds (rounds fuel : nat) (maxIterations : Z)
    (s : SparseCoding F) (rng : nat) (out : SparseCoding F * nat) :
  1 <= maxIterations < SizeT.modulus ->
  (Z.to_nat (maxIterations - 1) <= rounds)%nat ->
  let coded := OptimizeCode LARS_Regress s in
  let entry := mkloop coded rng (find (codes coded)) DBL_MAX in
  (Encode stale LARS_Regress solve inv RandInt rounds fuel maxIterations s rng
     = Some out <->
   (exists y,
      passes_of fuel (Z.to_nat (maxIterations - 1)) entry = Some y /\
      out = (ls_obj y, ls_rng y)) \/
   (exists k,
      (k < Z.to_nat (maxIterations - 1))%nat /\
      converges_of fuel k entry out)) /\
  (forall x s2 rng2 adj2 cur2,
     round_of fuel x = Some (s2, rng2, adj2, cur2) <->
     exists s1,
       OptimizeDictionary stale solve inv RandInt fuel
         (ls_adj x) (ls_obj x) (ls_rng x) = Some (s1, rng2) /\
       s2 = OptimizeCode LARS_Regress s1 /\
       adj2 = find (codes (OptimizeCode LARS_Regress s1)) /\
       cur2 = Objective (OptimizeCode LARS_Regress s1)).
Proof.
  intros Hmax Hrounds coded entry. split.
  - unfold Encode.
    apply (Encode_loop_spec (Z.to_nat (maxIterations - 1)) rounds fuel
             maxIterations 1 entry out).
    + unfold SizeT.inrange. lia.
    + lia.
    + lia.
    + exact Hrounds.
  - intros x s2 rng2 adj2 cur2. apply Encode_round_spec.
Qed.

(** C10 (corrected).  With [maxIterations = 0] the guard
    [t != maxIterations] lets the loop go on as long as the counter has
    not wrapped around: after any [k < 2^64 - 1] passes that did not meet
    the convergence test the counter is [k + 1], not 0, the loop starts
    pass [k + 1] (a budget of [k] passes is not enough), so the number of
    passes is not bounded by [maxIterations] and until then only the
    tolerance test ends the loop.  After [2^64 - 1] passes that did not
    meet the test the counter is back to 0 and the guard ends the loop. *)
Theorem Encode_zero_iterations (fuel : nat) (s : SparseCoding F)
    (rng : nat) :
  (forall k y,
     Z.of_nat k < SizeT.modulus - 1 ->
     passes_of fuel k (loop_entry LARS_Regress s rng) = Some y ->
     1 + Z.of_nat k <> 0 /\
     (forall rounds,
        Encode stale LARS_Regress solve inv RandInt (k + rounds) fuel 0 s rng
        = loop_from rounds fuel 0 (1 + Z.of_nat k) y) /\
     Encode stale LARS_Regress solve inv RandInt k fuel 0 s rng = None) /\
  (forall k y rounds,
     Z.of_nat k = SizeT.modulus - 1 ->
     passes_of fuel k (loop_entry LARS_Regress s rng) = Some y ->
     Encode stale LARS_Regress solve inv RandInt (k + rounds) fuel 0 s rng
     = Some (ls_obj y, ls_rng y)).
Proof.
  assert (Hgo : forall k y rounds,
            Z.of_nat k <= SizeT.modulus - 1 ->
            passes_of fuel k (loop_entry LARS_Regress s rng) = Some y ->
            Encode stale LARS_Regress solve inv RandInt (k + rounds) fuel 0
              s rng
            = loop_from rounds fuel 0 (SizeT.wrap (1 + Z.of_nat k)) y).
  { intros k y rounds Hk Hp. unfold Encode.
    apply (Encode_loop_passes k rounds fuel 0 1
             (loop_entry LARS_Regress s rng) y Hp).
    - intros i Hi. rewrite wrap_small by (unfold SizeT.inrange; lia). lia.
    - unfold SizeT.inrange, SizeT.modulus. lia. }
  split.
  - intros k y Hk Hp. split; [lia|].
    assert (Hw : SizeT.wrap (1 + Z.of_nat k) = 1 + Z.of_nat k)
      by (apply wrap_small; unfold SizeT.inrange; lia).
    split.
    + intros rounds. rewrite (Hgo k y rounds) by (auto; lia). now rewrite Hw.
    + replace k with (k + 0)%nat at 1 by lia.
      rewrite (Hgo k y 0%nat) by (auto; lia). rewrite Hw.
      apply Encode_loop_starved. lia.
  - intros k y rounds Hk Hp. rewrite (Hgo k y rounds) by (auto; lia).
    replace (SizeT.wrap (1 + Z.of_nat k)) with 0.
    + apply Encode_loop_done.
    + unfold SizeT.wrap. rewrite Hk.
      replace (1 + (SizeT.modulus - 1)) with SizeT.modulus by lia.
      symmetry. apply Z.mod_same. unfold SizeT.modulus. lia.
Qed.

(** The run of [Encode] with [maxIterations = 0] after [2^64 - 1] passes
    that did not meet the test. *)
Lemma Encode_zero_wraps fuel (s : SparseCoding F) rng k y rounds :
  Z.of_nat k = SizeT.modulus - 1 ->
  passes_of fuel k (loop_entry LARS_Regress s rng) = Some y ->
  Encode stale LARS_Regress solve inv RandInt (k + rounds) fuel 0 s rng
  = Some (ls_obj y, ls_rng y).
Proof.
  intros Hk Hp. unfold Encode.
  etransitivity.
  - apply (Encode_loop_passes k rounds fuel 0 1
             (loop_entry LARS_Regress s rng) y Hp).
    + intros i Hi. rewrite wrap_small by (unfold SizeT.inrange; lia). lia.
    + unfold SizeT.inrange, SizeT.modulus. lia.
  - replace (SizeT.wrap (1 + Z.of_nat k)) with 0.
    + apply Encode_loop_done.
    + unfold SizeT.wrap. rewrite Hk.
      replace (1 + (SizeT.modulus - 1)) with SizeT.modulus by lia.
      symmetry. apply Z.mod_same. unfold SizeT.modulus. lia.
Qed.

End EncodeCorrect.

Section EncodeExact.

Variable stale : Z -> Z -> R.
Variable LARS_Regress : mat R -> R -> R -> mat R -> mat R -> mat R.
Variable solve : mat R -> mat R -> option (mat R).
Variable inv : mat R -> option (mat R).
Variable RandInt : nat -> Z -> Z.

Local Notation "'round_of' fuel x" :=
  (Encode_round stale LARS_Regress solve inv RandInt fuel
     (ls_adj x) (ls_obj x) (ls_rng x))
  (at level 10, fuel at level 9, x at level 9).

Local Notation "'loop_from' rounds fuel maxIterations t x" :=
  (Encode_loop stale LARS_Regress solve inv RandInt rounds fuel
     maxIterations t (ls_last x) (ls_adj x) (ls_obj x) (ls_rng x))
  (at level 10, rounds at level 9, fuel at level 9, maxIterations at level 9,
   t at level 9, x at level 9).

Local Notation "'passes_of' fuel k x" :=
  (passes stale LARS_Regress solve inv RandInt fuel k x)
  (at level 10, fuel at level 9, k at level 9, x at level 9).


End EncodeExact.

(** ** The dictionary step *)

Lemma nth_error_upto n k j :
  nth_error (upto n) k = Some j -> j = Z.of_nat k.
Proof.
  intros H. pose proof (nth_error_nth _ _ 0 H) as Hn.
  assert (Hk : (k < length (upto n))%nat)
    by (apply nth_error_Some; congruence).
  unfold upto in *. rewrite length_zseq in Hk.
  rewrite nth_zseq in Hn by exact Hk. lia.
Qed.

Section Atoms.

Context {F : Type} {arith : Arith F}.

Lemma inactive_atoms_filter (s : SparseCoding F) :
  inactive_atoms s
  = filter (fun j => row_nnz (codes s) j =? 0) (upto (atoms s)).
Proof. unfold inactive_atoms. now rewrite partition_as_filter. Qed.

Lemma active_atoms_filter (s : SparseCoding F) :
  active_atoms s
  = filter (fun j => negb (row_nnz (codes s) j =? 0)) (upto (atoms s)).
Proof. unfold active_atoms. now rewrite partition_as_filter. Qed.

Lemma row_nnz_zero (A : mat F) j :
  row_nnz A j = 0 <->
  forall c, 0 <= c < n_cols A -> nonzero (elem A j c) = false.
Proof.
  unfold row_nnz, n_elem. split.
  - intros H c Hc.
    destruct (nonzero (elem A j c)) eqn:E; [|reflexivity].
    assert (Hin : In c (filter (fun c => nonzero (elem A j c))
                          (upto (n_cols A))))
      by (apply filter_In; split; [now apply in_upto | exact E]).
    destruct (filter _ _); [contradiction | cbn [length] in H; lia].
  - intros H.
    assert (Hnil : forall l, (forall c, In c l -> 0 <= c < n_cols A) ->
              filter (fun c => nonzero (elem A j c)) l = []).
    { induction l as [|c l IH]; intros Hl; [reflexivity|]. cbn [filter].
      rewrite H by (apply Hl; now left).
      apply IH. intros c' Hc'. apply Hl. now right. }
    rewrite Hnil; [reflexivity|]. intros c Hc. now apply in_upto.
Qed.

(** An atom is inactive exactly when no entry of its row of the code
    matrix compares different from zero. *)
Lemma inactive_atoms_spec (s : SparseCoding F) j :
  In j (inactive_atoms s) <->
  0 <= j < atoms s /\
  forall c, 0 <= c < n_cols (codes s) -> nonzero (elem (codes s) j c) = false.
Proof.
  rewrite inactive_atoms_filter, filter_In, in_upto, Z.eqb_eq, row_nnz_zero.
  reflexivity.
Qed.

Lemma active_atoms_spec (s : SparseCoding F) j :
  In j (active_atoms s) <->
  0 <= j < atoms s /\
  ~ forall c, 0 <= c < n_cols (codes s) ->
      nonzero (elem (codes s) j c) = false.
Proof.
  rewrite active_atoms_filter, filter_In, in_upto, negb_true_iff, Z.eqb_neq,
    row_nnz_zero.
  reflexivity.
Qed.

Lemma NoDup_inactive (s : SparseCoding F) : NoDup (inactive_atoms s).
Proof. rewrite inactive_atoms_filter. apply NoDup_filter, NoDup_zseq. Qed.

Lemma NoDup_active (s : SparseCoding F) : NoDup (active_atoms s).
Proof. rewrite active_atoms_filter. apply NoDup_filter, NoDup_zseq. Qed.

Lemma active_not_inactive (s : SparseCoding F) j :
  In j (active_atoms s) -> ~ In j (inactive_atoms s).
Proof.
  rewrite active_atoms_spec, inactive_atoms_spec. intros [_ Hn] [_ Hz]. auto.
Qed.

(** The loop that sorts the atoms: it fills the two vectors in ascending
    order when every atom is a row of the code matrix, and the bounds
    check of [codes.row(j)] throws otherwise. *)
Lemma classify_atoms_in (Z : mat F) l : forall ia aa,
  (forall j, In j l -> 0 <= j < n_rows Z) ->
  classify_atoms Z l ia aa
  = Some (ia ++ filter (fun j => row_nnz Z j =? 0) l,
          aa ++ filter (fun j => negb (row_nnz Z j =? 0)) l).
Proof.
  induction l as [|a l IH]; intros ia aa Hin; cbn [classify_atoms filter].
  - now rewrite !app_nil_r.
  - unfold get_row_nnz. rewrite in_range_true by (apply Hin; now left).
    cbn [bind].
    destruct (row_nnz Z a =? 0); cbn [negb];
      rewrite IH by (intros j Hj; apply Hin; now right);
      rewrite <- ?app_assoc; reflexivity.
Qed.

Lemma classify_atoms_out (Z : mat F) l : forall ia aa j,
  In j l -> ~ 0 <= j < n_rows Z -> classify_atoms Z l ia aa = None.
Proof.
  induction l as [|a l IH]; intros ia aa j Hin Hj; [contradiction|].
  cbn [classify_atoms]. unfold get_row_nnz.
  assert (Ha : 0 <= a < n_rows Z \/ ~ 0 <= a < n_rows Z) by lia.
  destruct Ha as [Ha|Ha].
  - rewrite in_range_true by exact Ha. cbn [bind].
    destruct Hin as [->|Hin]; [contradiction|].
    destruct (row_nnz Z a =? 0); apply (IH _ _ j Hin Hj).
  - rewrite in_range_false by exact Ha. reflexivity.
Qed.

Lemma classify_atoms_ok (s : SparseCoding F) :
  atoms s <= n_rows (codes s) ->
  classify_atoms (codes s) (upto (atoms s)) [] []
  = Some (inactive_atoms s, active_atoms s).
Proof.
  intros Hle. rewrite classify_atoms_in.
  - now rewrite inactive_atoms_filter, active_atoms_filter.
  - intros j Hj. apply in_upto in Hj. lia.
Qed.

Lemma classify_atoms_Some (s : SparseCoding F) r :
  classify_atoms (codes s) (upto (atoms s)) [] [] = Some r ->
  r = (inactive_atoms s, active_atoms s) /\
  forall j, 0 <= j < atoms s -> 0 <= j < n_rows (codes s).
Proof.
  intros H.
  assert (Hin : forall j, In j (upto (atoms s)) ->
                  0 <= j < n_rows (codes s)).
  { intros j Hj.
    assert (Hd : 0 <= j < n_rows (codes s) \/ ~ 0 <= j < n_rows (codes s))
      by lia.
    destruct Hd as [Hd|Hd]; [exact Hd|].
    rewrite (classify_atoms_out _ _ _ _ j Hj Hd) in H. discriminate. }
  rewrite classify_atoms_in in H by exact Hin.
  injection H as <-. split.
  - now rewrite inactive_atoms_filter, active_atoms_filter.
  - intros j Hj. apply Hin. now apply in_upto.
Qed.

Lemma get_col_Some (A : mat F) j c :
  get_col A j = Some c -> 0 <= j < n_cols A /\ c = col A j.
Proof.
  unfold get_col. destruct (Z.leb_spec 0 j); destruct (Z.ltb_spec j (n_cols A));
    cbn [andb]; intros Heq; try discriminate.
  injection Heq as <-. split; [lia | reflexivity].
Qed.

Lemma assign_col_Some (A : mat F) j v B :
  assign_col A j v = Some B ->
  0 <= j < n_cols A /\ n_rows v = n_rows A /\ B = set_col A j v.
Proof.
  unfold assign_col.
  destruct (Z.leb_spec 0 j); destruct (Z.ltb_spec j (n_cols A));
    destruct (Z.eqb_spec (n_rows v) (n_rows A));
    cbn [andb]; intros Heq; try discriminate.
  injection Heq as <-. repeat split; auto; lia.
Qed.

Lemma copy_active_spec l : forall i (src est est' : mat F),
  copy_active l i src est = Some est' -> NoDup l ->
  n_rows est' = n_rows est /\ n_cols est' = n_cols est /\
  (forall k a, nth_error l k = Some a ->
     forall r, elem est' r a = elem src r (i + Z.of_nat k)) /\
  (forall a, ~ In a l -> forall r, elem est' r a = elem est r a).
Proof.
  induction l as [|a l IH]; intros i src est est' H Hnd.
  - cbn [copy_active] in H. injection H as <-.
    repeat split; auto. intros k a Hk. destruct k; discriminate.
  - cbn [copy_active] in H.
    destruct (get_col src i) as [c|] eqn:Hc; [|discriminate]. cbn [bind] in H.
    destruct (assign_col est a c) as [est1|] eqn:Ha; [|discriminate].
    cbn [bind] in H.
    apply get_col_Some in Hc. destruct Hc as [Hi ->].
    apply assign_col_Some in Ha. destruct Ha as [Haj [Hrows ->]].
    inversion Hnd as [|? ? Hnotin Hnd']; subst.
    destruct (IH _ _ _ _ H Hnd') as (Hr & Hcn & Hact & Hother).
    cbn [set_col n_rows n_cols] in Hr, Hcn.
    split; [exact Hr|]. split; [exact Hcn|]. split.
    + intros k b Hk r. destruct k as [|k].
      * cbn [nth_error] in Hk. injection Hk as <-.
        rewrite (Hother a Hnotin). cbn [set_col elem col].
        rewrite Z.eqb_refl. f_equal. lia.
      * cbn [nth_error] in Hk. rewrite (Hact k b Hk). f_equal. lia.
    + intros b Hb r. rewrite Hother by (intros Hin; apply Hb; now right).
      cbn [set_col elem].
      destruct (Z.eqb_spec b a) as [->|]; [|reflexivity].
      exfalso. apply Hb. now left.
Qed.

(** The norm that the step computes of a column it has just assigned is
    the norm of the assigned vector. *)
Lemma norm_fro_assigned (est v : mat F) a :
  n_cols v = 1 -> n_rows v = n_rows est ->
  norm_fro (col (set_col est a v) a) = norm_fro v.
Proof.
  intros Hc Hr. unfold norm_fro, accu.
  cbn [square col set_col n_cols n_rows elem].
  rewrite Hc, Hr. f_equal. apply sum_upto_ext. intros j Hj.
  replace j with 0 by lia. apply sum_upto_ext. intros i _.
  now rewrite Z.eqb_refl.
Qed.

Section ReinitCorrect.

Variable RandInt : nat -> Z -> Z.
Variable X : mat F.

Lemma reinit_inactive_spec l : forall est rng est' rng',
  reinit_inactive RandInt X l est rng = Some (est', rng') -> NoDup l ->
  rng' = (rng + 3 * length l)%nat /\
  n_rows est' = n_rows est /\ n_cols est' = n_cols est /\
  (forall a, ~ In a l -> forall r, elem est' r a = elem est r a) /\
  (forall k a, nth_error l k = Some a ->
     let r1 := RandInt (rng + 3 * k) (n_cols X) in
     let r2 := RandInt (rng + 3 * k + 1) (n_cols X) in
     let r3 := RandInt (rng + 3 * k + 2) (n_cols X) in
     let v := drawn_sum X r1 r2 r3 in
     0 <= r1 < n_cols X /\ 0 <= r2 < n_cols X /\ 0 <= r3 < n_cols X /\
     forall r, elem est' r a = (elem v r 0 / norm_fro v)%d).
Proof.
  induction l as [|a l IH]; intros est rng est' rng' H Hnd.
  - cbn [reinit_inactive] in H. injection H as <- <-. cbn [length].
    split; [lia|]. repeat split; auto. all: destruct k; discriminate.
  - cbn [reinit_inactive] in H.
    destruct (get_col X (RandInt rng (n_cols X))) as [c1|] eqn:H1;
      [|discriminate]; cbn [bind] in H.
    destruct (get_col X (RandInt (S rng) (n_cols X))) as [c2|] eqn:H2;
      [|discriminate]; cbn [bind] in H.
    destruct (get_col X (RandInt (S (S rng)) (n_cols X))) as [c3|] eqn:H3;
      [|discriminate]; cbn [bind] in H.
    destruct (assign_col est a (madd (madd c1 c2) c3)) as [e1|] eqn:Ha;
      [|discriminate]; cbn [bind] in H.
    destruct (get_col e1 a) as [c|] eqn:Hc; [|discriminate]; cbn [bind] in H.
    destruct (assign_col e1 a (mdiv c (norm_fro c))) as [e2|] eqn:Hb;
      [|discriminate]; cbn [bind] in H.
    apply get_col_Some in H1, H2, H3, Hc.
    destruct H1 as [Hr1 ->]. destruct H2 as [Hr2 ->]. destruct H3 as [Hr3 ->].
    destruct Hc as [_ ->].
    apply assign_col_Some in Ha, Hb.
    destruct Ha as (Haj & Hrows & ->). destruct Hb as (_ & _ & ->).
    fold (drawn_sum X (RandInt rng (n_cols X)) (RandInt (S rng) (n_cols X))
            (RandInt (S (S rng)) (n_cols X))) in *.
    set (v := drawn_sum X (RandInt rng (n_cols X))
                (RandInt (S rng) (n_cols X))
                (RandInt (S (S rng)) (n_cols X))) in *.
    inversion Hnd as [|? ? Hnotin Hnd']; subst.
    destruct (IH _ _ _ _ H Hnd') as (Hrng & Hr & Hcn & Hother & Hin).
    cbn [set_col n_rows n_cols] in Hr, Hcn.
    assert (Hnorm : norm_fro (col (set_col est a v) a) = norm_fro v)
      by (apply norm_fro_assigned; [reflexivity | exact Hrows]).
    assert (Helem : forall r, elem est' r a = (elem v r 0 / norm_fro v)%d).
    { intros r. rewrite (Hother a Hnotin). cbn [set_col elem mdiv col].
      rewrite !Z.eqb_refl. rewrite <- Hnorm. reflexivity. }
    split; [cbn [length]; lia|]. split; [exact Hr|]. split; [exact Hcn|].
    split.
    + intros b Hb r. rewrite Hother by (intros Hi; apply Hb; now right).
      cbn [set_col elem].
      destruct (Z.eqb_spec b a) as [->|]; [|reflexivity].
      exfalso. apply Hb. now left.
    + intros k b Hk. destruct k as [|k].
      * cbn [nth_error] in Hk. injection Hk as <-.
        replace (rng + 3 * 0)%nat with rng by lia.
        replace (rng + 1)%nat with (S rng) by lia.
        replace (rng + 2)%nat with (S (S rng)) by lia.
        cbv zeta. fold v.
        split; [exact Hr1|]. split; [exact Hr2|]. split; [exact Hr3|].
        exact Helem.
      * cbn [nth_error] in Hk.
        specialize (Hin k b Hk). cbv zeta in Hin |- *.
        replace (rng + 3 * S k)%nat with (S (S (S rng)) + 3 * k)%nat by lia.
        exact Hin.
Qed.

End ReinitCorrect.

End Atoms.

(** In exact arithmetic an entry that does not compare different from zero
    is zero. *)
Lemma inactive_atoms_zero (s : SparseCoding R) j :
  In j (inactive_atoms s) <->
  0 <= j < atoms s /\
  forall c, 0 <= c < n_cols (codes s) -> elem (codes s) j c = 0%R.
Proof.
  rewrite inactive_atoms_spec. split; intros [Hj H]; (split; [exact Hj|]);
    intros c Hc; apply nonzero_false, H, Hc.
Qed.

Section DictionaryStepCorrect.

Context {F : Type} {arith : Arith F}.

Variable stale : Z -> Z -> F.
Variable solve : mat F -> mat F -> option (mat F).
Variable inv : mat F -> option (mat F).
Variable RandInt : nat -> Z -> Z.

(** More fuel does not change what a loop returns. *)
Lemma armijo_more_fuel f : forall f' XT ZT M u d sd alpha r,
  armijo solve f XT ZT M u d sd alpha = Some r -> (f <= f')%nat ->
  armijo solve f' XT ZT M u d sd alpha = Some r.
Proof.
  induction f as [|f IH]; intros f' XT ZT M u d sd alpha r H Hle;
    [discriminate|].
  destruct f' as [|f']; [lia|]. cbn [armijo] in *.
  destruct (solve _ XT) as [M'|]; [|discriminate]. cbn [bind] in *.
  destruct (dleb _ _); [exact H|].
  apply IH; [exact H | lia].
Qed.

Lemma newton_more_fuel n : forall f f' n' XT ZT k u r,
  newton solve inv f n XT ZT k u = Some r -> (f <= f')%nat -> (n <= n')%nat ->
  newton solve inv f' n' XT ZT k u = Some r.
Proof.
  induction n as [|n IH]; intros f f' n' XT ZT k u r H Hf Hn; [discriminate|].
  destruct n' as [|n']; [lia|]. cbn [newton] in *.
  destruct (solve _ XT) as [M|]; [|discriminate]. cbn [bind] in *.
  destruct (inv _) as [iA|]; [|discriminate]. cbn [bind] in *.
  destruct (solve _ _) as [d|]; [|discriminate]. cbn [bind] in *.
  destruct (armijo solve f _ _ _ _ _ _ _) as [[sd imp]|] eqn:Ha;
    [|discriminate].
  rewrite (armijo_more_fuel _ _ _ _ _ _ _ _ _ _ Ha Hf). cbn [bind] in *.
  destruct (dltb imp NEWTON_TOL); [exact H|].
  apply (IH f); [exact H | exact Hf | lia].
Qed.

Lemma OptimizeDictionary_split fuel adj s rng :
  OptimizeDictionary stale solve inv RandInt fuel adj s rng
  = _ <- count_neighbors adj (atoms s) (n_cols (data s)) ;;
    dictionary_update stale solve inv RandInt fuel s rng.
Proof.
  unfold OptimizeDictionary, dictionary_update, update_atoms.
  destruct (count_neighbors _ _ _); [|reflexivity]. cbn [bind].
  destruct (classify_atoms _ _ _ _) as [[ia aa]|] eqn:Hc; [|reflexivity].
  apply classify_atoms_Some in Hc. destruct Hc as [Hc _].
  injection Hc as -> ->. cbn [bind].
  destruct (inactive_atoms s) eqn:Hin.
  - cbn [bind]. destruct (newton _ _ _ _ _ _ _ _); reflexivity.
  - destruct (RemoveRows _ _ _); [|reflexivity]. cbn [bind].
    destruct (newton _ _ _ _ _ _ _ _); reflexivity.
Qed.

(** The bounds check of the rows, apart from the rest of the step. *)
Lemma dictionary_update_Some fuel s rng r :
  dictionary_update stale solve inv RandInt fuel s rng = Some r ->
  update_atoms stale solve inv RandInt fuel s rng = Some r.
Proof.
  unfold dictionary_update.
  destruct (classify_atoms _ _ _ _); [|discriminate]. auto.
Qed.

Lemma dictionary_update_checked fuel s rng :
  atoms s <= n_rows (codes s) ->
  dictionary_update stale solve inv RandInt fuel s rng
  = update_atoms stale solve inv RandInt fuel s rng.
Proof.
  intros Hle. unfold dictionary_update.
  now rewrite classify_atoms_ok by exact Hle.
Qed.

Lemma dictionary_update_None fuel s rng :
  update_atoms stale solve inv RandInt fuel s rng = None ->
  dictionary_update stale solve inv RandInt fuel s rng = None.
Proof.
  unfold dictionary_update. intros H.
  destruct (classify_atoms _ _ _ _); [exact H | reflexivity].
Qed.

Lemma update_atoms_more_fuel fuel fuel' s rng r :
  update_atoms stale solve inv RandInt fuel s rng = Some r ->
  (fuel <= fuel')%nat ->
  update_atoms stale solve inv RandInt fuel' s rng = Some r.
Proof.
  unfold update_atoms. intros H Hle.
  destruct (match inactive_atoms s with [] => _ | _ => _ end) as [Zact|];
    [|discriminate].
  cbn [bind] in *.
  destruct (newton solve inv fuel fuel _ _ _ _) as [u|] eqn:Hn;
    [|discriminate].
  rewrite (newton_more_fuel _ _ _ _ _ _ _ _ _ Hn Hle Hle). exact H.
Qed.

Lemma dictionary_update_more_fuel fuel fuel' s rng r :
  dictionary_update stale solve inv RandInt fuel s rng = Some r ->
  (fuel <= fuel')%nat ->
  dictionary_update stale solve inv RandInt fuel' s rng = Some r.
Proof.
  unfold dictionary_update. intros H Hle.
  destruct (classify_atoms _ _ _ _); [|discriminate]. cbn [bind] in *.
  now apply (update_atoms_more_fuel fuel).
Qed.


(** The columns of the dictionary the step returns. *)
Lemma OptimizeDictionary_columns (fuel : nat) (adj : uvec)
    (s : SparseCoding F) (rng : nat) (s' : SparseCoding F) (rng' : nat) :
  OptimizeDictionary stale solve inv RandInt fuel adj s rng
    = Some (s', rng') ->
  (forall k j, nth_error (inactive_atoms s) k = Some j ->
     let r1 := RandInt (rng + 3 * k) (n_cols (data s)) in
     let r2 := RandInt (rng + 3 * k + 1) (n_cols (data s)) in
     let r3 := RandInt (rng + 3 * k + 2) (n_cols (data s)) in
     let v := drawn_sum (data s) r1 r2 r3 in
     0 <= r1 < n_cols (data s) /\ 0 <= r2 < n_cols (data s) /\
     0 <= r3 < n_cols (data s) /\
     forall i, elem (dictionary s') i j = (elem v i 0 / norm_fro v)%d) /\
  (exists Zact dualVars M,
     (match inactive_atoms s with
      | [] => Some (codes s)
      | _ => RemoveRows stale (codes s) (inactive_atoms s)
      end) = Some Zact /\
     newton solve inv fuel fuel (mmul Zact (trans (data s)))
       (mmul Zact (trans Zact)) (n_elem (active_atoms s))
       (zeros (n_elem (active_atoms s)) 1) = Some dualVars /\
     solve (madd (mmul Zact (trans Zact)) (diagmat dualVars))
       (mmul Zact (trans (data s))) = Some M /\
     forall k j, nth_error (active_atoms s) k = Some j ->
       forall i, elem (dictionary s') i j = elem (trans M) i (Z.of_nat k)).
Proof.
  rewrite OptimizeDictionary_split. intros H.
  destruct (count_neighbors adj _ _) as [counts|]; [|discriminate].
  cbn [bind] in H. apply dictionary_update_Some in H.
  unfold update_atoms in H.
  destruct (match inactive_atoms s with [] => _ | _ => _ end) as [Zact|]
    eqn:HZ; [|discriminate].
  cbn [bind] in H.
  destruct (newton _ _ _ _ _ _ _ _) as [dv|] eqn:Hdv; [|discriminate].
  cbn [bind] in H.
  destruct (solve _ _) as [M|] eqn:HM; [|discriminate]. cbn [bind] in H.
  destruct (inactive_atoms s) as [|a0 rest] eqn:Hin.
  - (* every atom is active *)
    injection H as <- <-. split.
    + intros k j Hk. destruct k; discriminate.
    + exists Zact, dv, M. repeat split; auto.
      intros k j Hk i. cbn [dictionary with_dictionary].
      rewrite active_atoms_filter in Hk.
      rewrite filter_all in Hk.
      * now rewrite (nth_error_upto _ _ _ Hk).
      * intros x Hx. apply negb_true_iff.
        destruct (row_nnz (codes s) x =? 0) eqn:E; [|reflexivity].
        assert (Hxi : In x (inactive_atoms s))
          by (rewrite inactive_atoms_filter; apply filter_In; auto).
        rewrite Hin in Hxi. contradiction.
  - (* some atoms are inactive *)
    rewrite <- Hin in *.
    destruct (copy_active _ _ _ _) as [est|] eqn:Hcopy; [|discriminate].
    cbn [bind] in H.
    destruct (reinit_inactive _ _ _ _ _) as [[est1 rng1]|] eqn:Hre;
      [|discriminate].
    cbn [bind] in H. injection H as <- <-.
    cbn [dictionary with_dictionary].
    destruct (copy_active_spec _ _ _ _ _ Hcopy (NoDup_active s))
      as (_ & _ & Hact & _).
    destruct (reinit_inactive_spec _ _ _ _ _ _ _ Hre (NoDup_inactive s))
      as (_ & _ & _ & Hother & Hina).
    split; [exact Hina|].
    exists Zact, dv, M. repeat split; auto.
    intros k j Hk i.
    rewrite Hother by (apply active_not_inactive; eapply nth_error_In; eauto).
    now rewrite (Hact k j Hk).
Qed.

(** The step makes three draws for each inactive atom. *)
Lemma OptimizeDictionary_draws (fuel : nat) (adj : uvec)
    (s : SparseCoding F) (rng : nat) (s' : SparseCoding F) (rng' : nat) :
  OptimizeDictionary stale solve inv RandInt fuel adj s rng
    = Some (s', rng') ->
  rng' = (rng + 3 * length (inactive_atoms s))%nat.
Proof.
  rewrite OptimizeDictionary_split. intros H.
  destruct (count_neighbors adj _ _) as [counts|]; [|discriminate].
  cbn [bind] in H. apply dictionary_update_Some in H.
  unfold update_atoms in H.
  destruct (match inactive_atoms s with [] => _ | _ => _ end) as [Zact|];
    [|discriminate].
  cbn [bind] in H.
  destruct (newton _ _ _ _ _ _ _ _) as [dv|]; [|discriminate].
  cbn [bind] in H.
  destruct (solve _ _) as [M|]; [|discriminate]. cbn [bind] in H.
  destruct (inactive_atoms s) as [|a0 rest] eqn:Hin.
  - injection H as _ <-. cbn [length]. lia.
  - rewrite <- Hin in *.
    destruct (copy_active _ _ _ _) as [est|]; [|discriminate].
    cbn [bind] in H.
    destruct (reinit_inactive _ _ _ _ _) as [[est1 rng1]|] eqn:Hre;
      [|discriminate].
    cbn [bind] in H. injection H as _ <-.
    apply (reinit_inactive_spec _ _ _ _ _ _ _ Hre (NoDup_inactive s)).
Qed.

(** C8 (what the code does).  When [OptimizeDictionary] returns, the
    column of every inactive atom, that is of every atom whose row of the
    code matrix is zero (the [k]-th of them, say), is the sum [v] of the
    three data columns drawn by the calls [3k], [3k+1] and [3k+2] that the
    step makes to the generator, each index within the data, with every
    entry divided by the computed norm of [v]: the division is not
    guarded, and nothing more is known of the norm of the result.  The
    column of every active atom (the [k]-th of them) is column [k] of
    the transpose of the matrix [M] that [solve] returned for
    [(Zact * Zact^T + diag(dualVars)) M = Zact * X^T], with [Zact] the
    code rows of the active atoms and [dualVars] the result of the dual
    optimisation; the step makes three draws for each inactive atom and
    no other. *)
Theorem OptimizeDictionary_atoms (fuel : nat) (adj : uvec)
    (s : SparseCoding F) (rng : nat) (s' : SparseCoding F) (rng' : nat) :
  OptimizeDictionary stale solve inv RandInt fuel adj s rng
    = Some (s', rng') ->
  (forall j, In j (inactive_atoms s) <->
     0 <= j < atoms s /\
     forall c, 0 <= c < n_cols (codes s) ->
       nonzero (elem (codes s) j c) = false) /\
  (forall k j, nth_error (inactive_atoms s) k = Some j ->
     let r1 := RandInt (rng + 3 * k) (n_cols (data s)) in
     let r2 := RandInt (rng + 3 * k + 1) (n_cols (data s)) in
     let r3 := RandInt (rng + 3 * k + 2) (n_cols (data s)) in
     let v := drawn_sum (data s) r1 r2 r3 in
     0 <= r1 < n_cols (data s) /\ 0 <= r2 < n_cols (data s) /\
     0 <= r3 < n_cols (data s) /\
     forall i, elem (dictionary s') i j = (elem v i 0 / norm_fro v)%d) /\
  rng' = (rng + 3 * length (inactive_atoms s))%nat /\
  (exists Zact dualVars M,
     (match inactive_atoms s with
      | [] => Some (codes s)
      | _ => RemoveRows stale (codes s) (inactive_atoms s)
      end) = Some Zact /\
     newton solve inv fuel fuel (mmul Zact (trans (data s)))
       (mmul Zact (trans Zact)) (n_elem (active_atoms s))
       (zeros (n_elem (active_atoms s)) 1) = Some dualVars /\
     solve (madd (mmul Zact (trans Zact)) (diagmat dualVars))
       (mmul Zact (trans (data s))) = Some M /\
     forall k j, nth_error (active_atoms s) k = Some j ->
       forall i, elem (dictionary s') i j = elem (trans M) i (Z.of_nat k)).
Proof.
  intros H.
  destruct (OptimizeDictionary_columns fuel adj s rng s' rng' H)
    as [Hinactive Hactive].
  split; [apply inactive_atoms_spec|]. split; [exact Hinactive|].
  split; [|exact Hactive].
  apply (OptimizeDictionary_draws fuel adj s rng s' rng' H).
Qed.

End DictionaryStepCorrect.

Lemma upto_2 : upto 2 = [0; 1]. Proof. reflexivity. Qed.

Lemma sum_upto_2 (f : Z -> R) : sum_upto 2 f = (f 0%Z + f 1%Z)%R.
Proof. unfold sum_upto. rewrite upto_2. cbn [fold_left]. real. ring. Qed.

Lemma nonzero_1 : nonzero 1%R = true.
Proof.
  unfold nonzero. real. unfold Reqb.
  destruct (Req_dec_T 1 0); [lra | reflexivity].
Qed.

Lemma nonzero_0 : nonzero 0%R = false.
Proof. now apply nonzero_false. Qed.

Ltac ev :=
  unfold trace, sum_vec, dot, accu;
  cbn [elem n_rows n_cols mmul trans madd msub mneg mscale mdiv schur square
       mabs diagmat sum_rows ones zeros col set_col bind ex_data
       atoms data codes dictionary lambda1 lambda2
       with_dictionary with_codes
       d0 d1 dadd dsub dmul ddiv dopp dabs dsqrt dpow2 dltb dleb deqb
       d_half d_minus2 d_c d_rho OBJ_TOL NEWTON_TOL DBL_MAX Arith_R].

Create Rewrite HintDb rconst.
#[local] Hint Rewrite Rplus_0_r Rplus_0_l Rmult_1_l Rmult_1_r Rmult_0_l
  Rmult_0_r Ropp_0 Rminus_0_r Rdiv_1_r Rinv_1 Rdiv_0_l Rminus_diag
  Ropp_involutive : rconst.

(** Entries and dimensions down to arithmetic on constants. *)
Ltac rc := repeat (progress (autorewrite with rconst)).

Lemma newton_stationary f n (XT ZT u0 : mat R) :
  n_rows XT = 1 -> n_cols XT = 1 -> n_rows ZT = 1 -> n_cols ZT = 1 ->
  n_rows u0 = 1 ->
  elem XT 0 0 = 1%R -> elem ZT 0 0 = 1%R -> elem u0 0 0 = 0%R ->
  exists u1,
    newton solve_diagonal inv_diagonal (S f) (S n) XT ZT 1 u0 = Some u1 /\
    n_rows u1 = 1 /\ elem u1 0 0 = 0%R.
Proof.
  intros HXr HXc HZr HZc Hur HX HZ Hu.
  cbn [newton armijo bind solve_diagonal inv_diagonal]. real.
  rewrite Rleb_true.
  - cbn [bind]. real. rewrite Rltb_true.
    + eexists. split; [reflexivity|]. ev. rewrite Hur. split; [reflexivity|].
      rewrite ?HXr, ?HXc, ?HZr, ?HZc, ?Hur, ?sum_upto_1, ?HX, ?HZ, ?Hu.
      cbn [Z.eqb]. rc. reflexivity.
    + ev. rewrite ?HXr, ?HXc, ?HZr, ?HZc, ?Hur. ev.
      change (Z.min 1 1) with 1.
      rewrite ?sum_upto_1. ev. rewrite ?sum_upto_1. ev.
      rewrite ?HX, ?HZ, ?Hu. cbn [Z.eqb]. rc. lra.
  - ev. rewrite ?HXr, ?HXc, ?HZr, ?HZc, ?Hur. ev.
    change (Z.min 1 1) with 1.
    rewrite ?sum_upto_1. ev. rewrite ?sum_upto_1. ev.
    rewrite ?HX, ?HZ, ?Hu. cbn [Z.eqb]. rc. lra.
Qed.

Lemma get_col_ok {F : Type} (A : mat F) j :
  0 <= j < n_cols A -> get_col A j = Some (col A j).
Proof.
  intros H. unfold get_col.
  replace (0 <=? j) with true by (symmetry; apply Z.leb_le; lia).
  replace (j <? n_cols A) with true by (symmetry; apply Z.ltb_lt; lia).
  reflexivity.
Qed.

Lemma assign_col_ok {F : Type} (A : mat F) j v :
  0 <= j < n_cols A -> n_rows v = n_rows A ->
  assign_col A j v = Some (set_col A j v).
Proof.
  intros H Hr. unfold assign_col.
  replace (0 <=? j) with true by (symmetry; apply Z.leb_le; lia).
  replace (j <? n_cols A) with true by (symmetry; apply Z.ltb_lt; lia).
  replace (n_rows v =? n_rows A) with true by (symmetry; apply Z.eqb_eq; lia).
  reflexivity.
Qed.

Section Example.

Variable stale : Z -> Z -> R.
Variable draws : nat -> Z -> Z.
Hypothesis draws_range : forall k, 0 <= draws k 2 < 2.

Lemma ex_inactive s : ex_shape s -> inactive_atoms s = [1].
Proof.
  intros [Ha _ _ _ _ Hc H00 H01 H10 H11].
  rewrite inactive_atoms_filter. unfold row_nnz.
  rewrite Ha, Hc, upto_2. cbn [filter].
  rewrite H00, H01, H10, H11, nonzero_1, nonzero_0. reflexivity.
Qed.

Lemma ex_active s : ex_shape s -> active_atoms s = [0].
Proof.
  intros [Ha _ _ _ _ Hc H00 H01 H10 H11].
  rewrite active_atoms_filter. unfold row_nnz.
  rewrite Ha, Hc, upto_2. cbn [filter].
  rewrite H00, H01, H10, H11, nonzero_1, nonzero_0. reflexivity.
Qed.

Lemma ex_find s : ex_shape s -> find (codes s) = [0].
Proof.
  intros [_ _ _ _ Hr Hc H00 H01 H10 H11]. unfold find.
  rewrite Hr, Hc, upto_2. cbn [flat_map].
  rewrite H00, H01, H10, H11, nonzero_1, nonzero_0. reflexivity.
Qed.

Lemma ex_active_rows s :
  ex_shape s ->
  exists Zact, RemoveRows stale (codes s) [1] = Some Zact /\
    n_rows Zact = 1 /\ n_cols Zact = 2 /\
    elem Zact 0 0 = 1%R /\ elem Zact 0 1 = 0%R.
Proof.
  intros [_ _ _ _ Hr Hc H00 H01 _ _].
  rewrite RemoveRows_nonempty.
  unfold RemoveRows_finish, assign_rows, set_size, span_ok.
  rewrite Hr, Hc. cbn [n_rows n_cols].
  change (n_elem [1]) with 1.
  change (2 -% 1) with 1. change (0 +% 1 -% 1) with 0.
  change (1 -% 1) with 0. change (0 +% 1) with 1.
  cbn [Z.ltb Z.leb Z.eqb Z.compare Z.sub Z.opp Z.add Z.pos_sub
       Pos.compare Pos.compare_cont Pos.eqb andb bind].
  rewrite RemoveRows_loop_exit by reflexivity.
  cbn [bind]. change (uvec_at [1] 0) with 1.
  cbn [Z.ltb Z.compare Pos.compare Pos.compare_cont].
  eexists. split; [reflexivity|].
  cbn [n_rows n_cols elem Z.leb Z.compare andb Z.add Z.sub Z.opp Z.pos_sub].
  auto.
Qed.

Lemma ex_update f s rng :
  ex_shape s ->
  exists est,
    dictionary_update stale solve_diagonal inv_diagonal draws (S f) s rng
    = Some (with_dictionary s est, (rng + 3)%nat) /\
    n_rows est = 1 /\ n_cols est = 2 /\ elem est 0 0 = 1%R /\
    let x := (elem ex_data 0 (draws rng 2)
              + elem ex_data 0 (draws (S rng) 2)
              + elem ex_data 0 (draws (S (S rng)) 2))%R in
    elem est 0 1 = (x / sqrt (x * x))%R.
Proof.
  intros Hs. pose proof Hs as [Ha Hd _ _ Hrows _ _ _ _ _].
  destruct (ex_active_rows s Hs) as (Zact & HZ & HZr & HZc & HZ0 & HZ1).
  rewrite dictionary_update_checked by (rewrite Ha, Hrows; lia).
  unfold update_atoms. rewrite (ex_inactive s Hs), (ex_active s Hs), HZ.
  cbn [bind]. rewrite Hd.
  set (XT := mmul Zact (trans ex_data)).
  set (ZT := mmul Zact (trans Zact)).
  change (n_elem [0]) with 1.
  destruct (newton_stationary f f XT ZT (zeros 1 1)) as (u & Hu & Hur & Hu0);
    try reflexivity; try exact HZr.
  - unfold XT. ev. rewrite HZc, sum_upto_2, HZ0, HZ1. cbn [Z.eqb]. lra.
  - unfold ZT. ev. rewrite HZc, sum_upto_2, HZ0, HZ1. lra.
  - rewrite Hu. cbn [bind solve_diagonal].
    set (M := mkmat _ _ _).
    assert (HM : elem (trans M) 0 0 = 1%R).
    { unfold M, XT, ZT. ev. rewrite HZc, !sum_upto_2, HZ0, HZ1, Hu0.
      cbn [Z.eqb]. rc. lra. }
    assert (HMr : n_rows (trans M) = 1) by reflexivity.
    assert (HMc : n_cols (trans M) = 1) by (unfold M, ZT; ev; exact HZr).
    cbn [copy_active].
    rewrite get_col_ok by (rewrite HMc; lia). cbn [bind].
    rewrite assign_col_ok
      by (cbn [n_rows n_cols col zeros ex_data]; rewrite ?Ha, ?HMr; lia).
    cbn [bind reinit_inactive].
    rewrite !get_col_ok by (cbn [n_cols ex_data]; apply draws_range).
    cbn [bind].
    rewrite assign_col_ok
      by (cbn [n_rows n_cols col zeros set_col madd ex_data]; rewrite ?Ha; lia).
    cbn [bind].
    rewrite get_col_ok by (cbn [n_rows n_cols set_col zeros]; rewrite ?Ha; lia).
    cbn [bind].
    rewrite assign_col_ok
      by (cbn [n_rows n_cols col zeros set_col mdiv]; rewrite ?Ha; lia).
    cbn [bind]. eexists. split.
    + f_equal. f_equal. lia.
    + ev. rewrite Ha. split; [reflexivity|]. split; [reflexivity|].
      cbn [Z.eqb]. split; [exact HM|].
      unfold norm_fro. ev. rewrite !sum_upto_1. cbn [Z.eqb Pos.eqb].
      reflexivity.
Qed.


Lemma Rltb_0_1 : Rltb 0 1 = true.
Proof. apply Rltb_true. lra. Qed.

Lemma Rltb_0_m2 : Rltb 0 (-2) = false.
Proof. apply Rltb_false. lra. Qed.

Lemma ex_code s :
  atoms s = 2 -> data s = ex_data ->
  lambda1 s = (1 / 10)%R -> lambda2 s = 0%R ->
  n_rows (codes s) = 2 -> n_cols (codes s) = 2 ->
  ex_shape (OptimizeCode ex_lars s) /\
  dictionary (OptimizeCode ex_lars s) = dictionary s.
Proof.
  intros Ha Hd H1 H2 Hr Hc. unfold OptimizeCode.
  rewrite Hd. cbn [n_cols ex_data]. rewrite upto_2. cbn [fold_left].
  split; [|reflexivity].
  constructor; ev; auto; unfold ex_lars; rewrite ?Hd; ev;
    cbn [Z.eqb Pos.eqb]; rewrite ?Rltb_0_1, ?Rltb_0_m2; auto.
Qed.

Lemma ex_objective s :
  ex_shape s ->
  n_rows (dictionary s) = 1 -> n_cols (dictionary s) = 2 ->
  elem (dictionary s) 0 0 = 1%R ->
  Objective s = (21 / 10)%R.
Proof.
  intros [Ha Hd H1 H2 Hr Hc H00 H01 H10 H11] HDr HDc HD.
  unfold Objective. rewrite H2. real. rewrite Rltb_false by lra.
  rewrite norm_fro_pow2. ev. rewrite Hd. ev.
  rewrite ?Hr, ?Hc, ?HDc, ?HDr.
  repeat (progress (rewrite ?sum_upto_1, ?sum_upto_2)).
  rewrite H00, H01, H10, H11, HD, H1. cbn [Z.eqb].
  rewrite ?Rabs_R0, ?Rabs_R1. lra.
Qed.

Lemma ex_round f s rng :
  ex_shape s ->
  exists s',
    Encode_round stale ex_lars solve_diagonal inv_diagonal draws (S f)
      [0] s rng
    = Some (s', (rng + 3)%nat, [0], (21 / 10)%R) /\
    ex_shape s'.
Proof.
  intros Hs. unfold Encode_round. rewrite OptimizeDictionary_split.
  pose proof Hs as [Ha Hd H1 H2 Hr Hc _ _ _ _].
  rewrite Ha. cbn [count_neighbors Z.eqb neighbor_loop bind].
  destruct (ex_update f s rng Hs) as (est & Hu & Her & Hec & He0 & _).
  rewrite Hu. cbn [bind].
  destruct (ex_code (with_dictionary s est)) as [Hs' HD]; auto.
  exists (OptimizeCode ex_lars (with_dictionary s est)).
  split; [|exact Hs'].
  rewrite (ex_find _ Hs').
  rewrite (ex_objective _ Hs'); rewrite ?HD; auto.
Qed.

End Example.

(** ** Instances on the worked example *)

Lemma draws_first_range k : 0 <= draws_first k 2 < 2.
Proof. unfold draws_first. lia. Qed.

Lemma ex_coded_shape : ex_shape ex_coded.
Proof. apply ex_code; reflexivity. Qed.

Lemma DBL_MAX_large : (OBJ_TOL <= DBL_MAX - 21 / 10)%R.
Proof.
  real.
  assert (H : (3 <= IZR ((2 ^ 53 - 1) * 2 ^ 971))%R) by (apply IZR_le; lia).
  lra.
Qed.

Lemma ex_step stale draws f adj s rng counts :
  (forall k, 0 <= draws k 2 < 2) -> ex_shape s ->
  count_neighbors adj 2 2 = Some counts ->
  exists est,
    OptimizeDictionary stale solve_diagonal inv_diagonal draws (S f) adj s rng
    = Some (with_dictionary s est, (rng + 3)%nat) /\
    n_rows est = 1 /\ n_cols est = 2 /\ elem est 0 0 = 1%R /\
    let x := (elem ex_data 0 (draws rng 2%Z)
              + elem ex_data 0 (draws (S rng) 2%Z)
              + elem ex_data 0 (draws (S (S rng)) 2%Z))%R in
    elem est 0 1 = (x / sqrt (x * x))%R.
Proof.
  intros Hd Hs Hc. rewrite OptimizeDictionary_split.
  rewrite (ex_atoms s Hs), (ex_dat s Hs). cbn [n_cols ex_data].
  rewrite Hc. cbn [bind]. now apply ex_update.
Qed.

Lemma neighbors_one : count_neighbors [0] 2 2 = Some [0; 0].
Proof. reflexivity. Qed.

(** *** The dictionary step *)

(** C8, instance in binary64: on the example, with every draw equal to
    signal 0, the step returns after three draws; the inactive atom 1 gets
    the column [3 / sqrt(3 * 3)], which is 1, and the active atom 0 the
    column of the solution. *)
Lemma OptimizeDictionary_atoms_witness :
  exists s' rng',
    OptimizeDictionary no_stale solve_diagonal inv_diagonal draws_first 1
      [0] b64_coded 0 = Some (s', rng') /\
    rng' = 3%nat /\
    nth_error (inactive_atoms b64_coded) 0 = Some 1 /\
    nth_error (active_atoms b64_coded) 0 = Some 0 /\
    elem (dictionary s') 0 1 = 1%float /\
    exists M, elem (dictionary s') 0 0 = elem (trans M) 0 0.
Proof.
  assert (Hrun : exists s',
            OptimizeDictionary no_stale solve_diagonal inv_diagonal
              draws_first 1 [0] b64_coded 0 = Some (s', 3%nat))
    by (vm_compute; eexists; reflexivity).
  destruct Hrun as [s' Hrun].
  destruct (OptimizeDictionary_atoms no_stale solve_diagonal inv_diagonal
              draws_first 1 [0] b64_coded 0 s' 3%nat Hrun)
    as (_ & Hin & _ & Hact).
  assert (Hi : nth_error (inactive_atoms b64_coded) 0 = Some 1)
    by (vm_compute; reflexivity).
  assert (Ha : nth_error (active_atoms b64_coded) 0 = Some 0)
    by (vm_compute; reflexivity).
  exists s', 3%nat.
  split; [exact Hrun|]. split; [reflexivity|].
  split; [exact Hi|]. split; [exact Ha|]. split.
  - destruct (Hin 0%nat 1 Hi) as (_ & _ & _ & He). rewrite He.
    vm_compute. reflexivity.
  - destruct Hact as (Zact & dv & M & _ & _ & _ & HM). exists M.
    apply (HM 0%nat 0 Ha).
Defined.

(** C8, the failing run in binary64: on the same object, when the three
    draws are the signals 0, 0 and 1, which sum to zero, the step returns
    and the entry of the inactive atom 1 is [0 / 0], a NaN, so that the
    atom has no norm (its computed norm is NaN as well).  And a sum that
    is not zero need not give norm 1 either: the computed norm of
    [(3, 9)] divided by its computed norm is below 1. *)
Lemma OptimizeDictionary_zero_sum_atom :
  exists s' rng',
    OptimizeDictionary no_stale solve_diagonal inv_diagonal draws_cancel 1
      [0] b64_coded 0 = Some (s', rng') /\
    In 1 (inactive_atoms b64_coded) /\
    elem (drawn_sum (data b64_coded) 0 0 1) 0 0 = 0%float /\
    PrimFloat.is_nan (elem (dictionary s') 0 1) = true /\
    PrimFloat.is_nan (norm_fro (col (dictionary s') 1)) = true /\
    PrimFloat.ltb (norm_fro (mdiv b64_threefold (norm_fro b64_threefold))) 1
    = true.
Proof.
  assert (H : match OptimizeDictionary no_stale solve_diagonal inv_diagonal
                      draws_cancel 1 [0] b64_coded 0 with
              | Some (s', _) =>
                  PrimFloat.is_nan (elem (dictionary s') 0 1) = true /\
                  PrimFloat.is_nan (norm_fro (col (dictionary s') 1)) = true
              | None => False
              end) by (vm_compute; split; reflexivity).
  destruct (OptimizeDictionary _ _ _ _ _ _ _ _) as [[s' rng']|];
    [|contradiction].
  exists s', rng'. split; [reflexivity|].
  split; [vm_compute; auto|]. split; [vm_compute; reflexivity|].
  split; [apply H|]. split; [apply H|]. vm_compute. reflexivity.
Qed.


(** *** The alternating loop *)

(** The state in which [Encode] enters its loop on the example. *)
Lemma ex_entry rng :
  loop_entry ex_lars ex_obj rng = mkloop ex_coded rng [0] DBL_MAX.
Proof.
  unfold loop_entry. fold ex_coded. now rewrite (ex_find _ ex_coded_shape).
Qed.

(** One pass on the example does not meet the test when entered with
    [DBL_MAX], and meets it when entered with the value it computes. *)
Lemma ex_first_pass :
  exists s',
    passes no_stale ex_lars solve_diagonal inv_diagonal draws_first 1 1
      (mkloop ex_coded 0 [0] DBL_MAX)
    = Some (mkloop s' 3 [0] (21 / 10)%R) /\ ex_shape s'.
Proof.
  destruct (ex_round no_stale draws_first draws_first_range 0 ex_coded 0
              ex_coded_shape) as (s' & Hr & Hs').
  exists s'. split; [|exact Hs'].
  cbn [passes ls_adj ls_obj ls_rng ls_last]. rewrite Hr. cbn [bind].
  pose proof DBL_MAX_large as Hl. real.
  rewrite Rltb_false; [reflexivity | lra].
Qed.

(** C3, instance: with [maxIterations = 3] the example makes one pass that
    does not meet the test and a second one that does, and returns.  Its
    first pass is the dictionary step on the adjacencies [[0]] of the
    initial codes, which re-initialises atom 1 with three draws, followed
    by the coding step; the adjacencies it hands on are those of the new
    codes and the value it compares is the objective of the new object,
    [21/10]. *)
Lemma Encode_rounds_witness :
  1 <= 3 < SizeT.modulus /\ (Z.to_nat (3 - 1) <= 2)%nat /\
  (exists out,
     Encode no_stale ex_lars solve_diagonal inv_diagonal draws_first 2 1 3
       ex_obj 0 = Some out /\
     converges_after no_stale ex_lars solve_diagonal inv_diagonal draws_first
       1 1 (loop_entry ex_lars ex_obj 0) out /\
     snd out = 6%nat) /\
  (exists s1,
     OptimizeDictionary no_stale solve_diagonal inv_diagonal draws_first 1
       [0] ex_coded 0 = Some (s1, 3%nat) /\
     Encode_round no_stale ex_lars solve_diagonal inv_diagonal draws_first 1
       [0] ex_coded 0
     = Some (OptimizeCode ex_lars s1, 3%nat,
             find (codes (OptimizeCode ex_lars s1)),
             Objective (OptimizeCode ex_lars s1)) /\
     elem (dictionary s1) 0 1 = 1%R /\
     find (codes (OptimizeCode ex_lars s1)) = [0] /\
     Objective (OptimizeCode ex_lars s1) = (21 / 10)%R).
Proof.
  assert (Hmax : 1 <= 3 < SizeT.modulus) by (unfold SizeT.modulus; lia).
  assert (Hrounds : (Z.to_nat (3 - 1) <= 2)%nat) by (cbn; lia).
  split; [exact Hmax|]. split; [exact Hrounds|].
  destruct ex_first_pass as (s1 & Hp & Hs1).
  destruct (ex_round no_stale draws_first draws_first_range 0 s1 3 Hs1)
    as (s2 & Hr & Hs2).
  destruct (Encode_rounds no_stale ex_lars solve_diagonal inv_diagonal
              draws_first 2 1 3 ex_obj 0 (s2, 6%nat) Hmax Hrounds)
    as [Hloop Hpass].
  split.
  - assert (Hc : converges_after no_stale ex_lars solve_diagonal inv_diagonal
                   draws_first 1 1 (loop_entry ex_lars ex_obj 0)
                   (s2, 6%nat)).
    { rewrite ex_entry. exists (mkloop s1 3 [0] (21 / 10)%R), s2, 6%nat, [0],
        (21 / 10)%R.
      split; [exact Hp|]. split; [exact Hr|].
      split; [|reflexivity].
      cbn [ls_last]. real. apply Rltb_true. lra. }
    exists (s2, 6%nat). split; [|split; [exact Hc | reflexivity]].
    apply (proj2 Hloop).
    right. exists 1%nat. split; [cbn; lia | exact Hc].
  - destruct (ex_step no_stale draws_first 0 [0] ex_coded 0 [0; 0]
                draws_first_range ex_coded_shape neighbors_one)
      as (est & Hrun & Her & Hec & He0 & He1).
    destruct (ex_code (with_dictionary ex_coded est)) as [Hs' HD];
      try apply ex_coded_shape.
    exists (with_dictionary ex_coded est).
    split; [exact Hrun|]. split; [|split; [|split]].
    + apply (proj2 (Hpass (mkloop ex_coded 0 [0] DBL_MAX) _ _ _ _)).
      exists (with_dictionary ex_coded est). auto.
    + cbn [dictionary with_dictionary]. cbv zeta in He1. rewrite He1.
      unfold draws_first. cbn [elem ex_data Z.eqb]. real.
      replace ((1 + 1 + 1) * (1 + 1 + 1))%R with (3 * 3)%R by lra.
      rewrite sqrt_square by lra. lra.
    + apply (ex_find _ Hs').
    + apply (ex_objective _ Hs'); rewrite ?HD; auto.
Defined.


(** *** A run that the iteration count ends, in binary64

    The data are the single signal [0], coded with one atom.  The coding
    step leaves the code at zero, so that the atom is inactive at every
    pass; the dictionary step re-initialises it from three draws of the
    zero signal and stores [0 / 0], a NaN; the objective is then NaN, and
    so is the improvement, which does not compare below the tolerance. *)

Ltac same_entries :=
  repeat f_equal;
  let i := fresh "i" in let j := fresh "j" in
  extensionality i; extensionality j;
  destruct i; destruct j; reflexivity.

Lemma b64_null_coded : OptimizeCode ex_lars b64_null = b64_null.
Proof. vm_compute. same_entries. Qed.

Lemma b64_null_round s rng :
  s = b64_null \/ s = b64_lost ->
  Encode_round no_stale ex_lars solve_diagonal inv_diagonal draws_first 1 []
    s rng
  = Some (b64_lost, S (S (S rng)), [], nan).
Proof. intros [->| ->]; vm_compute; same_entries. Qed.

Lemma b64_null_passes k : forall s rng last,
  s = b64_null \/ s = b64_lost ->
  PrimFloat.ltb (last - nan) OBJ_TOL = false ->
  passes no_stale ex_lars solve_diagonal inv_diagonal draws_first 1 (S k)
    (mkloop s rng [] last)
  = Some (mkloop b64_lost (3 * S k + rng) [] nan).
Proof.
  induction k as [|k IH]; intros s rng last Hs Hlast.
  - cbn [passes ls_adj ls_obj ls_rng ls_last].
    rewrite (b64_null_round s rng Hs). cbn [bind].
    change (dltb (last - nan)%d OBJ_TOL)
      with (PrimFloat.ltb (last - nan) OBJ_TOL).
    rewrite Hlast. reflexivity.
  - rewrite passes_S. cbn [ls_adj ls_obj ls_rng ls_last].
    rewrite (b64_null_round s rng Hs). cbn [bind].
    change (dltb (last - nan)%d OBJ_TOL)
      with (PrimFloat.ltb (last - nan) OBJ_TOL).
    rewrite Hlast.
    rewrite IH; [|now right | reflexivity].
    do 2 f_equal. lia.
Qed.

(** Any number [K] of passes with [K = 2^64 - 1]. *)
Lemma b64_null_wraps (K : nat) :
  Z.of_nat K = SizeT.modulus - 1 ->
  passes no_stale ex_lars solve_diagonal inv_diagonal draws_first 1 K
    (loop_entry ex_lars b64_null 0)
  = Some (mkloop b64_lost (3 * K) [] nan) /\
  Encode no_stale ex_lars solve_diagonal inv_diagonal draws_first K 1 0
    b64_null 0
  = Some (b64_lost, (3 * K)%nat).
Proof.
  intros HK.
  assert (Hp : passes no_stale ex_lars solve_diagonal inv_diagonal
                 draws_first 1 K (loop_entry ex_lars b64_null 0)
               = Some (mkloop b64_lost (3 * K) [] nan)).
  { unfold loop_entry. rewrite b64_null_coded.
    change (find (codes b64_null)) with (@nil Z).
    destruct K as [|k]; [unfold SizeT.modulus in HK; lia|].
    rewrite b64_null_passes; [|now left | reflexivity].
    do 2 f_equal. lia. }
  split; [exact Hp|].
  pose proof (Encode_zero_wraps no_stale ex_lars solve_diagonal inv_diagonal
                draws_first 1 b64_null 0 K _ 0%nat HK Hp) as H.
  rewrite Nat.add_0_r in H. exact H.
Qed.

(** C10, instances.  With [maxIterations = 0], after the first pass of the
    example, which does not meet the test, the loop goes on: a budget of
    one pass is not enough.  And on the zero signal, in binary64, the
    [2^64 - 1] passes that do not meet the test exist, after which
    [Encode] returns what the last of them left. *)
Lemma Encode_zero_iterations_witness :
  Z.of_nat 1 < SizeT.modulus - 1 /\
  (exists y,
     passes no_stale ex_lars solve_diagonal inv_diagonal draws_first 1 1
       (loop_entry ex_lars ex_obj 0) = Some y) /\
  Encode no_stale ex_lars solve_diagonal inv_diagonal draws_first 1 1 0
    ex_obj 0 = None /\
  Z.of_nat (Z.to_nat (SizeT.modulus - 1)) = SizeT.modulus - 1 /\
  (exists y,
     passes no_stale ex_lars solve_diagonal inv_diagonal draws_first 1
       (Z.to_nat (SizeT.modulus - 1)) (loop_entry ex_lars b64_null 0)
     = Some y /\
     Encode no_stale ex_lars solve_diagonal inv_diagonal draws_first
       (Z.to_nat (SizeT.modulus - 1) + 0) 1 0 b64_null 0
     = Some (ls_obj y, ls_rng y)).
Proof.
  assert (Hk : Z.of_nat 1 < SizeT.modulus - 1) by (unfold SizeT.modulus; lia).
  assert (HK : Z.of_nat (Z.to_nat (SizeT.modulus - 1)) = SizeT.modulus - 1)
    by (apply Z2Nat.id; unfold SizeT.modulus; lia).
  destruct ex_first_pass as (s1 & Hp & _). rewrite <- ex_entry in Hp.
  split; [exact Hk|]. split; [eexists; exact Hp|].
  split.
  - apply (proj1 (Encode_zero_iterations no_stale ex_lars solve_diagonal
                    inv_diagonal draws_first 1 ex_obj 0) 1%nat _ Hk Hp).
  - split; [exact HK|].
    destruct (b64_null_wraps _ HK) as [Hw _].
    eexists. split; [exact Hw|].
    apply (proj2 (Encode_zero_iterations no_stale ex_lars solve_diagonal
                    inv_diagonal draws_first 1 b64_null 0) _ _ 0%nat HK Hw).
Defined.

(** C10, counterexample: a run of [Encode] with [maxIterations = 0] that
    the iteration count ends.  On the zero signal, in binary64, the first
    [2^64 - 1] passes all return and none meets the convergence test (the
    objective is NaN at each of them); the counter is then back to 0, equal
    to [maxIterations], and [Encode] returns: the loop has stopped on its
    guard, not on the tolerance test. *)
Lemma Encode_zero_iterations_wraps :
  passes no_stale ex_lars solve_diagonal inv_diagonal draws_first 1
    (Z.to_nat (SizeT.modulus - 1)) (loop_entry ex_lars b64_null 0)
  = Some (mkloop b64_lost (3 * Z.to_nat (SizeT.modulus - 1)) [] nan) /\
  Encode no_stale ex_lars solve_diagonal inv_diagonal draws_first
    (Z.to_nat (SizeT.modulus - 1)) 1 0 b64_null 0
  = Some (b64_lost, (3 * Z.to_nat (SizeT.modulus - 1))%nat) /\
  PrimFloat.is_nan (Objective b64_lost) = true.
Proof.
  assert (HK : Z.of_nat (Z.to_nat (SizeT.modulus - 1)) = SizeT.modulus - 1)
    by (apply Z2Nat.id; unfold SizeT.modulus; lia).
  destruct (b64_null_wraps _ HK) as [Hp He].
  split; [exact Hp|]. split; [exact He|]. vm_compute. reflexivity.
Qed.

(** *** The objective and the projection, in binary64 *)

(** C7, instance: a code of [-4] weighs [4] in the objective: with
    [lambda1 = 3] the objective is 12 when [lambda2 = 0], and 20 when
    [lambda2 = 1]. *)
Lemma Objective_formula_witness :
  codes_l1 (b64_code (-4) 3 0) = 4%float /\
  Objective (b64_code (-4) 3 0) = 12%float /\
  Objective (b64_code (-4) 3 1) = 20%float.
Proof.
  split; [vm_compute; reflexivity|].
  split; rewrite (proj1 Objective_formula float Arith_b64);
    vm_compute; reflexivity.
Defined.

(** C7, counterexample: in binary64 the two cases do not differ by exactly
    the term [0.5 * lambda2 * ||Z||_F^2].  With the single code [0.5],
    [lambda1] the double nearest to [0.1] and zero data and dictionary,
    the objective with [lambda2 = 1] minus the objective with
    [lambda2 = 0] compares below that term, which is 0.125. *)
Lemma Objective_difference_inexact :
  PrimFloat.ltb
    (Objective (b64_code 0.5 0x1.999999999999ap-4 1)
     - Objective (b64_code 0.5 0x1.999999999999ap-4 0))
    (0.5 * 1 * dpow2 (norm_fro (codes (b64_code 0.5 0x1.999999999999ap-4 0))))
  = true /\
  (0.5 * 1 * dpow2 (norm_fro (codes (b64_code 0.5 0x1.999999999999ap-4 0)))
   = 0.125)%float /\
  (0.5 * 1 * codes_sq (b64_code 0.5 0x1.999999999999ap-4 0) = 0.125)%float.
Proof. repeat split; vm_compute; reflexivity. Qed.



(** * Further properties of the code *)

(** ** Row removal: the indices it accepts *)

Lemma wrap_neg z :
  - SizeT.modulus <= z < 0 -> SizeT.wrap z = z + SizeT.modulus.
Proof.
  intros H. unfold SizeT.wrap. symmetry.
  apply (Z.mod_unique z SizeT.modulus (-1)); lia.
Qed.

Lemma assign_rows_Some {F : Type} (M : mat F) r0 r1 X s0 s1 M' :
  assign_rows M r0 r1 X s0 s1 = Some M' ->
  r0 <= r1 < n_rows M /\ s0 <= s1 < n_rows X /\ r1 - r0 = s1 - s0 /\
  n_cols M = n_cols X /\ n_rows M' = n_rows M /\ n_cols M' = n_cols M.
Proof.
  unfold assign_rows, span_ok. intros H.
  destruct (Z.leb_spec r0 r1); destruct (Z.ltb_spec r1 (n_rows M));
    destruct (Z.leb_spec s0 s1); destruct (Z.ltb_spec s1 (n_rows X));
    destruct (Z.eqb_spec (r1 - r0) (s1 - s0));
    destruct (Z.eqb_spec (n_cols M) (n_cols X));
    cbn [andb] in H; try discriminate.
  injection H as <-. cbn [n_rows n_cols]. lia.
Qed.

Lemma sub_wrap_ge x y : 0 <= y <= x -> x < SizeT.modulus -> x -% y = x - y.
Proof. intros H Hx. unwrap. reflexivity. Qed.

Lemma sub_wrap_lt x y :
  0 <= x < y -> y < SizeT.modulus -> x -% y = x - y + SizeT.modulus.
Proof. intros H Hy. unfold SizeT.sub. apply wrap_neg. lia. Qed.

(** A pair of consecutive indices that is not strictly ascending makes the
    copy of the rows between them fail. *)
Lemma RemoveRows_gap_fails {F : Type} (X M : mat F) c a b :
  0 <= b <= a -> a + 1 < n_rows X -> SizeT.inrange (n_rows X) ->
  (if 0 <? b -% a -% 1 then
     Y <- assign_rows M c (c +% (b -% a -% 1) -% 1) X (a +% 1) (b -% 1) ;;
     Some (Y, c +% (b -% a -% 1))
   else Some (M, c)) = None.
Proof.
  intros Hab Ha Hr. unfold SizeT.inrange in Hr.
  assert (Hh : 0 < b -% a -% 1).
  { destruct (Z.eq_dec b a) as [->|Hne].
    - rewrite (sub_wrap_ge a a) by lia. rewrite Z.sub_diag.
      rewrite (sub_wrap_lt 0 1) by (unfold SizeT.modulus; lia).
      unfold SizeT.modulus. lia.
    - rewrite (sub_wrap_lt b a) by lia.
      rewrite sub_wrap_ge by lia. lia. }
  replace (0 <? b -% a -% 1) with true by (symmetry; now apply Z.ltb_lt).
  assert (Hs : span_ok (a +% 1) (b -% 1) (n_rows X) = false).
  { unfold span_ok. apply andb_false_iff.
    replace (a +% 1) with (a + 1) by (unwrap; reflexivity).
    destruct (Z.eq_dec b 0) as [->|Hb].
    - right. rewrite (sub_wrap_lt 0 1) by (unfold SizeT.modulus; lia).
      apply Z.ltb_ge. lia.
    - left. rewrite sub_wrap_ge by lia. apply Z.leb_gt. lia. }
  unfold assign_rows. rewrite Hs, andb_false_r. reflexivity.
Qed.

(** If the loop and the last copy return, the indices after position
    [length pre] are strictly ascending and within the rows. *)
Lemma RemoveRows_finish_valid {F : Type} (X : mat F) rest :
  forall pre a M c Y,
  SizeT.inrange (n_rows X) ->
  n_elem (pre ++ a :: rest) <= n_rows X ->
  Forall SizeT.inrange rest ->
  n_rows M = n_rows X - n_elem (pre ++ a :: rest) ->
  0 <= c <= n_rows M -> c = a - Z.of_nat (length pre) ->
  RemoveRows_finish X (pre ++ a :: rest) M c (Z.of_nat (length pre)) = Some Y ->
  ascending_from (a + 1) rest (n_rows X).
Proof.
  induction rest as [|b rest IH]; intros pre a M c Y Hr Hn Hin HM Hc Hca H;
    [exact I|].
  assert (Hlen : n_elem (pre ++ a :: b :: rest)
                 = Z.of_nat (length pre) + 2 + Z.of_nat (length rest))
    by (unfold n_elem; rewrite length_app; cbn [length]; lia).
  rewrite Hlen in *. unfold SizeT.inrange in Hr.
  pose proof (Forall_inv Hin) as Hb. pose proof (Forall_inv_tail Hin) as Hin'.
  unfold SizeT.inrange in Hb.
  rewrite RemoveRows_finish_step in H
    by (unfold SizeT.inrange; rewrite ?Hlen; lia).
  rewrite uvec_at_middle, uvec_at_next in H. cbv zeta in H.
  specialize (IH (pre ++ [a]) b).
  rewrite <- app_assoc in IH. cbn [app] in IH.
  rewrite length_app in IH. cbn [length] in IH.
  replace (Z.of_nat (length pre + 1)) with (Z.of_nat (length pre) + 1)
    in IH by lia.
  rewrite Hlen in IH.
  destruct (Z.le_gt_cases b a) as [Hle|Hgt].
  - (* not ascending: the copy fails *)
    rewrite RemoveRows_gap_fails in H
      by (unfold SizeT.inrange; lia).
    discriminate.
  - revert H. rewrite (sub_wrap_ge b) by lia.
    rewrite (sub_wrap_ge _ 1) by lia.
    destruct (Z.ltb_spec 0 (b - a - 1)) as [Hh|Hh].
    + destruct (assign_rows _ _ _ _ _ _) as [M'|] eqn:HM'; [|discriminate].
      cbn [bind]. intros H.
      apply assign_rows_Some in HM'.
      destruct HM' as (Hd & Hs & _ & _ & HMr & _).
      revert Hd H. unwrap. intros Hd H.
      cbn [ascending_from]. split.
      * lia.
      * apply (IH M' (c + (b - a - 1)) Y); auto; unfold SizeT.inrange; try lia.
    + cbn [bind]. intros H.
      cbn [ascending_from]. split.
      * lia.
      * apply (IH M c Y); auto; unfold SizeT.inrange; try lia.
Qed.

(** With valid indices [RemoveRows] returns the blocks of kept rows. *)
Lemma RemoveRows_blocks {F : Type} (stale : Z -> Z -> F) (X : mat F) a rest :
  SizeT.inrange (n_rows X) -> ascending_from 0 (a :: rest) (n_rows X) ->
  exists Y,
    RemoveRows stale X (a :: rest) = Some Y /\
    n_rows Y = n_rows X - n_elem (a :: rest) /\ n_cols Y = n_cols X /\
    filled X Y (n_rows Y) (blocks 0 (a :: rest) (n_rows X)).
Proof.
  intros Hr [Ha Hrest].
  pose proof (ascending_room _ _ _ Hrest ltac:(lia)) as Hroom.
  assert (Hn : n_elem (a :: rest) = 1 + Z.of_nat (length rest))
    by (unfold n_elem; cbn [length]; lia).
  rewrite RemoveRows_nonempty, Hn. unfold SizeT.inrange in Hr.
  rewrite (sub_wrap_ge (n_rows X)) by lia.
  set (M0 := set_size stale (n_rows X - (1 + Z.of_nat (length rest)))
               (n_cols X)).
  assert (HM0 : filled X M0 0 []) by (split; [reflexivity | intros; lia]).
  cbn [blocks]. rewrite Z.sub_0_r.
  assert (Hfin : forall M c L,
    n_rows M = n_rows X - (1 + Z.of_nat (length rest)) ->
    n_cols M = n_cols X -> filled X M c L -> c = a ->
    exists Y, RemoveRows_finish X (a :: rest) M c 0 = Some Y /\
      n_rows Y = n_rows X - (1 + Z.of_nat (length rest)) /\
      n_cols Y = n_cols X /\
      filled X Y (n_rows Y) (L ++ blocks (a + 1) rest (n_rows X))).
  { intros M c L HMr HMc HL Hc.
    destruct (RemoveRows_finish_spec X Hr rest [] a M c L)
      as (Y & HY & HYr & HYc & HYf); cbn [length app]; auto; try lia.
    exists Y. cbn [app length] in HY. change (Z.of_nat 0) with 0 in HY.
    rewrite HY, HYr. auto. }
  destruct (Z.ltb_spec 0 a) as [Hpos|Hzero].
  - destruct (assign_rows_filled X M0 0 [] 0 a)
      as (M1 & HM1 & HM1r & HM1c & HM1f); auto;
      try (unfold M0; cbn [n_rows n_cols set_size]; lia).
    unwrap. change (0 + a) with a in *. rewrite HM1. cbn [bind].
    apply (Hfin M1 a (zseq 0 (Z.to_nat a))); auto.
  - cbn [bind]. replace (Z.to_nat a) with 0%nat by lia. cbn [zseq].
    apply (Hfin M0 0 []); auto. lia.
Qed.

(** X1.  Given at most as many indices as [X] has rows, [RemoveRows]
    returns a matrix exactly when the indices are strictly ascending and
    within the rows of [X]: with a repeated, a descending or an
    out-of-range index one of the bounds checks on the spans fails. *)
Theorem RemoveRows_returns_iff {F : Type} (stale : Z -> Z -> F) (X : mat F)
    (idx : uvec) :
  SizeT.inrange (n_rows X) -> Forall SizeT.inrange idx ->
  n_elem idx <= n_rows X ->
  (exists Y, RemoveRows stale X idx = Some Y) <->
  ascending_from 0 idx (n_rows X).
Proof.
  intros Hr Hin Hn. split.
  - intros [Y H]. destruct idx as [|a rest]; [exact I|].
    pose proof (Forall_inv Hin) as Ha.
    pose proof (Forall_inv_tail Hin) as Hin'.
    assert (Hlen : n_elem (a :: rest) = 1 + Z.of_nat (length rest))
      by (unfold n_elem; cbn [length]; lia).
    rewrite RemoveRows_nonempty in H. unfold SizeT.inrange in Hr, Ha.
    revert H. rewrite (sub_wrap_ge (n_rows X)) by (rewrite ?Hlen; lia).
    set (M0 := set_size stale (n_rows X - n_elem (a :: rest)) (n_cols X)).
    assert (Hfin : forall M c,
      n_rows M = n_rows X - n_elem (a :: rest) -> 0 <= c <= n_rows M ->
      c = a -> RemoveRows_finish X (a :: rest) M c 0 = Some Y ->
      ascending_from 0 (a :: rest) (n_rows X)).
    { intros M c HM Hc Hca HY. cbn [ascending_from]. split; [lia|].
      apply (RemoveRows_finish_valid X rest [] a M c Y); auto;
        cbn [app length]; unfold SizeT.inrange; try lia. }
    destruct (Z.ltb_spec 0 a) as [Hpos|Hzero].
    + destruct (assign_rows _ _ _ _ _ _) as [M1|] eqn:HM1; [|discriminate].
      cbn [bind]. apply assign_rows_Some in HM1.
      destruct HM1 as (Hd & _ & _ & _ & HMr & _).
      revert Hd. unwrap. change (0 + a) with a. intros Hd.
      apply Hfin; [exact HMr | lia | reflexivity].
    + cbn [bind]. apply Hfin; [reflexivity | | lia].
      unfold M0. cbn [n_rows set_size]. rewrite Hlen in Hn |- *. lia.
  - intros Hasc. destruct idx as [|a rest].
    + exists X. reflexivity.
    + destruct (RemoveRows_blocks stale X a rest Hr Hasc) as (Y & HY & _).
      exists Y. exact HY.
Qed.

(** X1, instance: the indices 1 and 3 on the 5 x 3 example matrix. *)
Lemma RemoveRows_returns_iff_witness :
  (exists Y, RemoveRows no_stale example_5x3 [1; 3] = Some Y) <->
  ascending_from 0 [1; 3] (n_rows example_5x3).
Proof.
  apply (RemoveRows_returns_iff no_stale example_5x3 [1; 3]).
  - unfold SizeT.inrange, SizeT.modulus. cbn. lia.
  - repeat constructor; unfold SizeT.modulus; lia.
  - unfold n_elem. cbn. lia.
Defined.

(** ** The rows of the active atoms *)

Lemma ascending_from_weaken idx : forall lo lo' r,
  lo' <= lo -> ascending_from lo idx r -> ascending_from lo' idx r.
Proof.
  destruct idx as [|a rest]; intros lo lo' r Hle H; [exact I|].
  destruct H as [Ha Hrest]. split; [lia | exact Hrest].
Qed.

(** A selection of consecutive indices, taken in order, is strictly
    ascending. *)
Lemma ascending_filter (f : Z -> bool) n : forall lo,
  ascending_from lo (filter f (zseq lo n)) (lo + Z.of_nat n).
Proof.
  induction n as [|n IH]; intros lo; [exact I|].
  cbn [zseq filter]. specialize (IH (lo + 1)).
  replace (lo + 1 + Z.of_nat n) with (lo + Z.of_nat (S n)) in IH by lia.
  destruct (f lo).
  - split; [lia | exact IH].
  - apply (ascending_from_weaken _ (lo + 1)); [lia | exact IH].
Qed.

Lemma ascending_inactive {F : Type} {arith : Arith F} (s : SparseCoding F) :
  0 <= atoms s -> ascending_from 0 (inactive_atoms s) (atoms s).
Proof.
  intros H. rewrite inactive_atoms_filter. unfold upto.
  replace (atoms s) with (0 + Z.of_nat (Z.to_nat (atoms s))) at 2 by lia.
  apply ascending_filter.
Qed.

Lemma ascending_active {F : Type} {arith : Arith F} (s : SparseCoding F) :
  0 <= atoms s -> ascending_from 0 (active_atoms s) (atoms s).
Proof.
  intros H. rewrite active_atoms_filter. unfold upto.
  replace (atoms s) with (0 + Z.of_nat (Z.to_nat (atoms s))) at 2 by lia.
  apply ascending_filter.
Qed.

Lemma existsb_eqb_true (x : Z) (l : list Z) :
  In x l -> existsb (Z.eqb x) l = true.
Proof.
  intros H. apply existsb_exists. exists x. split; [exact H | apply Z.eqb_refl].
Qed.

(** The rows that are kept when the inactive atoms are removed are the
    active atoms. *)
Lemma kept_rows_inactive {F : Type} {arith : Arith F} (s : SparseCoding F) :
  kept_rows (atoms s) (inactive_atoms s) = active_atoms s.
Proof.
  unfold kept_rows. rewrite active_atoms_filter. apply filter_ext_in.
  intros j Hj. f_equal.
  destruct (row_nnz (codes s) j =? 0) eqn:E.
  - apply existsb_eqb_true. rewrite inactive_atoms_filter.
    apply filter_In. split; [exact Hj | exact E].
  - apply existsb_eqb_false. rewrite inactive_atoms_filter.
    intros Hin. apply filter_In in Hin. destruct Hin as [_ Hz]. congruence.
Qed.

Lemma length_upto n : Z.of_nat (length (upto n)) = Z.max 0 n.
Proof. unfold upto. rewrite length_zseq. lia. Qed.

Lemma partition_atoms {F : Type} {arith : Arith F} (s : SparseCoding F) :
  0 <= atoms s ->
  n_elem (inactive_atoms s) + n_elem (active_atoms s) = atoms s.
Proof.
  intros H. unfold inactive_atoms, active_atoms, n_elem.
  destruct (partition _ (upto (atoms s))) as [l1 l2] eqn:E.
  apply partition_length in E. cbn [fst snd].
  pose proof (length_upto (atoms s)). lia.
Qed.



(** ** The adjacencies and the count of the neighbours *)

Lemma ascending_app l1 : forall lo m l2 r,
  lo <= m -> m <= r ->
  ascending_from lo l1 m -> ascending_from m l2 r ->
  ascending_from lo (l1 ++ l2) r.
Proof.
  induction l1 as [|a l1 IH]; intros lo m l2 r Hlo Hle H1 H2; cbn [app].
  - apply (ascending_from_weaken _ m); assumption.
  - destruct H1 as [Ha H1]. split; [lia|]. apply (IH _ m); auto; lia.
Qed.

Lemma ascending_column (p : Z -> bool) base n : forall lo,
  ascending_from (lo + base)
    (flat_map (fun i => if p i then [i + base] else []) (zseq lo n))
    (lo + base + Z.of_nat n).
Proof.
  induction n as [|n IH]; intros lo; [exact I|].
  cbn [zseq flat_map]. specialize (IH (lo + 1)).
  replace (lo + 1 + base + Z.of_nat n) with (lo + base + Z.of_nat (S n))
    in IH by lia.
  destruct (p lo); cbn [app].
  - split; [lia|]. replace (lo + base + 1) with (lo + 1 + base) by lia.
    exact IH.
  - apply (ascending_from_weaken _ (lo + 1 + base)); [lia | exact IH].
Qed.

Lemma ascending_columns (F : Z -> list Z) r n : forall j0,
  0 <= r ->
  (forall j, j0 <= j < j0 + Z.of_nat n ->
     ascending_from (j * r) (F j) (j * r + r)) ->
  ascending_from (j0 * r) (flat_map F (zseq j0 n)) ((j0 + Z.of_nat n) * r).
Proof.
  induction n as [|n IH]; intros j0 Hr HF; [exact I|].
  cbn [zseq flat_map].
  apply (ascending_app _ _ (j0 * r + r)); try nia.
  - apply HF. lia.
  - replace (j0 * r + r) with ((j0 + 1) * r) by lia.
    replace (j0 + Z.of_nat (S n)) with (j0 + 1 + Z.of_nat n) by lia.
    apply IH; [exact Hr|]. intros j Hj. apply HF. lia.
Qed.

Lemma flat_map_ext_on {A B : Type} (f g : A -> list B) (l : list A) :
  (forall a, In a l -> f a = g a) -> flat_map f l = flat_map g l.
Proof.
  induction l as [|a l IH]; intros H; cbn [flat_map]; [reflexivity|].
  rewrite (H a) by now left. rewrite IH; [reflexivity|].
  intros b Hb. apply H. now right.
Qed.

(** [find] without the reductions modulo [2^64], which do nothing when the
    matrix has fewer than [2^64] entries. *)
Lemma find_exact {F : Type} {arith : Arith F} (A : mat F) :
  0 <= n_rows A -> n_rows A * n_cols A < SizeT.modulus ->
  find A =
  flat_map (fun j =>
    flat_map (fun i => if nonzero (elem A i j) then [i + j * n_rows A] else [])
      (upto (n_rows A)))
    (upto (n_cols A)).
Proof.
  intros Hr Hn. unfold find. apply flat_map_ext_on. intros j Hj.
  apply flat_map_ext_on. intros i Hi.
  apply in_upto in Hj, Hi.
  destruct (nonzero (elem A i j)); [|reflexivity].
  assert (Hb : 0 <= j * n_rows A /\ i + j * n_rows A < SizeT.modulus) by nia.
  f_equal. unwrap. reflexivity.
Qed.

Lemma find_ascending {F : Type} {arith : Arith F} (A : mat F) :
  0 <= n_rows A -> n_rows A * n_cols A < SizeT.modulus ->
  ascending_from 0 (find A) (n_rows A * n_cols A).
Proof.
  intros Hr Hn. rewrite find_exact by assumption. unfold upto at 2.
  destruct (Z.le_gt_cases (n_cols A) 0) as [Hc|Hc].
  - replace (Z.to_nat (n_cols A)) with 0%nat by lia. exact I.
  - replace (n_rows A * n_cols A)
      with ((0 + Z.of_nat (Z.to_nat (n_cols A))) * n_rows A) by lia.
    change 0 with (0 * n_rows A) at 1.
    apply ascending_columns; [exact Hr|]. intros j Hj. unfold upto.
    pose proof (ascending_column (fun i => nonzero (elem A i j))
                  (j * n_rows A) (Z.to_nat (n_rows A)) 0) as H.
    cbn [Z.add] in H.
    replace (j * n_rows A + Z.of_nat (Z.to_nat (n_rows A)))
      with (j * n_rows A + n_rows A) in H by lia.
    exact H.
Qed.

Lemma find_spec {F : Type} {arith : Arith F} (A : mat F) a :
  0 <= n_rows A -> n_rows A * n_cols A < SizeT.modulus ->
  In a (find A) <->
  exists i j, 0 <= i < n_rows A /\ 0 <= j < n_cols A /\
              nonzero (elem A i j) = true /\ a = i + j * n_rows A.
Proof.
  intros Hr Hn. rewrite find_exact by assumption. rewrite in_flat_map. split.
  - intros (j & Hj & Hin). apply in_flat_map in Hin.
    destruct Hin as (i & Hi & Hin). apply in_upto in Hj, Hi.
    destruct (nonzero (elem A i j)) eqn:E; [|contradiction].
    destruct Hin as [<-|[]]. exists i, j. auto.
  - intros (i & j & Hi & Hj & Hnz & ->). exists j.
    split; [now apply in_upto|]. apply in_flat_map. exists i.
    split; [now apply in_upto|].
    rewrite Hnz. now left.
Qed.

(** ** The count of the neighbours *)

Lemma incr_at_spec (v : uvec) i :
  0 <= i < n_elem v ->
  exists v',
    incr_at v i = Some v' /\ n_elem v' = n_elem v /\
    forall p, 0 <= p ->
      uvec_at v' p = if p =? i then uvec_at v i +% 1 else uvec_at v p.
Proof.
  intros Hi. unfold incr_at.
  replace (0 <=? i) with true by (symmetry; apply Z.leb_le; lia).
  replace (i <? n_elem v) with true by (symmetry; apply Z.ltb_lt; lia).
  cbn [andb]. eexists. split; [reflexivity|].
  unfold n_elem in *.
  assert (Hf : length (firstn (Z.to_nat i) v) = Z.to_nat i)
    by (rewrite length_firstn; lia).
  split.
  - rewrite length_app. cbn [length]. rewrite Hf, length_skipn. lia.
  - intros p Hp. unfold uvec_at.
    destruct (Z.eqb_spec p i) as [->|Hne].
    + rewrite app_nth2 by lia. rewrite Hf, Nat.sub_diag. reflexivity.
    + destruct (Z.lt_ge_cases p i) as [Hlt|Hge].
      * rewrite app_nth1 by lia. rewrite nth_firstn.
        replace (Z.to_nat p <? Z.to_nat i)%nat with true
          by (symmetry; apply Nat.ltb_lt; lia).
        reflexivity.
      * rewrite app_nth2 by lia. rewrite Hf.
        replace (Z.to_nat p - Z.to_nat i)%nat
          with (S (Z.to_nat p - S (Z.to_nat i))) by lia.
        cbn [nth]. rewrite nth_skipn. f_equal. lia.
Qed.

Lemma div_between a b q : 0 < b -> q * b <= a < (q + 1) * b -> a / b = q.
Proof.
  intros Hb H. symmetry. apply (Z.div_unique a b q (a - q * b)); lia.
Qed.

Lemma column_count_cons atoms a rest p :
  column_count atoms (a :: rest) p
  = (if a / atoms =? p then 1 else 0) + column_count atoms rest p.
Proof.
  unfold column_count, n_elem. cbn [filter].
  destruct (a / atoms =? p); cbn [length]; lia.
Qed.

(** The loop over the adjacencies after the first: on ascending
    adjacencies it counts each of them under its point. *)
Lemma neighbor_loop_counts atoms N :
  0 < atoms -> 0 <= N -> atoms * N < SizeT.modulus ->
  forall rest prev cur counts bound,
    ascending_from (prev + 1) rest (atoms * N) ->
    0 <= cur < N -> cur * atoms <= prev < (cur + 1) * atoms ->
    n_elem counts = N ->
    (forall p, 0 <= p < N -> 0 <= uvec_at counts p <= bound) ->
    bound + Z.of_nat (length rest) < SizeT.modulus ->
    exists counts',
      neighbor_loop atoms rest cur ((cur +% 1) *% atoms) counts
        = Some counts' /\
      n_elem counts' = N /\
      forall p, 0 <= p < N ->
        uvec_at counts' p = uvec_at counts p + column_count atoms rest p.
Proof.
  intros Ha HN Hmod.
  induction rest as [|a rest IH];
    intros prev cur counts bound Hasc Hcur Hprev Hlen Hb Hroom.
  - exists counts. split; [reflexivity|]. split; [exact Hlen|].
    intros p Hp. change (column_count atoms [] p) with 0. lia.
  - destruct Hasc as [Hlo Hasc]. cbn [length] in Hroom.
    assert (Hnext : (cur +% 1) *% atoms = (cur + 1) * atoms).
    { assert (Hb1 : 0 <= (cur + 1) * atoms < SizeT.modulus) by nia.
      assert (Hb2 : N < SizeT.modulus) by nia.
      unwrap. reflexivity. }
    assert (Hq : 0 <= a / atoms < N).
    { split; [apply Z.div_pos; lia|].
      apply Z.div_lt_upper_bound; lia. }
    assert (Hqa : a / atoms * atoms <= a < (a / atoms + 1) * atoms).
    { pose proof (Z.mul_div_le a atoms Ha).
      pose proof (Z.mul_succ_div_gt a atoms Ha). lia. }
    assert (Hstep :
      exists counts',
        (counts1 <- incr_at counts (a / atoms) ;;
         neighbor_loop atoms rest (a / atoms) ((a / atoms +% 1) *% atoms)
           counts1) = Some counts' /\
        n_elem counts' = N /\
        forall p, 0 <= p < N ->
          uvec_at counts' p
          = uvec_at counts p + column_count atoms (a :: rest) p).
    { destruct (incr_at_spec counts (a / atoms)) as (c1 & Hc1 & Hl1 & He1);
        [lia|].
      rewrite Hc1. cbn [bind].
      assert (Hinc : uvec_at counts (a / atoms) +% 1
                     = uvec_at counts (a / atoms) + 1).
      { specialize (Hb _ Hq). unwrap. reflexivity. }
      destruct (IH a (a / atoms) c1 (bound + 1))
        as (c' & Hc' & Hl' & He'); auto; try lia.
      - intros p Hp. rewrite He1 by lia. pose proof (Hb p Hp).
        pose proof (Hb _ Hq). destruct (p =? a / atoms); lia.
      - exists c'. split; [exact Hc'|]. split; [exact Hl'|].
        intros p Hp. rewrite He' by exact Hp. rewrite He1 by lia.
        rewrite column_count_cons. rewrite (Z.eqb_sym p).
        destruct (Z.eqb_spec (a / atoms) p); subst; lia. }
    cbn [neighbor_loop]. rewrite Hnext.
    destruct (Z.leb_spec ((cur + 1) * atoms) a) as [Hge|Hlt].
    + exact Hstep.
    + assert (Hsame : a / atoms = cur) by (apply div_between; lia).
      rewrite <- Hnext, <- Hsame. exact Hstep.
Qed.

Lemma uvec_at_repeat n p : uvec_at (repeat 0 n) p = 0.
Proof.
  unfold uvec_at. generalize (Z.to_nat p). induction n; intros [|k];
    cbn [repeat nth]; auto.
Qed.

(** X3.  On strictly ascending adjacencies within an [atoms x N] code
    matrix the count of the neighbours returns a vector of [N] counts,
    and the count of point [p] is the number of the adjacencies after the
    first one that lie in column [p]: the first adjacency is not counted. *)
Theorem count_neighbors_counts (atoms N : Z) (adjacencies : uvec) :
  0 < atoms -> 0 <= N -> atoms * N < SizeT.modulus ->
  ascending_from 0 adjacencies (atoms * N) ->
  exists neighborCounts,
    count_neighbors adjacencies atoms N = Some neighborCounts /\
    n_elem neighborCounts = N /\
    forall p, 0 <= p < N ->
      uvec_at neighborCounts p = column_count atoms (tl adjacencies) p.
Proof.
  intros Ha HN Hmod Hasc.
  assert (Hrep : n_elem (repeat 0 (Z.to_nat N)) = N)
    by (unfold n_elem; rewrite repeat_length; lia).
  destruct adjacencies as [|a0 rest].
  - exists (repeat 0 (Z.to_nat N)). split; [reflexivity|].
    split; [exact Hrep|]. intros p Hp. apply uvec_at_repeat.
  - destruct Hasc as [H0 Hasc]. cbn [tl]. unfold count_neighbors.
    replace (atoms =? 0) with false by (symmetry; apply Z.eqb_neq; lia).
    pose proof (Z.mul_div_le a0 atoms Ha).
    pose proof (Z.mul_succ_div_gt a0 atoms Ha).
    pose proof (ascending_room _ _ _ Hasc ltac:(lia)) as Hroom.
    destruct (neighbor_loop_counts atoms N Ha HN Hmod rest a0 (a0 / atoms)
                (repeat 0 (Z.to_nat N)) 0)
      as (c' & Hc' & Hl' & He'); auto; try lia.
    + split; [apply Z.div_pos; lia|]. apply Z.div_lt_upper_bound; lia.
    + intros p Hp. rewrite uvec_at_repeat. lia.
    + exists c'. split; [exact Hc'|]. split; [exact Hl'|].
      intros p Hp. rewrite He' by exact Hp. rewrite uvec_at_repeat. lia.
Qed.

(** X3, instance: the adjacencies 0 and 1 of point 0 and 3 of point 1. *)
Lemma count_neighbors_counts_witness :
  ascending_from 0 [0; 1; 3] (2 * 2) /\
  exists neighborCounts,
    count_neighbors [0; 1; 3] 2 2 = Some neighborCounts /\
    uvec_at neighborCounts 0 = 1 /\ uvec_at neighborCounts 1 = 1.
Proof.
  assert (Hasc : ascending_from 0 [0; 1; 3] (2 * 2)) by (cbn; lia).
  split; [exact Hasc|].
  destruct (count_neighbors_counts 2 2 [0; 1; 3]) as (c & Hc & _ & He);
    try lia; [unfold SizeT.modulus; lia | exact Hasc |].
  exists c. split; [exact Hc|].
  split; [apply (He 0) | apply (He 1)]; lia.
Defined.

(** On ascending adjacencies within the code matrix the count returns. *)
Lemma count_neighbors_returns (atoms N : Z) (adjacencies : uvec) :
  0 <= atoms -> 0 <= N -> atoms * N < SizeT.modulus ->
  ascending_from 0 adjacencies (atoms * N) ->
  exists neighborCounts,
    count_neighbors adjacencies atoms N = Some neighborCounts.
Proof.
  intros Ha HN Hmod Hasc. destruct adjacencies as [|a0 rest].
  - eexists. reflexivity.
  - destruct Hasc as [H0 Hasc].
    assert (Hpos : 0 < atoms) by nia.
    unfold count_neighbors.
    replace (atoms =? 0) with false by (symmetry; apply Z.eqb_neq; lia).
    pose proof (Z.mul_div_le a0 atoms Hpos).
    pose proof (Z.mul_succ_div_gt a0 atoms Hpos).
    pose proof (ascending_room _ _ _ Hasc ltac:(lia)) as Hroom.
    destruct (neighbor_loop_counts atoms N Hpos HN Hmod rest a0 (a0 / atoms)
                (repeat 0 (Z.to_nat N)) 0)
      as (c' & Hc' & _); auto; try lia.
    + split; [apply Z.div_pos; lia|]. apply Z.div_lt_upper_bound; lia.
    + unfold n_elem. rewrite repeat_length. lia.
    + intros p Hp. rewrite uvec_at_repeat. lia.
    + exists c'. exact Hc'.
Qed.

Section AdjacenciesOfEncode.

Context {F : Type} {arith : Arith F}.

Variable stale : Z -> Z -> F.
Variable solve : mat F -> mat F -> option (mat F).
Variable inv : mat F -> option (mat F).
Variable RandInt : nat -> Z -> Z.

(** X4.  For a code matrix of shape [atoms x N] with fewer than [2^64]
    entries, [find] lists the linear indices [i + j * atoms] of its
    nonzero entries (those that compare different from zero) in strictly
    ascending order, the count of the neighbours returns on them, and so
    the dictionary step called on these adjacencies is the update alone. *)
Theorem OptimizeDictionary_on_find (s : SparseCoding F) :
  n_rows (codes s) = atoms s -> n_cols (codes s) = n_cols (data s) ->
  0 <= atoms s -> 0 <= n_cols (data s) ->
  atoms s * n_cols (data s) < SizeT.modulus ->
  ascending_from 0 (find (codes s)) (atoms s * n_cols (data s)) /\
  (forall a, In a (find (codes s)) <->
     exists i j, 0 <= i < atoms s /\ 0 <= j < n_cols (data s) /\
                 nonzero (elem (codes s) i j) = true /\
                 a = i + j * atoms s) /\
  (exists neighborCounts,
     count_neighbors (find (codes s)) (atoms s) (n_cols (data s))
     = Some neighborCounts) /\
  (forall fuel rng,
     OptimizeDictionary stale solve inv RandInt fuel (find (codes s)) s rng
     = dictionary_update stale solve inv RandInt fuel s rng).
Proof.
  intros Hr Hc Ha HN Hmod.
  assert (Hasc : ascending_from 0 (find (codes s))
                   (atoms s * n_cols (data s))).
  { rewrite <- Hr, <- Hc. apply find_ascending; rewrite ?Hr, ?Hc; lia. }
  destruct (count_neighbors_returns _ _ _ Ha HN Hmod Hasc) as [counts Hcount].
  split; [exact Hasc|]. split; [|split].
  - intros a. rewrite find_spec by (rewrite ?Hr, ?Hc; lia).
    rewrite Hr, Hc. reflexivity.
  - exists counts. exact Hcount.
  - intros fuel rng. rewrite OptimizeDictionary_split, Hcount. reflexivity.
Qed.

End AdjacenciesOfEncode.

(** X4, instance: the example after the initial coding step. *)
Lemma OptimizeDictionary_on_find_witness :
  find (codes ex_coded) = [0] /\
  forall fuel rng,
    OptimizeDictionary no_stale solve_diagonal inv_diagonal draws_first fuel
      (find (codes ex_coded)) ex_coded rng
    = dictionary_update no_stale solve_diagonal inv_diagonal draws_first fuel
        ex_coded rng.
Proof.
  split; [apply (ex_find _ ex_coded_shape)|].
  apply (OptimizeDictionary_on_find no_stale solve_diagonal inv_diagonal
           draws_first ex_coded);
    rewrite ?(ex_rows _ ex_coded_shape), ?(ex_cols _ ex_coded_shape),
      ?(ex_atoms _ ex_coded_shape), ?(ex_dat _ ex_coded_shape);
    cbn [n_cols ex_data]; unfold SizeT.modulus; try reflexivity; lia.
Defined.

(** ** The coding step *)

Section CodingStep.

Context {F : Type} {arith : Arith F}.

Variable LARS_Regress :
  mat F -> F -> F -> mat F -> mat F -> mat F.

Lemma OptimizeCode_fold (G : mat F) (l : list Z) : forall s,
  let step := fun s i =>
    with_codes s
      (set_col (codes s) i
         (LARS_Regress G (lambda1 s) (lambda2 s) (dictionary s)
            (col (data s) i))) in
  same_model s (fold_left step l s) /\
  forall r c,
    elem (codes (fold_left step l s)) r c
    = if existsb (Z.eqb c) l
      then elem (LARS_Regress G (lambda1 s) (lambda2 s) (dictionary s)
                   (col (data s) c)) r 0
      else elem (codes s) r c.
Proof.
  induction l as [|a l IH]; intros s step; cbn [fold_left existsb].
  - split; [repeat split | reflexivity].
  - destruct (IH (step s a)) as [Hf He]. fold step in Hf, He.
    split.
    + unfold same_model in *. decompose [and] Hf. repeat split; assumption.
    + intros r c. rewrite He.
      subst step.
      cbn [codes lambda1 lambda2 dictionary data with_codes set_col elem].
      destruct (existsb (Z.eqb c) l); [now rewrite orb_true_r|].
      rewrite orb_false_r.
      destruct (Z.eqb_spec c a) as [->|]; reflexivity.
Qed.

Lemma OptimizeCode_model s : same_model s (OptimizeCode LARS_Regress s).
Proof. apply OptimizeCode_fold. Qed.

Lemma OptimizeCode_elem s r c :
  elem (codes (OptimizeCode LARS_Regress s)) r c
  = if (0 <=? c) && (c <? n_cols (data s))
    then elem (signal_code LARS_Regress s c) r 0
    else elem (codes s) r c.
Proof.
  unfold OptimizeCode.
  destruct (OptimizeCode_fold (mmul (trans (dictionary s)) (dictionary s))
              (upto (n_cols (data s))) s) as [_ He].
  cbv zeta in He. rewrite He, existsb_upto. reflexivity.
Qed.

Lemma signal_code_model s s' c :
  same_model s s' ->
  signal_code LARS_Regress s' c = signal_code LARS_Regress s c.
Proof.
  unfold same_model, signal_code. intros (_ & -> & -> & -> & -> & _).
  reflexivity.
Qed.

(** X5.  [OptimizeCode] changes nothing but entries of the code matrix:
    column [c] of the codes, for each signal [c] of the data, becomes the
    code the regression computes for that signal with the dictionary and
    the weights of the object, whatever the codes were before; the other
    columns stay as they are; and a second application changes nothing. *)
Theorem OptimizeCode_columns (s : SparseCoding F) :
  same_model s (OptimizeCode LARS_Regress s) /\
  (forall r c, 0 <= c < n_cols (data s) ->
     elem (codes (OptimizeCode LARS_Regress s)) r c
     = elem (signal_code LARS_Regress s c) r 0) /\
  (forall r c, ~ 0 <= c < n_cols (data s) ->
     elem (codes (OptimizeCode LARS_Regress s)) r c = elem (codes s) r c) /\
  (forall z r c, 0 <= c < n_cols (data s) ->
     elem (codes (OptimizeCode LARS_Regress (with_codes s z))) r c
     = elem (codes (OptimizeCode LARS_Regress s)) r c) /\
  (forall r c,
     elem (codes (OptimizeCode LARS_Regress (OptimizeCode LARS_Regress s)))
       r c
     = elem (codes (OptimizeCode LARS_Regress s)) r c).
Proof.
  assert (Hin : forall c, 0 <= c < n_cols (data s) ->
            (0 <=? c) && (c <? n_cols (data s)) = true).
  { intros c Hc. apply andb_true_iff.
    split; [apply Z.leb_le | apply Z.ltb_lt]; lia. }
  pose proof (OptimizeCode_model s) as Hm.
  split; [exact Hm|]. split; [|split; [|split]].
  - intros r c Hc. now rewrite OptimizeCode_elem, Hin.
  - intros r c Hc. rewrite OptimizeCode_elem.
    destruct (Z.leb_spec 0 c); destruct (Z.ltb_spec c (n_cols (data s)));
      cbn [andb]; try reflexivity.
    exfalso. apply Hc. lia.
  - intros z r c Hc. rewrite !OptimizeCode_elem. cbn [data with_codes].
    now rewrite Hin.
  - intros r c. rewrite (OptimizeCode_elem (OptimizeCode LARS_Regress s)).
    rewrite (signal_code_model _ _ c Hm).
    replace (data (OptimizeCode LARS_Regress s)) with (data s)
      by (symmetry; apply Hm).
    rewrite (OptimizeCode_elem s).
    destruct ((0 <=? c) && (c <? n_cols (data s))); reflexivity.
Qed.

End CodingStep.

(** ** What the dictionary step reads and keeps *)

Section DictionaryStepFrame.

Context {F : Type} {arith : Arith F}.

Variable stale : Z -> Z -> F.
Variable solve : mat F -> mat F -> option (mat F).
Variable inv : mat F -> option (mat F).
Variable RandInt : nat -> Z -> Z.

(** What the update leaves as it is, the number of draws it makes and the
    shape of the dictionary it builds when an atom is inactive. *)
Lemma dictionary_update_frame fuel s rng s' rng' :
  dictionary_update stale solve inv RandInt fuel s rng = Some (s', rng') ->
  atoms s' = atoms s /\ data s' = data s /\ codes s' = codes s /\
  lambda1 s' = lambda1 s /\ lambda2 s' = lambda2 s /\
  rng' = (rng + 3 * length (inactive_atoms s))%nat /\
  (inactive_atoms s <> [] ->
   n_rows (dictionary s') = n_rows (data s) /\
   n_cols (dictionary s') = atoms s).
Proof.
  intros H. apply dictionary_update_Some in H. unfold update_atoms in H.
  destruct (match inactive_atoms s with [] => _ | _ => _ end) as [Zact|];
    [|discriminate].
  cbn [bind] in H.
  destruct (newton _ _ _ _ _ _ _ _) as [dv|]; [|discriminate].
  cbn [bind] in H.
  destruct (solve _ _) as [M|]; [|discriminate]. cbn [bind] in H.
  destruct (inactive_atoms s) as [|a0 rest] eqn:Hin.
  - injection H as <- <-. cbn [length].
    repeat split; try reflexivity; [lia | contradiction | contradiction].
  - rewrite <- Hin in *.
    destruct (copy_active _ _ _ _) as [est|] eqn:Hcopy; [|discriminate].
    cbn [bind] in H.
    destruct (reinit_inactive _ _ _ _ _) as [[est1 rng1]|] eqn:Hre;
      [|discriminate].
    cbn [bind] in H. injection H as <- <-.
    destruct (copy_active_spec _ _ _ _ _ Hcopy (NoDup_active s))
      as (Hr & Hc & _).
    destruct (reinit_inactive_spec _ _ _ _ _ _ _ Hre (NoDup_inactive s))
      as (Hrng & Hr1 & Hc1 & _).
    cbn [n_rows n_cols zeros] in Hr, Hc.
    repeat split; try reflexivity; try exact Hrng;
      cbn [dictionary with_dictionary]; congruence.
Qed.

(** X6.  [OptimizeDictionary] does not read the dictionary it replaces:
    called on two objects that differ in the dictionary only it does the
    same.  When it returns, the atom count, the data, the codes and the
    weights are as before, it has made three draws for each inactive
    atom, and, when an atom is inactive, the new dictionary has one row
    per data feature and one column per atom. *)
Theorem OptimizeDictionary_frame (fuel : nat) (adjacencies : uvec)
    (s : SparseCoding F) (rng : nat) :
  (forall D,
     OptimizeDictionary stale solve inv RandInt fuel adjacencies
       (with_dictionary s D) rng
     = OptimizeDictionary stale solve inv RandInt fuel adjacencies s rng) /\
  (forall s' rng',
     OptimizeDictionary stale solve inv RandInt fuel adjacencies s rng
       = Some (s', rng') ->
     atoms s' = atoms s /\ data s' = data s /\ codes s' = codes s /\
     lambda1 s' = lambda1 s /\ lambda2 s' = lambda2 s /\
     rng' = (rng + 3 * length (inactive_atoms s))%nat /\
     (inactive_atoms s <> [] ->
      n_rows (dictionary s') = n_rows (data s) /\
      n_cols (dictionary s') = atoms s)).
Proof.
  split.
  - intros D. reflexivity.
  - intros s' rng'. rewrite OptimizeDictionary_split.
    destruct (count_neighbors _ _ _); [|discriminate].
    cbn [bind]. apply dictionary_update_frame.
Qed.

End DictionaryStepFrame.

(** X6, instance: the step on the example. *)
Lemma OptimizeDictionary_frame_witness :
  exists s',
    OptimizeDictionary no_stale solve_diagonal inv_diagonal draws_first 1
      [0] ex_coded 0 = Some (s', 3%nat) /\
    codes s' = codes ex_coded /\ n_cols (dictionary s') = atoms ex_coded.
Proof.
  destruct (ex_step no_stale draws_first 0 [0] ex_coded 0 [0; 0]
              draws_first_range ex_coded_shape neighbors_one)
    as (est & Hrun & _).
  exists (with_dictionary ex_coded est). split; [exact Hrun|].
  destruct (proj2 (OptimizeDictionary_frame no_stale solve_diagonal
                     inv_diagonal draws_first 1 [0] ex_coded 0) _ _ Hrun)
    as (_ & _ & Hc & _ & _ & _ & Hshape).
  split; [exact Hc|]. apply Hshape.
  rewrite (ex_inactive _ ex_coded_shape). discriminate.
Defined.

(** ** Invariants of the alternating loop *)

Lemma same_problem_refl {F : Type} (s : SparseCoding F) : same_problem s s.
Proof. repeat split. Qed.

Lemma same_problem_trans {F : Type} (s1 s2 s3 : SparseCoding F) :
  same_problem s1 s2 -> same_problem s2 s3 -> same_problem s1 s3.
Proof.
  unfold same_problem. intros H1 H2.
  decompose [and] H1. decompose [and] H2. repeat split; congruence.
Qed.

(** ** The objective *)

Local Open Scope R_scope.

Lemma accu_mabs_nonneg (A : mat R) : 0 <= accu (mabs A).
Proof.
  unfold accu. apply sum_upto_nonneg. intros j.
  apply sum_upto_nonneg. intros i. cbn [mabs elem]. apply Rabs_pos.
Qed.

(** X7.  A [lambda2] that is not positive leaves [Objective] on its
    second branch, where it is ignored; with a nonnegative [lambda1] the
    objective is never below half the squared norm of the residual,
    hence never negative, whatever [lambda2] is.  (A statement about the
    exact values.) *)
Theorem Objective_bounds (s : SparseCoding R) :
  (lambda2 s <= 0 ->
   Objective s
   = 0.5 * norm_fro (residual s) ^ 2 + lambda1 s * accu (mabs (codes s))) /\
  (0 <= lambda1 s ->
   0 <= 0.5 * norm_fro (residual s) ^ 2 <= Objective s).
Proof.
  pose proof (accu_mabs_nonneg (codes s)) as Habs.
  pose proof (pow2_ge_0 (norm_fro (residual s))) as Hres.
  pose proof (pow2_ge_0 (norm_fro (codes s))) as Hz.
  unfold Objective. fold (residual s). real. split.
  - intros Hl. rewrite Rltb_false by lra. reflexivity.
  - intros Hl. split; [lra|].
    destruct (Rlt_dec 0 (lambda2 s)) as [Hp|Hn].
    + rewrite (Rltb_true _ _ Hp). nra.
    + rewrite (Rltb_false _ _ Hn). nra.
Qed.

Local Open Scope Z_scope.

(** X7, instance: the example object. *)
Lemma Objective_bounds_witness :
  (0 <= 0.5 * norm_fro (residual ex_obj) ^ 2 <= Objective ex_obj)%R.
Proof.
  apply (proj2 (Objective_bounds ex_obj)). cbn [lambda1 ex_obj]. lra.
Defined.

(** ** The alternating loop *)

Section EncodeInvariants.

Context {F : Type} {arith : Arith F}.

Variable stale : Z -> Z -> F.
Variable LARS_Regress :
  mat F -> F -> F -> mat F -> mat F -> mat F.
Variable solve : mat F -> mat F -> option (mat F).
Variable inv : mat F -> option (mat F).
Variable RandInt : nat -> Z -> Z.

Lemma OptimizeCode_problem s :
  same_problem s (OptimizeCode LARS_Regress s).
Proof.
  destruct (OptimizeCode_model LARS_Regress s) as (H1 & H2 & _ & H3).
  unfold same_problem. tauto.
Qed.

(** One pass: what it keeps, the draws it makes, and what it returns
    besides the object. *)
Lemma Encode_round_inv fuel adj s rng s' rng' adj' cur :
  Encode_round stale LARS_Regress solve inv RandInt fuel adj s rng
    = Some (s', rng', adj', cur) ->
  same_problem s s' /\
  rng' = (rng + 3 * length (inactive_atoms s))%nat /\
  (exists t, s' = OptimizeCode LARS_Regress t) /\
  adj' = find (codes s') /\ cur = Objective s'.
Proof.
  unfold Encode_round. rewrite OptimizeDictionary_split. intros H.
  destruct (count_neighbors _ _ _); [|discriminate]. cbn [bind] in H.
  destruct (dictionary_update _ _ _ _ _ _ _) as [[s1 rng1]|] eqn:Hu;
    [|discriminate].
  cbn [bind] in H. injection H as <- <- <- <-.
  apply dictionary_update_frame in Hu.
  destruct Hu as (Ha & Hd & Hc & Hl1 & Hl2 & Hrng & _).
  split; [|split; [exact Hrng | split; [eexists; reflexivity | auto]]].
  apply (same_problem_trans _ s1); [|apply OptimizeCode_problem].
  unfold same_problem. rewrite Ha, Hd, Hc, Hl1, Hl2. repeat split.
Qed.

Lemma Encode_loop_inv rounds : forall fuel maxIterations t last adj s rng
    s' rng',
  Encode_loop stale LARS_Regress solve inv RandInt rounds fuel maxIterations
    t last adj s rng = Some (s', rng') ->
  same_problem s s' /\ (exists k, rng' = (rng + 3 * k)%nat) /\
  (s' = s \/ exists t', s' = OptimizeCode LARS_Regress t').
Proof.
  induction rounds as [|rounds IH];
    intros fuel maxIterations t last adj s rng s' rng' H;
    cbn [Encode_loop] in H;
    (destruct (t =? maxIterations);
     [injection H as <- <-;
      split; [apply same_problem_refl|];
      split; [exists 0%nat; lia | now left]|]);
    [discriminate|].
  destruct (Encode_round _ _ _ _ _ _ _ _ _) as [[[[s1 rng1] adj1] cur]|] eqn:Hr;
    [|discriminate].
  cbn [bind] in H. apply Encode_round_inv in Hr.
  destruct Hr as (Hp & Hrng & Ht & _).
  destruct (dltb _ _).
  - injection H as <- <-. split; [exact Hp|].
    split; [eexists; exact Hrng | now right].
  - apply IH in H. destruct H as (Hp' & (k & Hk) & Hs').
    split; [eapply same_problem_trans; eauto|]. split.
    + exists (length (inactive_atoms s) + k)%nat. lia.
    + destruct Hs' as [->|Hs']; [now right | now right].
Qed.

(** X8.  When [Encode] returns, the atom count, the data and the two
    weights are those it was called with, the code matrix has kept its
    shape, and the number of draws made is a multiple of three. *)
Theorem Encode_frame (rounds fuel : nat) (maxIterations : Z)
    (s : SparseCoding F) (rng : nat) (s' : SparseCoding F) (rng' : nat) :
  Encode stale LARS_Regress solve inv RandInt rounds fuel maxIterations s rng
    = Some (s', rng') ->
  same_problem s s' /\ exists k, rng' = (rng + 3 * k)%nat.
Proof.
  unfold Encode. intros H. apply Encode_loop_inv in H.
  destruct H as (Hp & Hk & _). split; [|exact Hk].
  apply (same_problem_trans _ (OptimizeCode LARS_Regress s));
    [apply OptimizeCode_problem | exact Hp].
Qed.

(** X9.  When [Encode] returns, the codes are those of the dictionary it
    returns: for every signal [c] of the data, column [c] of the code
    matrix is the code the regression computes for that signal with the
    returned dictionary (the last step of every run is a coding step). *)
Theorem Encode_codes_current (rounds fuel : nat) (maxIterations : Z)
    (s : SparseCoding F) (rng : nat) (s' : SparseCoding F) (rng' : nat) :
  Encode stale LARS_Regress solve inv RandInt rounds fuel maxIterations s rng
    = Some (s', rng') ->
  forall r c, 0 <= c < n_cols (data s') ->
    elem (codes s') r c = elem (signal_code LARS_Regress s' c) r 0.
Proof.
  unfold Encode. intros H. apply Encode_loop_inv in H.
  destruct H as (_ & _ & Hs').
  assert (Ht : exists t, s' = OptimizeCode LARS_Regress t)
    by (destruct Hs' as [->|Hs']; [eexists; reflexivity | exact Hs']).
  destruct Ht as [t ->]. intros r c Hc.
  pose proof (OptimizeCode_model LARS_Regress t) as Hm.
  rewrite (signal_code_model _ _ _ c Hm).
  replace (data (OptimizeCode LARS_Regress t)) with (data t) in Hc
    by (symmetry; apply Hm).
  rewrite OptimizeCode_elem.
  replace (0 <=? c) with true by (symmetry; apply Z.leb_le; lia).
  replace (c <? n_cols (data t)) with true by (symmetry; apply Z.ltb_lt; lia).
  reflexivity.
Qed.

Lemma passes_inv fuel k : forall x y,
  passes stale LARS_Regress solve inv RandInt fuel k x = Some y ->
  same_problem (ls_obj x) (ls_obj y) /\
  ((0 < k)%nat -> ls_last y = Objective (ls_obj y)).
Proof.
  induction k as [|k IH]; intros x y H.
  - cbn [passes] in H. injection H as <-.
    split; [apply same_problem_refl | lia].
  - rewrite passes_S in H.
    destruct (Encode_round _ _ _ _ _ _ _ _ _) as [[[[s1 rng1] adj1] cur]|]
      eqn:Hr; [|discriminate].
    cbn [bind] in H. destruct (dltb _ _); [discriminate|].
    apply Encode_round_inv in Hr. destruct Hr as (Hp & _ & _ & _ & Hcur).
    destruct k as [|k].
    + cbn [passes] in H. injection H as <-. cbn [ls_obj ls_last].
      split; [exact Hp | intros _; exact Hcur].
    + apply IH in H. cbn [ls_obj ls_last] in H. destruct H as [Hp' Hl].
      split; [eapply same_problem_trans; eauto | intros _; apply Hl; lia].
Qed.

End EncodeInvariants.

(** The example run with [maxIterations = 2]: one pass, which does not
    meet the test, and the guard ends the loop. *)
Lemma ex_encode :
  exists s',
    Encode no_stale ex_lars solve_diagonal inv_diagonal draws_first 1 1 2
      ex_obj 0 = Some (s', 3%nat) /\ ex_shape s'.
Proof.
  destruct (ex_round no_stale draws_first draws_first_range 0 ex_coded 0
              ex_coded_shape) as (s' & Hr & Hs').
  exists s'. split; [|exact Hs'].
  unfold Encode. fold ex_coded. rewrite (ex_find _ ex_coded_shape).
  cbn [Encode_loop Z.eqb Pos.eqb]. rewrite Hr. cbn [bind].
  pose proof DBL_MAX_large as Hl. real. rewrite Rltb_false by lra.
  reflexivity.
Qed.

(** X8, instance: the example run with [maxIterations = 2]. *)
Lemma Encode_frame_witness :
  exists s',
    Encode no_stale ex_lars solve_diagonal inv_diagonal draws_first 1 1 2
      ex_obj 0 = Some (s', 3%nat) /\
    same_problem ex_obj s'.
Proof.
  destruct ex_encode as (s' & He & _). exists s'. split; [exact He|].
  apply (Encode_frame no_stale ex_lars solve_diagonal inv_diagonal draws_first
           1 1 2 ex_obj 0 s' 3 He).
Defined.

(** X9, instance: signal 0 of the same run. *)
Lemma Encode_codes_current_witness :
  exists s',
    Encode no_stale ex_lars solve_diagonal inv_diagonal draws_first 1 1 2
      ex_obj 0 = Some (s', 3%nat) /\
    elem (codes s') 0 0 = elem (signal_code ex_lars s' 0) 0 0.
Proof.
  destruct ex_encode as (s' & He & Hs'). exists s'. split; [exact He|].
  apply (Encode_codes_current no_stale ex_lars solve_diagonal inv_diagonal
           draws_first 1 1 2 ex_obj 0 s' 3 He).
  rewrite (ex_dat _ Hs'). cbn [n_cols ex_data]. lia.
Defined.

(** ** The line search *)

Section LineSearch.

Context {F : Type} {arith : Arith F}.

Variable solve : mat F -> mat F -> option (mat F).

Lemma shrunk_S (alpha0 : F) (k : nat) :
  shrunk (alpha0 * d_rho)%d k = shrunk alpha0 (S k).
Proof.
  unfold shrunk. induction k as [|k IH]; [reflexivity|].
  simpl in *. rewrite IH. reflexivity.
Qed.

(** X11.  When the line search returns, it has accepted the step length
    reached from [alpha0] by [k] multiplications by [rho = 0.9], for the
    least [k] at which the system could be solved and the test
    [fNew <= fOld + alpha * sufficientDecrease], evaluated in the
    arithmetic of the program, holds: at each of the [k] longer step
    lengths the system was solved and the test failed.  The step returned
    is the search direction scaled by the accepted step length, and the
    improvement returned is [fOld - fNew] as the program computes it. *)
Theorem armijo_accepts (fuel : nat) (codesXT codesZT matAInvZXT dualVars
    searchDirection : mat F) (sufficientDecrease : F) :
  forall (alpha0 : F) (step : mat F) (improvement : F),
  armijo solve fuel codesXT codesZT matAInvZXT dualVars searchDirection
    sufficientDecrease alpha0 = Some (step, improvement) ->
  exists (k : nat) (M : mat F),
    (k < fuel)%nat /\
    let trial := fun alpha =>
      solve (madd codesZT
               (diagmat (madd dualVars (mscale alpha searchDirection))))
        codesXT in
    let fOld := dual_objective codesXT matAInvZXT (sum_vec dualVars) in
    let fNew := fun alpha M =>
      dual_objective codesXT M
        (sum_vec dualVars + alpha * sum_vec searchDirection)%d in
    let accepted := fun alpha M =>
      dleb (fNew alpha M) (fOld + alpha * sufficientDecrease)%d in
    let alpha := shrunk alpha0 k in
    trial alpha = Some M /\
    accepted alpha M = true /\
    step = mscale alpha searchDirection /\
    improvement = (fOld - fNew alpha M)%d /\
    (forall j, (j < k)%nat ->
       exists Mj, trial (shrunk alpha0 j) = Some Mj /\
         accepted (shrunk alpha0 j) Mj = false).
Proof.
  induction fuel as [|fuel IH]; intros alpha0 step improvement H;
    [discriminate|].
  cbn [armijo] in H.
  destruct (solve _ codesXT) as [M|] eqn:HM; [|discriminate].
  cbn [bind] in H.
  fold (dual_objective codesXT matAInvZXT (sum_vec dualVars)) in H.
  fold (dual_objective codesXT M
          (sum_vec dualVars + alpha0 * sum_vec searchDirection)%d) in H.
  destruct (dleb _ _) eqn:Hacc.
  - injection H as <- <-.
    exists 0%nat, M. split; [lia|]. cbv zeta.
    change (shrunk alpha0 0) with alpha0.
    split; [exact HM|]. split; [exact Hacc|]. split; [reflexivity|].
    split; [reflexivity|]. intros j Hj; lia.
  - apply IH in H. destruct H as (k & M' & Hk & H). cbv zeta in H.
    rewrite shrunk_S in H.
    destruct H as (HM' & Hle & Hstep & Himp & Hrej).
    exists (S k), M'. split; [lia|]. cbv zeta.
    split; [exact HM'|]. split; [exact Hle|]. split; [exact Hstep|].
    split; [exact Himp|].
    intros j Hj. destruct j as [|j].
    + exists M. change (shrunk alpha0 0) with alpha0.
      split; [exact HM | exact Hacc].
    + destruct (Hrej j ltac:(lia)) as (Mj & HMj & Hn).
      rewrite shrunk_S in HMj, Hn.
      exists Mj. split; assumption.
Qed.

End LineSearch.

(** X11, instance: in binary64, the line search of the second Newton
    iteration on the signal [0.5] coded as [2] rejects the step lengths
    [0.9^0 .. 0.9^408] and accepts [0.9^409], with improvement [0]. *)
Lemma armijo_accepts_witness :
  exists M searchDirection sufficientDecrease step improvement,
    b64_search = Some (M, searchDirection, sufficientDecrease) /\
    armijo solve_diagonal 500 b64_XT b64_ZT M b64_dual searchDirection
      sufficientDecrease 1%float = Some (step, improvement) /\
    b64_rejects M searchDirection sufficientDecrease 409 = true /\
    step = mscale (shrunk 1%float 409) searchDirection /\
    improvement = 0%float.
Proof.
  assert (H : match b64_search with
              | Some (M, sdir, sd) =>
                  match armijo solve_diagonal 500 b64_XT b64_ZT M b64_dual
                          sdir sd 1%float with
                  | Some (_, imp) =>
                      b64_rejects M sdir sd 409 = true /\
                      armijo_test solve_diagonal b64_XT b64_ZT M b64_dual
                        sdir sd (shrunk 1%float 409) = Some true /\
                      imp = 0%float
                  | None => False
                  end
              | None => False
              end)
    by (vm_compute; repeat split; reflexivity).
  destruct b64_search as [[[M sdir] sd]|]; [|contradiction].
  destruct (armijo solve_diagonal 500 b64_XT b64_ZT M b64_dual sdir sd
              1%float) as [[step imp]|] eqn:Ha; [|contradiction].
  destruct H as (Hrej & Hacc & Himp).
  exists M, sdir, sd, step, imp.
  split; [reflexivity|]. split; [exact Ha|]. split; [exact Hrej|].
  split; [|exact Himp].
  destruct (armijo_accepts solve_diagonal 500 _ _ _ _ _ _ _ _ _ Ha)
    as (k & M' & _ & HM' & Hk & Hstep & _ & Hlonger).
  cbv zeta in HM', Hk, Hstep, Hlonger.
  assert (Hk409 : k = 409%nat).
  { destruct (Nat.lt_trichotomy k 409) as [Hlt|[Heq|Hgt]]; [|exact Heq|].
    - exfalso. unfold b64_rejects in Hrej.
      rewrite forallb_forall in Hrej.
      specialize (Hrej k ltac:(apply in_seq; lia)).
      unfold armijo_test in Hrej. rewrite HM' in Hrej. cbn [bind] in Hrej.
      rewrite Hk in Hrej. discriminate.
    - exfalso. destruct (Hlonger 409%nat Hgt) as (Mj & HMj & Hn).
      unfold armijo_test in Hacc. rewrite HMj in Hacc. cbn [bind] in Hacc.
      rewrite Hn in Hacc. discriminate. }
  rewrite Hk409 in Hstep. exact Hstep.
Defined.

(** ** Newton's method on the dual *)

Section NewtonReturn.

Context {F : Type} {arith : Arith F}.

Variable solve : mat F -> mat F -> option (mat F).
Variable inv : mat F -> option (mat F).

(** X12.  When Newton's method returns, the dual variables it returns are
    those of its last iteration plus the step the line search of that
    iteration accepted, and the improvement this line search reported is
    below [NEWTON_TOL = 1e-6]: the loop ends on this test alone (the norm
    of the gradient is only logged).  That iteration solved the system of
    its dual variables, inverted its matrix and solved for the Newton
    direction; the dual variables keep the shape they had at the start. *)
Theorem newton_returns_converged (fuel n : nat) (codesXT codesZT : mat F)
    (nActiveAtoms : Z) :
  forall dualVars0 dualVars',
  newton solve inv fuel n codesXT codesZT nActiveAtoms dualVars0
    = Some dualVars' ->
  exists (dualVars matAInvZXT invA d step : mat F) (improvement : F),
    let A := madd codesZT (diagmat dualVars) in
    let gradient := dual_gradient matAInvZXT nActiveAtoms in
    solve A codesXT = Some matAInvZXT /\ inv A = Some invA /\
    solve (dual_hessian matAInvZXT invA) gradient = Some d /\
    armijo solve fuel codesXT codesZT matAInvZXT dualVars (mneg d)
      (d_c * dot gradient (mneg d))%d d1 = Some (step, improvement) /\
    dltb improvement NEWTON_TOL = true /\
    dualVars' = madd dualVars step /\
    n_rows dualVars = n_rows dualVars0 /\
    n_cols dualVars = n_cols dualVars0 /\
    n_rows dualVars' = n_rows dualVars0 /\
    n_cols dualVars' = n_cols dualVars0.
Proof.
  induction n as [|n IH]; intros u0 u' H; [discriminate|].
  cbn [newton] in H.
  destruct (solve _ codesXT) as [M|] eqn:HM; [|discriminate].
  cbn [bind] in H.
  destruct (inv _) as [iA|] eqn:HiA; [|discriminate]. cbn [bind] in H.
  fold (dual_gradient M nActiveAtoms) in H.
  fold (dual_hessian M iA) in H.
  destruct (solve (dual_hessian M iA) _) as [d|] eqn:Hd; [|discriminate].
  cbn [bind] in H.
  destruct (armijo _ _ _ _ _ _ _ _ _) as [[step imp]|] eqn:Ha;
    [|discriminate].
  cbn [bind] in H.
  destruct (dltb imp NEWTON_TOL) eqn:Hlt.
  - injection H as <-.
    exists u0, M, iA, d, step, imp. cbv zeta.
    repeat split; auto.
  - apply IH in H.
    destruct H as (u & M' & iA' & d' & step' & imp' & H). cbv zeta in H.
    exists u, M', iA', d', step', imp'. cbv zeta.
    cbn [n_rows n_cols madd] in H. exact H.
Qed.

End NewtonReturn.

(** X12, instance: a 1 x 1 system that is solved at the start. *)
Lemma newton_returns_converged_witness :
  exists dualVars' : mat R,
    newton solve_diagonal inv_diagonal 1 1 (ones 1 1) (ones 1 1) 1
      (zeros 1 1) = Some dualVars' /\
    n_rows dualVars' = 1 /\ n_cols dualVars' = 1.
Proof.
  destruct (newton_stationary 0 0 (ones 1 1) (ones 1 1) (zeros 1 1))
    as (u1 & Hu & _); try reflexivity.
  exists u1. split; [exact Hu|].
  destruct (newton_returns_converged solve_diagonal inv_diagonal 1 1 _ _ _ _ _
              Hu)
    as (u & M & iA & d & step & imp & _ & _ & _ & _ & _ & _ & _ & _ & Hr & Hc).
  split; [exact Hr | exact Hc].
Defined.

(** ** The dictionary step when no atom is active *)

Lemma flat_map_nil {A B : Type} (f : A -> list B) (l : list A) :
  (forall a, In a l -> f a = []) -> flat_map f l = [].
Proof.
  induction l as [|a l IH]; intros H; cbn [flat_map]; [reflexivity|].
  rewrite (H a) by now left. apply IH. intros b Hb. apply H. now right.
Qed.

Lemma filter_none {A : Type} (f : A -> bool) (l : list A) :
  (forall x, In x l -> f x = false) -> filter f l = [].
Proof.
  induction l as [|a l IH]; intros H; cbn [filter]; [reflexivity|].
  rewrite (H a) by now left. apply IH. intros b Hb. apply H. now right.
Qed.

(** A code matrix without a nonzero entry has no adjacency. *)
Lemma find_zero (A : mat R) :
  (forall i j, 0 <= i < n_rows A -> 0 <= j < n_cols A -> elem A i j = 0%R) ->
  find A = [].
Proof.
  intros H. unfold find. apply flat_map_nil. intros j Hj.
  apply flat_map_nil. intros i Hi. apply in_upto in Hi, Hj.
  now rewrite (proj2 (nonzero_false _) (H i j Hi Hj)).
Qed.

Lemma inactive_all {F : Type} {arith : Arith F} (s : SparseCoding F) :
  (forall i j, 0 <= i < atoms s -> 0 <= j < n_cols (codes s) ->
     nonzero (elem (codes s) i j) = false) ->
  inactive_atoms s = upto (atoms s) /\ active_atoms s = [].
Proof.
  intros H.
  assert (Hz : forall i, In i (upto (atoms s)) ->
            (row_nnz (codes s) i =? 0) = true).
  { intros i Hi. apply in_upto in Hi. apply Z.eqb_eq, row_nnz_zero.
    intros c Hc. now apply H. }
  rewrite inactive_atoms_filter, active_atoms_filter. split.
  - now apply filter_all.
  - apply filter_none. intros i Hi. now rewrite (Hz i Hi).
Qed.

Lemma inactive_all_zero (s : SparseCoding R) :
  (forall i j, 0 <= i < atoms s -> 0 <= j < n_cols (codes s) ->
     elem (codes s) i j = 0%R) ->
  inactive_atoms s = upto (atoms s) /\ active_atoms s = [].
Proof.
  intros H. apply inactive_all. intros i j Hi Hj.
  apply nonzero_false. now apply H.
Qed.

Lemma reinit_inactive_returns {F : Type} {arith : Arith F}
    (RandInt : nat -> Z -> Z) (X : mat F) l : forall est rng,
  (forall k, 0 <= RandInt k (n_cols X) < n_cols X) ->
  (forall a, In a l -> 0 <= a < n_cols est) -> n_rows est = n_rows X ->
  exists r, reinit_inactive RandInt X l est rng = Some r.
Proof.
  induction l as [|a l IH]; intros est rng Hrand Hl Hr; cbn [reinit_inactive].
  - eexists. reflexivity.
  - rewrite !get_col_ok by apply Hrand. cbn [bind].
    assert (Ha : 0 <= a < n_cols est) by (apply Hl; now left).
    rewrite assign_col_ok by (cbn [n_rows madd col]; auto; lia).
    cbn [bind]. rewrite get_col_ok by exact Ha. cbn [bind].
    rewrite assign_col_ok by (cbn [n_rows n_cols set_col mdiv col]; auto).
    cbn [bind]. apply IH; auto.
    intros b Hb. cbn [n_cols set_col]. apply Hl. now right.
Qed.

Lemma ascending_zseq n : forall lo,
  ascending_from lo (zseq lo n) (lo + Z.of_nat n).
Proof.
  induction n as [|n IH]; intros lo; [exact I|]. cbn [zseq].
  split; [lia|]. specialize (IH (lo + 1)).
  now replace (lo + 1 + Z.of_nat n) with (lo + Z.of_nat (S n)) in IH by lia.
Qed.

Lemma ascending_upto n : 0 <= n -> ascending_from 0 (upto n) n.
Proof.
  intros H. pose proof (ascending_zseq (Z.to_nat n) 0) as Ha.
  now replace (0 + Z.of_nat (Z.to_nat n)) with n in Ha by lia.
Qed.

Local Open Scope R_scope.

Lemma trace_empty (XT M : mat R) :
  n_rows XT = 0%Z -> trace (mmul (trans XT) M) = 0.
Proof.
  intros H. unfold trace. apply sum_upto_zero. intros i _.
  cbn [mmul trans elem n_cols]. rewrite H. reflexivity.
Qed.

Lemma sum_vec_empty (v : mat R) : n_rows v = 0%Z -> sum_vec v = 0.
Proof. intros H. unfold sum_vec. rewrite H. reflexivity. Qed.

Lemma dot_empty (u v : mat R) : n_rows u = 0%Z -> dot u v = 0.
Proof. intros H. unfold dot. rewrite H. reflexivity. Qed.

Local Open Scope Z_scope.

Section NoActiveAtom.

Variable stale : Z -> Z -> R.
Variable solve : mat R -> mat R -> option (mat R).
Variable inv : mat R -> option (mat R).
Variable RandInt : nat -> Z -> Z.

Hypothesis solve_empty : forall A B,
  n_cols A = 0 -> exists M, solve A B = Some M /\ n_rows M = 0.
Hypothesis inv_empty : forall A,
  n_rows A = 0 -> exists I, inv A = Some I.

(** On a system without unknowns the first Newton step is accepted with
    improvement 0, which ends the iteration. *)
Lemma newton_empty f n (XT ZT : mat R) k (u : mat R) :
  n_rows XT = 0 -> n_rows ZT = 0 -> n_cols ZT = 0 -> n_rows u = 0 ->
  exists u', newton solve inv (S f) (S n) XT ZT k u = Some u'.
Proof.
  intros HX HZr HZc Hu. cbn [newton].
  destruct (solve_empty (madd ZT (diagmat u)) XT HZc) as (M1 & HM1 & HM1r).
  rewrite HM1. cbn [bind].
  destruct (inv_empty (madd ZT (diagmat u)) HZr) as (iA & HiA).
  rewrite HiA. cbn [bind].
  set (gradient := mneg (msub (sum_rows (square M1)) (ones k 1))).
  set (hessian := mneg _).
  assert (Hg : n_rows gradient = 0) by exact HM1r.
  destruct (solve_empty hessian gradient HM1r) as (d & Hd & Hdr).
  rewrite Hd. cbn [bind armijo].
  destruct (solve_empty
              (madd ZT (diagmat (madd u (mscale d1 (mneg d))))) XT HZc)
    as (M2 & HM2 & _).
  rewrite HM2. cbn [bind].
  rewrite !trace_empty by exact HX.
  rewrite (sum_vec_empty u Hu), (sum_vec_empty (mneg d) Hdr),
    (dot_empty gradient _ Hg).
  real. rewrite Rleb_true by lra. cbn [bind].
  rewrite Rltb_true by lra.
  eexists. reflexivity.
Qed.

Lemma dictionary_update_no_active fuel (s : SparseCoding R) rng :
  (forall k, 0 <= RandInt k (n_cols (data s)) < n_cols (data s)) ->
  0 < atoms s < SizeT.modulus -> n_rows (codes s) = atoms s ->
  (forall i j, 0 <= i < atoms s -> 0 <= j < n_cols (codes s) ->
     elem (codes s) i j = 0%R) ->
  exists r,
    dictionary_update stale solve inv RandInt (S fuel) s rng = Some r.
Proof.
  intros Hrand Ha Hrows Hzero.
  destruct (inactive_all_zero s Hzero) as [Hin Hact].
  assert (Hasc : ascending_from 0 (inactive_atoms s) (n_rows (codes s)))
    by (rewrite Hin, Hrows; apply ascending_upto; lia).
  assert (Hlen : n_elem (inactive_atoms s) = atoms s)
    by (rewrite Hin; pose proof (length_upto (atoms s)); unfold n_elem; lia).
  assert (Hall : forall a, In a (inactive_atoms s) -> 0 <= a < atoms s)
    by (intros a; rewrite Hin; apply in_upto).
  rewrite dictionary_update_checked by lia.
  unfold update_atoms. rewrite Hact.
  destruct (inactive_atoms s) as [|a0 rest] eqn:E.
  - change (n_elem []) with 0 in Hlen. lia.
  - destruct (RemoveRows_blocks stale (codes s) a0 rest)
      as (Y & HY & HYr & HYc & _); [unfold SizeT.inrange; lia | exact Hasc |].
    rewrite HY. cbn [bind]. rewrite Hlen, Hrows, Z.sub_diag in HYr.
    destruct (newton_empty fuel fuel (mmul Y (trans (data s)))
                (mmul Y (trans Y)) (n_elem []) (zeros (n_elem []) 1))
      as (u & Hu); try exact HYr; try reflexivity.
    rewrite Hu. cbn [bind].
    destruct (solve_empty (madd (mmul Y (trans Y)) (diagmat u))
                (mmul Y (trans (data s))) HYr) as (M & HM & _).
    rewrite HM. cbn [bind copy_active].
    destruct (reinit_inactive_returns RandInt (data s) (a0 :: rest)
                (zeros (n_rows (data s)) (atoms s)) rng Hrand)
      as ([est rng'] & Hre); [exact Hall | reflexivity |].
    rewrite Hre. cbn [bind]. eexists. reflexivity.
Qed.

Lemma nth_error_upto_at n j :
  0 <= j < n -> nth_error (upto n) (Z.to_nat j) = Some j.
Proof.
  intros H. unfold upto.
  rewrite (nth_error_nth' _ 0) by (rewrite length_zseq; lia).
  rewrite nth_zseq by lia. f_equal. lia.
Qed.

(** X13.  When the code matrix is zero no atom is active.  If [solve]
    and [inv] accept a system without unknowns and every draw is a
    column of the data, the dictionary step returns after one Newton
    iteration, makes three draws per atom, and every atom of the new
    dictionary is the sum of its three drawn data columns divided by the
    norm of that sum.  (Stated in exact arithmetic.) *)
Theorem OptimizeDictionary_no_active (fuel : nat) (s : SparseCoding R)
    (rng : nat) :
  (forall k, 0 <= RandInt k (n_cols (data s)) < n_cols (data s)) ->
  0 < atoms s < SizeT.modulus -> n_rows (codes s) = atoms s ->
  (forall i j, 0 <= i < atoms s -> 0 <= j < n_cols (codes s) ->
     elem (codes s) i j = 0%R) ->
  exists s',
    OptimizeDictionary stale solve inv RandInt (S fuel) (find (codes s)) s rng
    = Some (s', (rng + 3 * Z.to_nat (atoms s))%nat) /\
    n_rows (dictionary s') = n_rows (data s) /\
    n_cols (dictionary s') = atoms s /\
    forall j, 0 <= j < atoms s ->
      let k := Z.to_nat j in
      let v := drawn_sum (data s)
                 (RandInt (rng + 3 * k) (n_cols (data s)))
                 (RandInt (rng + 3 * k + 1) (n_cols (data s)))
                 (RandInt (rng + 3 * k + 2) (n_cols (data s))) in
      forall i, elem (dictionary s') i j = (elem v i 0 / norm_fro v)%R.
Proof.
  intros Hrand Ha Hrows Hzero.
  destruct (dictionary_update_no_active fuel s rng Hrand Ha Hrows Hzero)
    as ([s' rng'] & Hu).
  assert (Hrun : OptimizeDictionary stale solve inv RandInt (S fuel)
                   (find (codes s)) s rng = Some (s', rng')).
  { rewrite OptimizeDictionary_split, find_zero.
    - exact Hu.
    - intros i j Hi Hj. apply Hzero; [lia | exact Hj]. }
  destruct (inactive_all_zero s Hzero) as [Hin _].
  destruct (dictionary_update_frame _ _ _ _ _ _ _ _ _ Hu)
    as (_ & _ & _ & _ & _ & Hrng & Hshape).
  destruct Hshape as [Hr Hc].
  { rewrite Hin. intros Hnil.
    pose proof (length_upto (atoms s)) as Hl. rewrite Hnil in Hl.
    cbn [length] in Hl. lia. }
  assert (Hdraws : rng' = (rng + 3 * Z.to_nat (atoms s))%nat).
  { rewrite Hrng, Hin. unfold upto. now rewrite length_zseq. }
  exists s'. rewrite <- Hdraws. split; [exact Hrun|].
  split; [exact Hr|]. split; [exact Hc|].
  intros j Hj k v i.
  destruct (OptimizeDictionary_columns _ _ _ _ _ _ _ _ _ _ Hrun)
    as [Hcols _].
  apply (Hcols k j).
  rewrite Hin. now apply nth_error_upto_at.
Qed.

End NoActiveAtom.

(** X13, instance: the example object before its first coding step. *)
Lemma OptimizeDictionary_no_active_witness :
  exists s',
    OptimizeDictionary no_stale solve_diagonal inv_diagonal draws_first 1
      (find (codes ex_obj)) ex_obj 0 = Some (s', 6%nat) /\
    n_rows (dictionary s') = 1 /\ n_cols (dictionary s') = 2.
Proof.
  destruct (OptimizeDictionary_no_active no_stale solve_diagonal inv_diagonal
              draws_first) with (fuel := 0%nat) (s := ex_obj) (rng := 0%nat)
    as (s' & Hrun & Hr & Hc & _).
  - intros A B H. eexists. split; [reflexivity | exact H].
  - intros A H. eexists. reflexivity.
  - intros k. cbn [data ex_obj n_cols ex_data]. unfold draws_first. lia.
  - cbn [atoms ex_obj]. unfold SizeT.modulus. lia.
  - reflexivity.
  - intros i j _ _. reflexivity.
  - exists s'. split; [exact Hrun|]. split; [exact Hr | exact Hc].
Defined.

(** ** Data without a signal *)

Lemma get_col_none {F : Type} (A : mat F) j :
  n_cols A <= 0 -> get_col A j = None.
Proof.
  intros H. unfold get_col.
  destruct (Z.leb_spec 0 j); destruct (Z.ltb_spec j (n_cols A));
    cbn [andb]; try reflexivity; lia.
Qed.

Section NoSignal.

Context {F : Type} {arith : Arith F}.

Variable stale : Z -> Z -> F.
Variable LARS_Regress :
  mat F -> F -> F -> mat F -> mat F -> mat F.
Variable solve : mat F -> mat F -> option (mat F).
Variable inv : mat F -> option (mat F).
Variable RandInt : nat -> Z -> Z.

Lemma dictionary_update_no_signal fuel s rng :
  n_cols (data s) = 0 -> n_cols (codes s) = 0 -> 0 < atoms s ->
  dictionary_update stale solve inv RandInt fuel s rng = None.
Proof.
  intros Hd Hc Ha. apply dictionary_update_None.
  destruct (inactive_all s) as [Hin Hact]; [intros i j _ Hj; lia|].
  unfold update_atoms. rewrite Hact.
  destruct (inactive_atoms s) as [|a0 rest] eqn:E.
  - pose proof (length_upto (atoms s)) as Hl. rewrite <- Hin in Hl.
    cbn [length] in Hl. lia.
  - destruct (RemoveRows _ _ _); [|reflexivity]. cbn [bind].
    destruct (newton _ _ _ _ _ _ _ _); [|reflexivity]. cbn [bind].
    destruct (solve _ _); [|reflexivity].
    cbn [bind copy_active reinit_inactive].
    rewrite get_col_none by lia. reflexivity.
Qed.

(** X14.  On data without a signal and with at least one atom every atom
    is inactive and no column of the data can be drawn:
    [OptimizeDictionary] never returns, and neither does [Encode] unless
    [maxIterations] is 1, in which case it makes no pass. *)
Theorem Encode_no_signal (s : SparseCoding F) :
  n_cols (data s) = 0 -> n_cols (codes s) = 0 -> 0 < atoms s ->
  (forall fuel adjacencies rng,
     OptimizeDictionary stale solve inv RandInt fuel adjacencies s rng
     = None) /\
  (forall rounds fuel maxIterations rng,
     maxIterations <> 1 ->
     Encode stale LARS_Regress solve inv RandInt rounds fuel maxIterations
       s rng = None).
Proof.
  intros Hd Hc Ha. split.
  - intros fuel adj rng. rewrite OptimizeDictionary_split.
    destruct (count_neighbors _ _ _); [|reflexivity]. cbn [bind].
    now apply dictionary_update_no_signal.
  - intros rounds fuel maxIterations rng Hmax. unfold Encode.
    destruct (OptimizeCode_model LARS_Regress s)
      as (Ha' & Hd' & _ & _ & _ & _ & Hc').
    destruct rounds as [|rounds]; cbn [Encode_loop];
      replace (1 =? maxIterations) with false
        by (symmetry; apply Z.eqb_neq; lia);
      [reflexivity|].
    unfold Encode_round. rewrite OptimizeDictionary_split.
    destruct (count_neighbors _ _ _); [|reflexivity]. cbn [bind].
    rewrite dictionary_update_no_signal; [reflexivity | | | ]; congruence.
Qed.

End NoSignal.

(** X14, instance: one atom, one feature, no signal. *)
Lemma Encode_no_signal_witness :
  Encode no_stale ex_lars solve_diagonal inv_diagonal draws_first 5 5 3
    ex_empty 0 = None.
Proof.
  apply (Encode_no_signal no_stale ex_lars solve_diagonal inv_diagonal
           draws_first ex_empty); try reflexivity.
  lia.
Defined.

(** ** When the dictionary step returns *)

Lemma copy_active_returns {F : Type} l : forall i (src est : mat F),
  0 <= i -> i + Z.of_nat (length l) <= n_cols src ->
  (forall a, In a l -> 0 <= a < n_cols est) -> n_rows src = n_rows est ->
  exists est', copy_active l i src est = Some est'.
Proof.
  induction l as [|a l IH]; intros i src est Hi Hlen Hl Hr;
    cbn [copy_active].
  - eexists. reflexivity.
  - cbn [length] in Hlen. rewrite get_col_ok by lia. cbn [bind].
    rewrite assign_col_ok by (cbn [n_rows col]; auto; apply Hl; now left).
    cbn [bind]. apply IH; cbn [n_rows n_cols set_col]; auto; try lia.
    intros b Hb. apply Hl. now right.
Qed.

Section DictionaryStepProgress.

Context {F : Type} {arith : Arith F}.

Variable stale : Z -> Z -> F.
Variable solve : mat F -> mat F -> option (mat F).
Variable inv : mat F -> option (mat F).
Variable RandInt : nat -> Z -> Z.

Hypothesis solve_shape : forall A B M,
  solve A B = Some M -> n_rows M = n_cols A /\ n_cols M = n_cols B.

(** X15.  On an object whose code matrix has shape [atoms x N], with the
    adjacencies of its codes, with draws that are columns of the data
    and a [solve] whose solutions have the shape of the system, none of
    the bounds checks of [OptimizeDictionary] fails: the matrix of the
    active code rows exists, and the step returns exactly when Newton's
    method on the dual problem returns and the final system is solved. *)
Theorem OptimizeDictionary_returns (fuel : nat) (s : SparseCoding F)
    (rng : nat) :
  (forall k, 0 <= RandInt k (n_cols (data s)) < n_cols (data s)) ->
  SizeT.inrange (atoms s) -> n_rows (codes s) = atoms s ->
  n_cols (codes s) = n_cols (data s) ->
  atoms s * n_cols (data s) < SizeT.modulus ->
  exists matActiveZ,
    (match inactive_atoms s with
     | [] => Some (codes s)
     | _ => RemoveRows stale (codes s) (inactive_atoms s)
     end) = Some matActiveZ /\
    ((exists r,
        OptimizeDictionary stale solve inv RandInt fuel (find (codes s)) s rng
        = Some r) <->
     (exists M,
        dual_solution solve inv fuel (data s) matActiveZ
          (n_elem (active_atoms s)) = Some M)).
Proof.
  intros Hrand Ha Hrows Hcols Hmod.
  assert (H0 : 0 <= atoms s) by (unfold SizeT.inrange in Ha; lia).
  assert (HN : 0 <= n_cols (data s)) by (specialize (Hrand 0%nat); lia).
  assert (Hcount : exists counts,
            count_neighbors (find (codes s)) (atoms s) (n_cols (data s))
            = Some counts).
  { apply count_neighbors_returns; auto.
    rewrite <- Hrows, <- Hcols. apply find_ascending; rewrite ?Hrows, ?Hcols;
      lia. }
  destruct Hcount as [counts Hcount].
  pose proof (ascending_inactive s H0) as Hasc.
  pose proof (partition_atoms s H0) as Hpart.
  assert (Hact : forall a, In a (active_atoms s) -> 0 <= a < atoms s)
    by (intros a Hin; now apply active_atoms_spec in Hin).
  assert (Hina : forall a, In a (inactive_atoms s) -> 0 <= a < atoms s)
    by (intros a Hin; now apply inactive_atoms_spec in Hin).
  assert (HZ : exists Zact,
    (match inactive_atoms s with
     | [] => Some (codes s)
     | _ => RemoveRows stale (codes s) (inactive_atoms s)
     end) = Some Zact /\ n_rows Zact = n_elem (active_atoms s)).
  { destruct (inactive_atoms s) as [|a0 rest] eqn:E.
    - exists (codes s). split; [reflexivity|].
      change (n_elem []) with 0 in Hpart. lia.
    - rewrite <- Hrows in Hasc, Ha.
      destruct (RemoveRows_blocks stale (codes s) a0 rest Ha Hasc)
        as (Y & HY & HYr & _).
      exists Y. split; [exact HY | lia]. }
  destruct HZ as (Zact & HZ & HZr). exists Zact. split; [exact HZ|].
  rewrite OptimizeDictionary_split, Hcount. cbn [bind].
  rewrite dictionary_update_checked by lia.
  unfold update_atoms, dual_solution. rewrite HZ. cbn [bind].
  destruct (newton _ _ _ _ _ _ _ _) as [u|]; cbn [bind];
    [|split; intros [? ?]; discriminate].
  destruct (solve _ _) as [M|] eqn:HM; cbn [bind];
    [|split; intros [? ?]; discriminate].
  split; [intros _; eexists; reflexivity|]. intros _.
  destruct (inactive_atoms s) as [|a0 rest] eqn:E;
    [eexists; reflexivity|].
  apply solve_shape in HM. cbn [n_rows n_cols madd mmul trans] in HM.
  destruct HM as [HMr HMc].
  destruct (copy_active_returns (active_atoms s) 0 (trans M)
              (zeros (n_rows (data s)) (atoms s)))
    as (est & Hest); cbn [n_rows n_cols trans zeros]; auto;
    try (unfold n_elem in *; lia).
  rewrite Hest. cbn [bind].
  destruct (copy_active_spec _ _ _ _ _ Hest (NoDup_active s))
    as (Her & Hec & _).
  cbn [n_rows n_cols zeros] in Her, Hec.
  destruct (reinit_inactive_returns RandInt (data s) (a0 :: rest) est rng
              Hrand)
    as ([est' rng'] & Hre); [rewrite Hec; exact Hina | exact Her |].
  rewrite Hre. cbn [bind]. eexists. reflexivity.
Qed.

End DictionaryStepProgress.

Lemma solve_diagonal_shape {F : Type} {arith : Arith F} (A B M : mat F) :
  solve_diagonal A B = Some M -> n_rows M = n_cols A /\ n_cols M = n_cols B.
Proof. intros H. injection H as <-. split; reflexivity. Qed.

(** X15, instance: the example after the initial coding step. *)
Lemma OptimizeDictionary_returns_witness :
  exists matActiveZ,
    RemoveRows no_stale (codes ex_coded) [1] = Some matActiveZ /\
    ((exists r,
        OptimizeDictionary no_stale solve_diagonal inv_diagonal draws_first 1
          (find (codes ex_coded)) ex_coded 0 = Some r) <->
     (exists M,
        dual_solution solve_diagonal inv_diagonal 1 (data ex_coded)
          matActiveZ 1 = Some M)).
Proof.
  pose proof ex_coded_shape as Hs.
  destruct (OptimizeDictionary_returns no_stale solve_diagonal inv_diagonal
              draws_first solve_diagonal_shape 1 ex_coded 0)
    as (Zact & HZ & Hiff).
  - intros k. rewrite (ex_dat _ Hs). cbn [n_cols ex_data].
    apply draws_first_range.
  - unfold SizeT.inrange. rewrite (ex_atoms _ Hs). unfold SizeT.modulus. lia.
  - now rewrite (ex_rows _ Hs), (ex_atoms _ Hs).
  - now rewrite (ex_cols _ Hs), (ex_dat _ Hs).
  - rewrite (ex_atoms _ Hs), (ex_dat _ Hs). cbn [n_cols ex_data].
    unfold SizeT.modulus. lia.
  - rewrite (ex_inactive _ Hs) in HZ. rewrite (ex_active _ Hs) in Hiff.
    exists Zact. split; [exact HZ | exact Hiff].
Defined.

(** ** The count of the neighbours along the loop *)

Section EncodePasses.

Context {F : Type} {arith : Arith F}.

Variable stale : Z -> Z -> F.
Variable LARS_Regress :
  mat F -> F -> F -> mat F -> mat F -> mat F.
Variable solve : mat F -> mat F -> option (mat F).
Variable inv : mat F -> option (mat F).
Variable RandInt : nat -> Z -> Z.

(** The adjacencies the loop holds are those of the codes it holds. *)
Lemma passes_adjacencies fuel k : forall x y,
  passes stale LARS_Regress solve inv RandInt fuel k x = Some y ->
  ls_adj x = find (codes (ls_obj x)) ->
  ls_adj y = find (codes (ls_obj y)).
Proof.
  induction k as [|k IH]; intros x y H Hx.
  - cbn [passes] in H. now injection H as <-.
  - rewrite passes_S in H.
    destruct (Encode_round _ _ _ _ _ _ _ _ _) as [[[[s1 rng1] adj1] cur]|]
      eqn:Hr; [|discriminate].
    cbn [bind] in H. destruct (dltb _ _); [discriminate|].
    apply Encode_round_inv in Hr. destruct Hr as (_ & _ & _ & Hadj & _).
    apply (IH _ _ H). exact Hadj.
Qed.

(** X16.  Started on an object whose code matrix has shape [atoms x N]
    with fewer than [2^64] entries, the loop of [Encode] holds, after any
    number of passes, the adjacencies of the codes it holds and an object
    for the same problem; so the count of the neighbours returns in
    every pass, and every dictionary step of the loop is the update
    alone. *)
Theorem Encode_pass_counts_in_bounds (fuel k : nat) (s : SparseCoding F)
    (rng : nat) (y : loop_state F) :
  n_rows (codes s) = atoms s -> n_cols (codes s) = n_cols (data s) ->
  0 <= atoms s -> 0 <= n_cols (data s) ->
  atoms s * n_cols (data s) < SizeT.modulus ->
  passes stale LARS_Regress solve inv RandInt fuel k
    (loop_entry LARS_Regress s rng) = Some y ->
  ls_adj y = find (codes (ls_obj y)) /\
  same_problem s (ls_obj y) /\
  (exists neighborCounts,
     count_neighbors (ls_adj y) (atoms (ls_obj y))
       (n_cols (data (ls_obj y))) = Some neighborCounts) /\
  (forall fuel' rng',
     OptimizeDictionary stale solve inv RandInt fuel' (ls_adj y) (ls_obj y)
       rng'
     = dictionary_update stale solve inv RandInt fuel' (ls_obj y) rng').
Proof.
  intros Hr Hc Ha HN Hmod H.
  pose proof (passes_adjacencies _ _ _ _ H eq_refl) as Hadj.
  destruct (passes_inv _ _ _ _ _ _ _ _ _ H) as [Hp _].
  cbn [loop_entry ls_obj] in Hp.
  assert (Hps : same_problem s (ls_obj y))
    by (eapply same_problem_trans; [apply OptimizeCode_problem | exact Hp]).
  destruct Hps as (Ha' & Hd' & Hl1 & Hl2 & Hr' & Hc').
  assert (Hcount : exists counts,
    count_neighbors (ls_adj y) (atoms (ls_obj y)) (n_cols (data (ls_obj y)))
    = Some counts).
  { rewrite Hadj. apply count_neighbors_returns; rewrite ?Ha', ?Hd'; auto.
    rewrite <- Hr, <- Hc, <- Hr', <- Hc'.
    apply find_ascending; rewrite ?Hr', ?Hc', ?Hr, ?Hc; lia. }
  split; [exact Hadj|]. split; [repeat split; assumption|].
  split; [exact Hcount|]. intros fuel' rng'.
  destruct Hcount as [counts Hcount].
  rewrite OptimizeDictionary_split, Hcount. reflexivity.
Qed.

End EncodePasses.

(** X16, instance: after the first pass of the example. *)
Lemma Encode_pass_counts_in_bounds_witness :
  exists y,
    passes no_stale ex_lars solve_diagonal inv_diagonal draws_first 1 1
      (loop_entry ex_lars ex_obj 0) = Some y /\
    ls_adj y = find (codes (ls_obj y)) /\
    exists neighborCounts,
      count_neighbors (ls_adj y) (atoms (ls_obj y))
        (n_cols (data (ls_obj y))) = Some neighborCounts.
Proof.
  destruct ex_first_pass as (s' & Hp & _). rewrite <- ex_entry in Hp.
  eexists. split; [exact Hp|].
  destruct (Encode_pass_counts_in_bounds no_stale ex_lars solve_diagonal
              inv_diagonal draws_first 1 1 ex_obj 0
              (mkloop s' 3 [0] (21 / 10)%R))
    as (Hadj & _ & Hcount & _);
    try reflexivity; try exact Hp;
    cbn [atoms data ex_obj n_cols ex_data]; try lia;
    try (unfold SizeT.modulus; lia).
  split; [exact Hadj | exact Hcount].
Defined.
